(** * Hesiod: the dependency graph, the scheduler and its cache

    A shallow embedding of [hesiod_py/core/graph.py], [runtime.py] and
    [project.py].  Python dictionaries whose iteration order is observable
    (the ports of a node, the items of a value) are insertion-ordered
    association lists; dictionaries and sets that are only looked up, or
    whose iteration order Python leaves unspecified, are [gmap]s and
    [gset]s.  Functions that raise return a [result]; the scheduler, which
    mutates the graph and the cache before it may raise, is a function from
    a world to an outcome and the world it leaves behind. *)

From Stdlib Require Import ZArith Lia.
From stdpp Require Import gmap strings list fin_maps sorting pretty.


(** ** Python values *)

(** The values that flow through parameters, ports and the cache.  A [dict]
    keeps its items in insertion order and has [str] keys, as the
    annotations of [Node.parameters] and of the handlers' inputs and
    outputs say; a [set] is given by its iteration sequence. *)
#[warnings="-register-all"]
Inductive pyvalue : Type :=
| PNone
| PBool (b : bool)
| PInt (z : Z)
| PFloat (bits : Z)
| PStr (s : string)
| PDict (items : list (string * pyvalue))
| PList (elems : list pyvalue)
| PTuple (elems : list pyvalue)
| PSet (elems : list pyvalue)
| PNdarray (shape : list Z) (dtype : string) (raw : string)
| PModel (dump : pyvalue)
| PObject (cls : string) (attrs : list (string * pyvalue))
| POpaque (repr : string).

(** ** Insertion-ordered dictionaries *)

Abbreviation odict V := (list (string * V)).

Fixpoint od_get {V} (k : string) (d : odict V) : option V :=
  match d with
  | [] => None
  | (k', v) :: rest => if decide (k = k') then Some v else od_get k rest
  end.

(** [d[k] = v]: an existing key keeps its place, a new one goes last. *)
Fixpoint od_set {V} (k : string) (v : V) (d : odict V) : odict V :=
  match d with
  | [] => [(k, v)]
  | (k', v') :: rest =>
      if decide (k = k') then (k, v) :: rest else (k', v') :: od_set k v rest
  end.

(** [del d[k]] *)
Fixpoint od_del {V} (k : string) (d : odict V) : odict V :=
  match d with
  | [] => []
  | (k', v') :: rest =>
      if decide (k = k') then od_del k rest else (k', v') :: od_del k rest
  end.

Definition od_keys {V} (d : odict V) : list string := d.*1.

Definition od_values {V} (d : odict V) : list V := d.*2.

(** ** Errors *)

(** The exceptions of the three modules.  [GraphError_cycle] is the
    [GraphError] that [topological_order] raises from graphlib's
    [CycleError]; its message embeds graphlib's description of the cycle,
    which is left out.  [KeyError] and [TypeError] are Python's own. *)

Inductive error : Type :=
| GraphError (msg : string)
| GraphError_cycle
| CycleError
| SchedulerError (msg : string)
| RegistryError (msg : string)
| KeyError (k : string)
| TypeError.

Definition is_GraphError (e : error) : bool :=
  match e with
  | GraphError _ | GraphError_cycle => true
  | _ => false
  end.

Definition is_SchedulerError (e : error) : bool :=
  match e with
  | SchedulerError _ => true
  | _ => false
  end.

Inductive result (A : Type) : Type :=
| Ok (a : A)
| Raise (e : error).
Arguments Ok {A} a.
Arguments Raise {A} e.

#[global] Instance result_ret : MRet result := λ A a, Ok a.

#[global] Instance result_bind : MBind result := λ A B f r,
  match r with
  | Ok a => f a
  | Raise e => Raise e
  end.

#[global] Instance result_fmap : FMap result := λ A B f r,
  match r with
  | Ok a => Ok (f a)
  | Raise e => Raise e
  end.

(** A [for] loop whose body may raise. *)
Fixpoint for_each {A S} (body : S → A → result S) (xs : list A) (s : S) : result S :=
  match xs with
  | [] => Ok s
  | x :: rest => s' ← body s x; for_each body rest s'
  end.

(** ** graph.py *)

Record Connection : Type := mkConnection {
  source_node : string;
  source_port : string
}.

Record Node : Type := mkNode {
  key : string;
  type : string;
  title : option string;
  parameters : odict pyvalue;
  metadata : odict pyvalue
}.

Record Graph : Type := mkGraph {
  name : string;
  graph_metadata : odict pyvalue;
  nodes : gmap string Node;
  _connections : gmap string (odict Connection);
  _dependents : gmap string (gset string);
  _dirty : gset string
}.

#[global] Instance Connection_eq_dec : EqDecision Connection.
Proof. solve_decision. Defined.

(** [Graph(name=..., metadata=...)] *)
Definition Graph_init (nm : string) (md : odict pyvalue) : Graph :=
  mkGraph nm md ∅ ∅ ∅ ∅.

Definition set_nodes (f : gmap string Node → gmap string Node) (g : Graph) : Graph :=
  mkGraph (name g) (graph_metadata g) (f (nodes g)) (_connections g)
          (_dependents g) (_dirty g).

Definition set_connections
    (f : gmap string (odict Connection) → gmap string (odict Connection))
    (g : Graph) : Graph :=
  mkGraph (name g) (graph_metadata g) (nodes g) (f (_connections g))
          (_dependents g) (_dirty g).

Definition set_dependents
    (f : gmap string (gset string) → gmap string (gset string)) (g : Graph) : Graph :=
  mkGraph (name g) (graph_metadata g) (nodes g) (_connections g)
          (f (_dependents g)) (_dirty g).

Definition set_dirty (f : gset string → gset string) (g : Graph) : Graph :=
  mkGraph (name g) (graph_metadata g) (nodes g) (_connections g)
          (_dependents g) (f (_dirty g)).

(** [node_key in self.nodes] *)
Definition has_node (g : Graph) (node_key : string) : bool :=
  bool_decide (is_Some (nodes g !! node_key)).

(** [Graph.inputs_for], [dependencies_of] and [dependents_of] *)
Definition inputs_for (g : Graph) (node_key : string) : odict Connection :=
  default [] (_connections g !! node_key).

Definition dependencies_of (g : Graph) (node_key : string) : gset string :=
  list_to_set (source_node <$> od_values (inputs_for g node_key)).

Definition dependents_of (g : Graph) (node_key : string) : gset string :=
  default ∅ (_dependents g !! node_key).

(** The loop of [mark_dirty] adds every dependent to the dirty set: a union. *)
Definition mark_dirty (node_key : string) (g : Graph) : Graph :=
  if has_node g node_key
  then set_dirty (λ d, d ∪ {[node_key]} ∪ dependents_of g node_key) g
  else g.

Definition clear_dirty (node_key : string) (g : Graph) : Graph :=
  set_dirty (λ d, d ∖ {[node_key]}) g.

Definition dirty (g : Graph) : gset string := _dirty g.

Definition add_node (node : Node) (g : Graph) : result Graph :=
  if has_node g (key node)
  then Raise (GraphError ("Node '" +:+ key node +:+ "' already exists"))
  else Ok (mark_dirty (key node) (set_nodes (insert (key node) node) g)).

(** The body of the inner loop of [remove_node], for one item of the
    snapshot [list(self._connections[target].items())]. *)
Definition remove_node_port (node_key target : string) (g : Graph)
    (item : string * Connection) : Graph :=
  if decide (source_node item.2 = node_key)
  then mark_dirty target
         (set_connections (λ c, <[target := od_del item.1 (default [] (c !! target))]> c) g)
  else g.

(** The body of the outer loop of [remove_node], for one dependent.  The
    entry that the [defaultdict] creates when [target] has no connections
    is empty and so deleted again by the [if not ...: del]. *)
Definition remove_node_target (node_key : string) (g : Graph) (target : string) : Graph :=
  let g1 := foldl (remove_node_port node_key target) g (inputs_for g target) in
  let g2 := if decide (inputs_for g1 target = [])
            then set_connections (delete target) g1 else g1 in
  set_dependents
    (λ d, <[node_key := default ∅ (d !! node_key) ∖ {[target]}]> d) g2.

Definition remove_node (node_key : string) (g : Graph) : result Graph :=
  if negb (has_node g node_key)
  then Raise (GraphError ("Node '" +:+ node_key +:+ "' does not exist"))
  else
    let g1 := foldl (remove_node_target node_key) g (elements (dependents_of g node_key)) in
    let g2 := set_dependents (delete node_key) g1 in
    let g3 := set_nodes (delete node_key) g2 in
    let g4 := set_connections (delete node_key) g3 in
    Ok (mark_dirty node_key g4).

Definition connect (source_node source_port target_node target_port : string)
    (g : Graph) : result Graph :=
  if negb (has_node g source_node)
  then Raise (GraphError ("Source node '" +:+ source_node +:+ "' does not exist"))
  else if negb (has_node g target_node)
  then Raise (GraphError ("Target node '" +:+ target_node +:+ "' does not exist"))
  else
    let g1 := set_connections
                (λ c, <[target_node := od_set target_port (mkConnection source_node source_port)
                                          (default [] (c !! target_node))]> c) g in
    let g2 := set_dependents
                (λ d, <[source_node := default ∅ (d !! source_node) ∪ {[target_node]}]> d) g1 in
    Ok (mark_dirty target_node g2).

Definition disconnect (node port : string) (g : Graph) : Graph :=
  match od_get port (inputs_for g node) with
  | Some conn =>
      let source := source_node conn in
      let g1 := set_connections
                  (λ c, <[node := od_del port (default [] (c !! node))]> c) g in
      let g2 := if decide (inputs_for g1 node = [])
                then set_connections (delete node) g1 else g1 in
      let g3 := set_dependents
                  (λ d, <[source := default ∅ (d !! source) ∖ {[node]}]> d) g2 in
      mark_dirty node g3
  | None => g
  end.

(** ** graphlib.TopologicalSorter *)

(** The sorter of Python's standard library, after its documentation: a
    node is ready when all its predecessors are done; [static_order]
    yields the ready nodes group after group and raises [CycleError] when
    the graph has a cycle, that is when nodes are left of which none is
    ready.  A sorter maps each node to its set of predecessors; the order
    inside a group is the library's own choice, here that of [elements]. *)
Abbreviation TopologicalSorter := (gmap string (gset string)).

(** [sorter.add(node, *predecessors)]: the predecessors are joined to those
    already given for [node]; a predecessor not seen before becomes a node
    with no predecessors of its own. *)
Definition ts_add (node : string) (predecessors : gset string)
    (sorter : TopologicalSorter) : TopologicalSorter :=
  <[node := default ∅ (sorter !! node) ∪ predecessors]> sorter
    ∪ gset_to_gmap ∅ predecessors.

(** [get_ready()], given the nodes that are done. *)
Definition ts_ready (sorter : TopologicalSorter) (done : gset string) : list string :=
  elements (dom (filter (λ np : string * gset string, (np.1 ∉ done) ∧ (np.2 ⊆ done)) sorter)).

(** The end of [static_order]: nodes that were never ready are in a cycle. *)
Definition ts_finish (sorter : TopologicalSorter) (done : gset string)
    (out : list string) : result (list string) :=
  if decide (dom sorter ⊆ done) then Ok out else Raise CycleError.

(** The loop of [static_order].  Every round but the last passes out at
    least one node, so as many rounds as there are nodes are enough. *)
Fixpoint ts_loop (fuel : nat) (sorter : TopologicalSorter) (done : gset string)
    (out : list string) : result (list string) :=
  match fuel with
  | O => ts_finish sorter done out
  | S fuel' =>
      match ts_ready sorter done with
      | [] => ts_finish sorter done out
      | ready => ts_loop fuel' sorter (done ∪ list_to_set ready) (out ++ ready)
      end
  end.

(** [sorter.static_order()], consumed to its end as [tuple(...)] does. *)
Definition static_order (sorter : TopologicalSorter) : result (list string) :=
  ts_loop (size sorter) sorter ∅ [].

(** ** Graph.topological_order *)

(** Every key that a traversal of the dependencies can meet. *)
Definition all_keys (g : Graph) : gset string :=
  dom (nodes g) ∪ dom (_connections g)
    ∪ ⋃ ((λ ports : odict Connection, list_to_set (source_node <$> od_values ports))
           <$> (map_to_list (_connections g)).*2).

(** The recursion of [_add_dependencies_recursive] is as deep as the
    longest chain of unvisited dependencies; [fuel] bounds that depth
    (the recursion limit of the interpreter is left out).  The sorter and
    the set of visited keys, which the source updates in place, are passed
    along. *)
Fixpoint _add_dependencies_recursive (fuel : nat) (g : Graph) (node_key : string)
    (st : TopologicalSorter * gset string) : TopologicalSorter * gset string :=
  match fuel with
  | O => st
  | S fuel' =>
      if decide (node_key ∈ st.2) then st
      else
        let visited := st.2 ∪ {[node_key]} in
        let deps := dependencies_of g node_key in
        let sorter := ts_add node_key deps st.1 in
        foldl (λ st' dep, _add_dependencies_recursive fuel' g dep st')
              (sorter, visited) (elements deps)
  end.

(** [target_nodes] in [topological_order] *)
Definition target_nodes (limit_to : option (list string)) (g : Graph) : gset string :=
  match limit_to with
  | None => dom (nodes g)
  | Some keys => list_to_set (filter (λ k, has_node g k = true) keys)
  end.

(** The loop of [topological_order] over the targets. *)
Definition collect_dependencies (g : Graph) (targets : gset string)
    : TopologicalSorter * gset string :=
  foldl (λ st node_key, _add_dependencies_recursive (S (size (all_keys g))) g node_key st)
        (∅, ∅) (elements targets).

Definition topological_order (limit_to : option (list string)) (g : Graph)
    : result (list string) :=
  let targets := target_nodes limit_to g in
  if bool_decide (is_Some limit_to) && bool_decide (targets = ∅) then Ok []
  else
    match static_order (collect_dependencies g targets).1 with
    | Ok order => Ok order
    | Raise _ => Raise GraphError_cycle
    end.

(** ** The libraries the scheduler calls *)

(** [hashlib], [json] and a few built-ins are not part of the repository;
    the scheduler is verified for any functions in their place.
    [json_encode v] is [json.dumps(v)] of a value whose dictionaries are
    already in the order they are to be written, [None] when [json] raises
    [TypeError]; [type_repr v] is [repr(type(v))]. *)
Class Externals : Type := {
  sha256_hexdigest : string → string;
  sha1_hexdigest : string → string;
  json_encode : pyvalue → option string;
  str_lower : string → string;
  type_repr : pyvalue → string
}.

(** ** runtime.py: signatures *)

Definition key_le {V} (a b : string * V) : Prop := String.le a.1 b.1.

#[global] Instance key_le_dec {V} (a b : string * V) : Decision (key_le a b).
Proof. unfold key_le. apply _. Defined.

(** [sorted(items, key=lambda pair: str(pair[0]))], the keys being [str]. *)
Definition sorted_items {V} (items : list (string * V)) : list (string * V) :=
  merge_sort key_le items.

(** [json.dumps(..., sort_keys=True)] writes the items of every dictionary
    in the order of their keys. *)
Fixpoint sort_keys (value : pyvalue) : pyvalue :=
  match value with
  | PDict items => PDict (sorted_items (map (λ '(k, v), (k, sort_keys v)) items))
  | PList elems => PList (map sort_keys elems)
  | PTuple elems => PTuple (map sort_keys elems)
  | _ => value
  end.

Definition json_dumps_sorted `{Externals} (value : pyvalue) : option string :=
  json_encode (sort_keys value).

(** [_normalise_value].  The source sorts the items and then normalises
    the values; the keys are untouched by normalisation, so normalising
    first gives the same dictionary (lemma [normalise_dict_sorted_first]). *)
Fixpoint _normalise_value `{Externals} (value : pyvalue) : pyvalue :=
  match value with
  | PNone | PBool _ | PInt _ | PFloat _ | PStr _ => value
  | PDict items =>
      PDict (sorted_items (map (λ '(k, v), (k, _normalise_value v)) items))
  | PList elems | PTuple elems | PSet elems => PList (map _normalise_value elems)
  | PNdarray shape dtype raw =>
      PDict [("__ndarray__", PBool true);
             ("shape", PTuple (PInt <$> shape));
             ("dtype", PStr dtype);
             ("digest", PStr (sha1_hexdigest raw))]
  | PModel dump => dump
  | PObject cls attrs =>
      PDict [("__object__", PStr cls);
             ("data", PDict (sorted_items
                               (map (λ '(k, v), (k, _normalise_value v)) attrs)))]
  | POpaque repr => PStr repr
  end.

Definition signature_payload `{Externals} (node : Node) (inputs : odict pyvalue) : pyvalue :=
  PDict [("node", PStr (key node));
         ("type", PStr (type node));
         ("parameters", _normalise_value (PDict (parameters node)));
         ("inputs", _normalise_value (PDict inputs))].

Definition _make_signature `{Externals} (node : Node) (inputs : odict pyvalue)
    : result string :=
  match json_dumps_sorted (signature_payload node inputs) with
  | Some data => Ok (sha256_hexdigest data)
  | None => Raise TypeError
  end.

(** ** configuration.py *)

Record RuntimePaths : Type := mkRuntimePaths {
  project_root : string;
  cache_dir : string;
  asset_dir : string
}.

Record RuntimePerformance : Type := mkRuntimePerformance {
  enable_multiprocessing : bool;
  perf_enable_memoization : bool;
  worker_concurrency : Z
}.

Record AppConfiguration : Type := mkAppConfiguration {
  paths : RuntimePaths;
  performance : RuntimePerformance;
  config_metadata : odict pyvalue
}.

(** ** runtime.py: the cache and the context *)

Record ExecutionCache : Type := mkExecutionCache {
  _values : gmap string (odict pyvalue);
  _signatures : gmap string string
}.

Definition ExecutionCache_init : ExecutionCache := mkExecutionCache ∅ ∅.

(** [ExecutionCache.get]: [None] when nothing is stored for the node. *)
Definition cache_get (cache : ExecutionCache) (node_key : string) : option (odict pyvalue) :=
  _values cache !! node_key.

(** [ExecutionCache.store] *)
Definition cache_store (node_key signature : string) (outputs : odict pyvalue)
    (cache : ExecutionCache) : ExecutionCache :=
  mkExecutionCache (<[node_key := outputs]> (_values cache))
                   (<[node_key := signature]> (_signatures cache)).

(** [ExecutionCache.is_valid] *)
Definition cache_is_valid (cache : ExecutionCache) (node_key signature : string) : bool :=
  bool_decide (_signatures cache !! node_key = Some signature).

(** [ExecutionCache.invalidate] *)
Definition cache_invalidate (node_key : string) (cache : ExecutionCache) : ExecutionCache :=
  mkExecutionCache (delete node_key (_values cache)) (delete node_key (_signatures cache)).

(** [ExecutionCache.clear] *)
Definition cache_clear (cache : ExecutionCache) : ExecutionCache := ExecutionCache_init.

(** The [graph] of a context is the scheduler's own, and its [state] is
    part of what the handlers can reach (see [World]); what is left is the
    configuration. *)
Record RuntimeContext : Type := mkRuntimeContext {
  configuration : option AppConfiguration
}.

Definition enable_memoization (context : RuntimeContext) : bool :=
  match configuration context with
  | None => true
  | Some config => perf_enable_memoization (performance config)
  end.

(** ** registry.py *)

Inductive handler_outcome : Type :=
| Returns (outputs : pyvalue)
| Raises (msg : string).

(** A handler is called with the node, the input values and the context;
    it may read and write the state it can reach (the [state] of the
    context, the variables of its closure), and returns or raises. *)
Definition NodeHandler : Type :=
  Node → odict pyvalue → RuntimeContext → odict pyvalue → handler_outcome * odict pyvalue.

Record NodeDefinition : Type := mkNodeDefinition {
  handler : NodeHandler;
  description : string
}.

Abbreviation NodeRegistry := (gmap string NodeDefinition).

Definition registry_register `{Externals} (node_type : string) (h : NodeHandler)
    (descr : string) (reg : NodeRegistry) : result NodeRegistry :=
  let k := str_lower node_type in
  match reg !! k with
  | Some _ => Raise (RegistryError ("Handler already registered for '" +:+ node_type +:+ "'"))
  | None => Ok (<[k := mkNodeDefinition h descr]> reg)
  end.

Definition registry_get `{Externals} (reg : NodeRegistry) (node_type : string)
    : result NodeDefinition :=
  match reg !! str_lower node_type with
  | Some definition => Ok definition
  | None => Raise (RegistryError ("No handler registered for '" +:+ node_type +:+ "'"))
  end.

(** ** runtime.py: the scheduler *)

(** What a call of [evaluate] can change: the dirty set of the graph, the
    cache, and the state that handlers reach.  The two logs are not in the
    source: they record, in order, the nodes whose handler was called and
    the arguments of the calls of the progress callback, which is taken
    to return. *)
Record World : Type := mkWorld {
  w_graph : Graph;
  w_cache : ExecutionCache;
  w_env : odict pyvalue;
  handler_calls : list string;
  progress_calls : list (nat * nat * string)
}.

(** [current_outputs or cached_outputs]: a mapping is false when empty. *)
Definition py_or (current_outputs cached_outputs : option (odict pyvalue))
    : option (odict pyvalue) :=
  match current_outputs with
  | Some (_ :: _) => current_outputs
  | _ => cached_outputs
  end.

(** The body of the loop of [_collect_inputs], for one connected port. *)
Definition collect_input (cache : ExecutionCache) (node_key : string)
    (results : gmap string (odict pyvalue)) (inputs : odict pyvalue)
    (item : string * Connection) : result (odict pyvalue) :=
  let '(port_name, connection) := item in
  let cached_outputs := cache_get cache (source_node connection) in
  let current_outputs := results !! source_node connection in
  match py_or current_outputs cached_outputs with
  | None =>
      Raise (SchedulerError ("Missing outputs for '" +:+ source_node connection
                               +:+ "' required by '" +:+ node_key +:+ "'"))
  | Some source_outputs =>
      match od_get (source_port connection) source_outputs with
      | None =>
          Raise (SchedulerError ("Node '" +:+ source_node connection
                                   +:+ "' does not provide port '"
                                   +:+ source_port connection +:+ "'"))
      | Some v => Ok (od_set port_name v inputs)
      end
  end.

Definition _collect_inputs (g : Graph) (cache : ExecutionCache) (node_key : string)
    (results : gmap string (odict pyvalue)) : result (odict pyvalue) :=
  for_each (collect_input cache node_key results) (inputs_for g node_key) [].

(** The value of [use_cache] in the loop body of [evaluate]. *)
Definition use_cache (force : bool) (context : RuntimeContext) (g : Graph)
    (cache : ExecutionCache) (node_key signature : string) : bool :=
  negb force
  && enable_memoization context
  && bool_decide (node_key ∉ dirty g)
  && cache_is_valid cache node_key signature.

(** The end of the loop body: record the outputs, clear the dirty flag,
    report progress. *)
Definition record_outputs (progress : bool) (index total : nat) (node_key : string)
    (outputs : odict pyvalue) (results : gmap string (odict pyvalue)) (w : World)
    : result (gmap string (odict pyvalue)) * World :=
  (Ok (<[node_key := outputs]> results),
   mkWorld (clear_dirty node_key (w_graph w)) (w_cache w) (w_env w) (handler_calls w)
           (if progress then progress_calls w ++ [(index, total, node_key)]
            else progress_calls w)).

(** The [else] branch of the loop body: resolve and call the handler. *)
Definition run_handler `{Externals} (reg : NodeRegistry) (context : RuntimeContext)
    (progress : bool) (index total : nat) (node_key : string) (node : Node)
    (input_values : odict pyvalue) (signature : string)
    (results : gmap string (odict pyvalue)) (w : World)
    : result (gmap string (odict pyvalue)) * World :=
  match registry_get reg (type node) with
  | Raise e => (Raise e, w)
  | Ok definition =>
      let '(outcome, env') := handler definition node input_values context (w_env w) in
      let w1 := mkWorld (w_graph w) (w_cache w) env' (handler_calls w ++ [node_key])
                        (progress_calls w) in
      match outcome with
      | Raises msg =>
          (Raise (SchedulerError ("Node '" +:+ key node +:+ "' failed: " +:+ msg)), w1)
      | Returns (PDict outputs) =>
          let w2 := if enable_memoization context
                    then mkWorld (w_graph w1) (cache_store node_key signature outputs (w_cache w1))
                                 (w_env w1) (handler_calls w1) (progress_calls w1)
                    else w1 in
          record_outputs progress index total node_key outputs results w2
      | Returns v =>
          (Raise (SchedulerError ("Node '" +:+ key node
                                    +:+ "' produced non-mapping outputs of type "
                                    +:+ type_repr v)), w1)
      end
  end.

(** The body of the loop of [evaluate]. *)
Definition evaluate_node `{Externals} (reg : NodeRegistry) (context : RuntimeContext)
    (force progress : bool) (total index : nat) (node_key : string)
    (results : gmap string (odict pyvalue)) (w : World)
    : result (gmap string (odict pyvalue)) * World :=
  match nodes (w_graph w) !! node_key with
  | None => (Raise (KeyError node_key), w)
  | Some node =>
      match _collect_inputs (w_graph w) (w_cache w) node_key results with
      | Raise e => (Raise e, w)
      | Ok input_values =>
          match _make_signature node input_values with
          | Raise e => (Raise e, w)
          | Ok signature =>
              if use_cache force context (w_graph w) (w_cache w) node_key signature
              then
                match cache_get (w_cache w) node_key with
                | None =>
                    (Raise (SchedulerError ("Cache miss for node '" +:+ node_key +:+ "'")), w)
                | Some outputs =>
                    record_outputs progress index total node_key outputs results w
                end
              else
                run_handler reg context progress index total node_key node
                            input_values signature results w
          end
      end
  end.

Fixpoint evaluate_loop `{Externals} (reg : NodeRegistry) (context : RuntimeContext)
    (force progress : bool) (total index : nat) (execution_order : list string)
    (results : gmap string (odict pyvalue)) (w : World)
    : result (gmap string (odict pyvalue)) * World :=
  match execution_order with
  | [] => (Ok results, w)
  | node_key :: rest =>
      match evaluate_node reg context force progress total index node_key results w with
      | (Ok results', w') =>
          evaluate_loop reg context force progress total (S index) rest results' w'
      | (Raise e, w') => (Raise e, w')
      end
  end.

(** [{node: results[node] for node in result_nodes if node in results}] *)
Definition select_results (result_nodes : list string)
    (results : gmap string (odict pyvalue)) : odict (odict pyvalue) :=
  foldl (λ acc node, match results !! node with
                     | Some outputs => od_set node outputs acc
                     | None => acc
                     end) [] result_nodes.

(** [context], or [RuntimeContext(self.graph)] when it is [None]. *)
Definition context_or_default (context : option RuntimeContext) : RuntimeContext :=
  match context with
  | None => mkRuntimeContext None
  | Some c => c
  end.

(** [result_nodes] *)
Definition result_nodes_of (targets : option (list string)) (g : Graph) : list string :=
  match targets with
  | None => (map_to_list (nodes g)).*1
  | Some keys => filter (λ k, has_node g k = true) keys
  end.

Definition evaluate `{Externals} (reg : NodeRegistry) (targets : option (list string))
    (context : option RuntimeContext) (force progress : bool) (w : World)
    : result (odict (odict pyvalue)) * World :=
  let context := context_or_default context in
  let result_nodes := result_nodes_of targets (w_graph w) in
  match result_nodes with
  | [] => (Ok [], w)
  | _ =>
      match topological_order (Some result_nodes) (w_graph w) with
      | Raise e => (Raise e, w)
      | Ok execution_order =>
          let total := length execution_order in
          let w0 := if progress
                    then mkWorld (w_graph w) (w_cache w) (w_env w) (handler_calls w)
                                 (progress_calls w ++ [(0, total, "")])
                    else w in
          match evaluate_loop reg context force progress total 1 execution_order ∅ w0 with
          | (Ok results, w') => (Ok (select_results result_nodes results), w')
          | (Raise e, w') => (Raise e, w')
          end
      end
  end.

(** ** project.py *)

Definition as_str (v : pyvalue) : result string :=
  match v with
  | PStr s => Ok s
  | _ => Raise TypeError
  end.

Definition as_dict (v : pyvalue) : result (odict pyvalue) :=
  match v with
  | PDict items => Ok items
  | _ => Raise TypeError
  end.

Definition as_list (v : pyvalue) : result (list pyvalue) :=
  match v with
  | PList elems => Ok elems
  | _ => Raise TypeError
  end.

(** [d[k]] *)
Definition od_item (k : string) (d : odict pyvalue) : result pyvalue :=
  match od_get k d with
  | Some v => Ok v
  | None => Raise (KeyError k)
  end.

Definition node_to_dict (node : Node) : pyvalue :=
  PDict [("key", PStr (key node));
         ("type", PStr (type node));
         ("title", match title node with Some t => PStr t | None => PNone end);
         ("parameters", PDict (parameters node));
         ("metadata", PDict (metadata node))].

Definition connection_to_dict (connection : Connection) : pyvalue :=
  PDict [("source_node", PStr (source_node connection));
         ("source_port", PStr (source_port connection))].

Definition _graph_to_dict (g : Graph) : pyvalue :=
  PDict [("name", PStr (name g));
         ("metadata", PDict (graph_metadata g));
         ("nodes", PList (node_to_dict <$> (map_to_list (nodes g)).*2));
         ("connections",
          PDict ((λ node_key,
                    (node_key,
                     PDict ((λ '(port, connection), (port, connection_to_dict connection))
                              <$> inputs_for g node_key)))
                   <$> (map_to_list (nodes g)).*1))].

(** A value of a type that the records of the model cannot hold (a name
    that is not a [str], say) is refused with [TypeError]. *)
Definition node_from_dict (node_data : pyvalue) : result Node :=
  d ← as_dict node_data;
  k ← od_item "key" d ≫= as_str;
  t ← od_item "type" d ≫= as_str;
  ttl ← match od_get "title" d with
        | None | Some PNone => Ok None
        | Some (PStr s) => Ok (Some s)
        | Some _ => Raise TypeError
        end;
  params ← as_dict (default (PDict []) (od_get "parameters" d));
  md ← as_dict (default (PDict []) (od_get "metadata" d));
  Ok (mkNode k t ttl params md).

Definition connect_from_dict (node_key : string) (g : Graph)
    (item : string * pyvalue) : result Graph :=
  let '(port_name, connection) := item in
  c ← as_dict connection;
  src ← od_item "source_node" c ≫= as_str;
  sport ← od_item "source_port" c ≫= as_str;
  connect src sport node_key port_name g.

Definition connect_ports_from_dict (g : Graph) (item : string * pyvalue) : result Graph :=
  let '(node_key, ports) := item in
  ps ← as_dict ports;
  for_each (connect_from_dict node_key) ps g.

Definition _graph_from_dict (payload : pyvalue) : result Graph :=
  p ← as_dict payload;
  nm ← as_str (default (PStr "Graph") (od_get "name" p));
  md ← as_dict (default (PDict []) (od_get "metadata" p));
  node_list ← as_list (default (PList []) (od_get "nodes" p));
  conns ← as_dict (default (PDict []) (od_get "connections" p));
  g ← for_each (λ g node_data, node ← node_from_dict node_data; add_node node g)
               node_list (Graph_init nm md);
  for_each connect_ports_from_dict conns g.

(** ** Properties *)

Definition is_transpose (g : Graph) : Prop :=
  ∀ source target,
    target ∈ dependents_of g source
    ↔ ∃ port connection,
        od_get port (inputs_for g target) = Some connection
        ∧ source_node connection = source.

(** [a] comes strictly before [b] in [order]. *)
Definition before (order : list string) (a b : string) : Prop :=
  ∃ i j, order !! i = Some a ∧ order !! j = Some b ∧ i < j.

(** [p] is a predecessor of [n] in the sorter. *)
Definition ts_pred (sorter : TopologicalSorter) (n p : string) : Prop :=
  ∃ ps, sorter !! n = Some ps ∧ p ∈ ps.

(** Every predecessor is itself a node, as [add] ensures. *)
Definition ts_closed (sorter : TopologicalSorter) : Prop :=
  ∀ n ps, sorter !! n = Some ps → ps ⊆ dom sorter.

(** In [out] every node comes after its predecessors. *)
Definition ts_ordered (sorter : TopologicalSorter) (out : list string) : Prop :=
  ∀ i n p, out !! i = Some n → ts_pred sorter n p →
           ∃ j, j < i ∧ out !! j = Some p.

(** The invariant of the loop of [static_order]: [out] lists the nodes that
    are done, once each, predecessors first. *)
Definition ts_inv (sorter : TopologicalSorter) (done : gset string)
    (out : list string) : Prop :=
  list_to_set out = done ∧ NoDup out ∧ done ⊆ dom sorter ∧ ts_ordered sorter out.

(** [target] has a connection from [source]. *)
Definition depends_on (g : Graph) (target source : string) : Prop :=
  source ∈ dependencies_of g target.

#[global] Instance depends_on_dec g target source : Decision (depends_on g target source).
Proof. unfold depends_on. apply _. Defined.

(** The transitive-dependency closure of a set of nodes. *)
Definition in_closure (g : Graph) (targets : gset string) (n : string) : Prop :=
  ∃ t, t ∈ targets ∧ rtc (depends_on g) t n.

Definition acyclic (g : Graph) : Prop := ∀ n, ¬ tc (depends_on g) n n.

(** The invariant of the traversal: a visited node is in the sorter with
    its dependencies; any other node of the sorter got there as the
    dependency of a visited node and has no predecessors yet. *)
Definition dfs_inv (g : Graph) (st : TopologicalSorter * gset string) : Prop :=
  (∀ n, n ∈ st.2 → st.1 !! n = Some (dependencies_of g n))
  ∧ (∀ n ps, st.1 !! n = Some ps → n ∉ st.2 →
             ps = ∅ ∧ ∃ m, m ∈ st.2 ∧ n ∈ dependencies_of g m).

(** What a traversal from [roots] establishes: the roots are visited,
    what is newly visited is reachable from them and has all its
    dependencies visited. *)
Definition dfs_post (g : Graph) (st st' : TopologicalSorter * gset string)
    (roots : list string) : Prop :=
  dfs_inv g st'
  ∧ st.2 ⊆ st'.2
  ∧ (∀ r, r ∈ roots → r ∈ st'.2)
  ∧ st'.2 ⊆ all_keys g
  ∧ (∀ m, m ∈ st'.2 → m ∈ st.2 ∨ ∃ r, r ∈ roots ∧ rtc (depends_on g) r m)
  ∧ (∀ m, m ∈ st'.2 → m ∉ st.2 → dependencies_of g m ⊆ st'.2).

(** The fuel is more than the number of keys still to visit. *)
Definition dfs_pre (g : Graph) (fuel : nat) (st : TopologicalSorter * gset string) : Prop :=
  st.2 ⊆ all_keys g ∧ size (all_keys g ∖ st.2) < fuel ∧ dfs_inv g st.

(** Reading one port of the outputs of a source, for [_collect_inputs]. *)
Definition read_port (connection : Connection) (port_name : string)
    (source_outputs inputs : odict pyvalue) : result (odict pyvalue) :=
  match od_get (source_port connection) source_outputs with
  | Some v => Ok (od_set port_name v inputs)
  | None =>
      Raise (SchedulerError ("Node '" +:+ source_node connection
                               +:+ "' does not provide port '"
                               +:+ source_port connection +:+ "'"))
  end.


(** Two values that [json.dumps(..., sort_keys=True)] writes alike: the
    same value, up to the order of the items of its dictionaries at every
    depth.  Nothing else is identified: a number counts with its type, a
    list or a tuple with the order of its elements. *)
#[warnings="-register-all"]
Inductive json_same : pyvalue → pyvalue → Prop :=
| json_same_refl value : json_same value value
| json_same_dict items items' other :
    NoDup items.*1 → items ≡ₚ items' →
    Forall2 (λ x y, x.1 = y.1 ∧ json_same x.2 y.2) items' other →
    json_same (PDict items) (PDict other)
| json_same_list elems other :
    Forall2 json_same elems other → json_same (PList elems) (PList other)
| json_same_tuple elems other :
    Forall2 json_same elems other → json_same (PTuple elems) (PTuple other).

(** Two values that are the same up to the order in which the items of
    their dictionaries and the attributes of their objects were inserted,
    at every depth.  A list, a tuple or a set counts with the order in
    which it is iterated, so that two sets with the same elements in
    another iteration order are not related; the dump of a model counts
    as [json.dumps] sees it; a number counts with its type. *)
#[warnings="-register-all"]
Inductive py_same : pyvalue → pyvalue → Prop :=
| py_same_refl value : py_same value value
| py_same_dict items items' other :
    NoDup items.*1 → items ≡ₚ items' →
    Forall2 (λ x y, x.1 = y.1 ∧ py_same x.2 y.2) items' other →
    py_same (PDict items) (PDict other)
| py_same_list elems other :
    Forall2 py_same elems other → py_same (PList elems) (PList other)
| py_same_tuple elems other :
    Forall2 py_same elems other → py_same (PTuple elems) (PTuple other)
| py_same_set elems other :
    Forall2 py_same elems other → py_same (PSet elems) (PSet other)
| py_same_model dump other :
    json_same dump other → py_same (PModel dump) (PModel other)
| py_same_object cls attrs attrs' other :
    NoDup attrs.*1 → attrs ≡ₚ attrs' →
    Forall2 (λ x y, x.1 = y.1 ∧ py_same x.2 y.2) attrs' other →
    py_same (PObject cls attrs) (PObject cls other).

(** The invariants of the data model that serialisation relies on: a node
    is stored under its key; connections are kept for nodes only, one for
    each port, and start from nodes. *)
Definition well_formed (g : Graph) : Prop :=
  (∀ k node, nodes g !! k = Some node → key node = k)
  ∧ (∀ target ports,
       _connections g !! target = Some ports →
       is_Some (nodes g !! target)
       ∧ NoDup ports.*1
       ∧ ∀ port connection, (port, connection) ∈ ports →
                            is_Some (nodes g !! source_node connection)).

(** What the inner loop of [remove_node] does to the ports of one target,
    read off the snapshot [items]. *)
Definition drop_ports (node_key : string) (items d : odict Connection) : odict Connection :=
  foldl (λ d item, if decide (source_node item.2 = node_key) then od_del item.1 d else d)
        d items.

(** The ports of a node are distinct, as the keys of a dictionary are. *)
Definition ports_unique (g : Graph) : Prop :=
  ∀ target, NoDup (inputs_for g target).*1.

(** The dependents that [remove_node] marks dirty: those that exist and
    have a connection from the removed node. *)
Definition rewired (node_key : string) (g : Graph) (target : string) : Prop :=
  target ∈ dependents_of g node_key
  ∧ is_Some (nodes g !! target)
  ∧ Exists (λ item, source_node item.2 = node_key) (inputs_for g target).

(** What every graph built through the operations of [Graph] satisfies: a
    node is stored under its own key, connections are kept for existing
    nodes only, and the ports of a node are distinct. *)
Definition graph_inv (g : Graph) : Prop :=
  (∀ k node, nodes g !! k = Some node → key node = k)
  ∧ (∀ target, is_Some (_connections g !! target) → is_Some (nodes g !! target))
  ∧ ports_unique g.

(** Every connection starts from a node of the graph. *)
Definition sources_exist (g : Graph) : Prop :=
  ∀ target item, item ∈ inputs_for g target → is_Some (nodes g !! source_node item.2).

(** Two graphs with the same name, metadata, nodes, connections and
    dependents index: only the dirty sets may differ. *)
Definition same_topology (g g' : Graph) : Prop :=
  name g' = name g
  ∧ graph_metadata g' = graph_metadata g
  ∧ nodes g' = nodes g
  ∧ _connections g' = _connections g
  ∧ _dependents g' = _dependents g.

(** What the cache holds for a node: its outputs and its signature. *)
Definition cache_entry (cache : ExecutionCache) (node_key : string)
    : option (odict pyvalue) * option string :=
  (_values cache !! node_key, _signatures cache !! node_key).

(** The calls of the progress callback for the nodes of an execution
    order, the first of which has the number [index]. *)
Definition progress_of (total index : nat) (order : list string)
    : list (nat * nat * string) :=
  imap (λ i node_key, (index + i, total, node_key)) order.

(** The calls that change an [ExecutionCache]. *)
Inductive cache_op : Type :=
| CacheStore (node_key signature : string) (outputs : odict pyvalue)
| CacheInvalidate (node_key : string)
| CacheClear.

Definition cache_apply (cache : ExecutionCache) (op : cache_op) : ExecutionCache :=
  match op with
  | CacheStore node_key signature outputs => cache_store node_key signature outputs cache
  | CacheInvalidate node_key => cache_invalidate node_key cache
  | CacheClear => cache_clear cache
  end.

(** The cache holds outputs for the nodes for which it holds a signature,
    and for no other. *)
Definition cache_consistent (cache : ExecutionCache) : Prop :=
  dom (_values cache) = dom (_signatures cache).

(** The error of [evaluate] for a signature without outputs. *)
Definition cache_miss (node_key : string) : error :=
  SchedulerError ("Cache miss for node '" +:+ node_key +:+ "'").

Definition is_cache_miss (e : error) : bool :=
  match e with
  | SchedulerError msg => String.prefix "Cache miss for node '" msg
  | _ => false
  end.

(** The state of a graph that has just been read: every node is dirty,
    and the dependents index lists nodes only. *)
Definition freshly_loaded (g : Graph) : Prop :=
  dirty g = dom (nodes g) ∧ ∀ source, dependents_of g source ⊆ dom (nodes g).

(** The exceptions that [evaluate] lets through on a graph whose
    connections start from nodes. *)
Definition expected_error (e : error) : bool :=
  match e with
  | GraphError_cycle | SchedulerError _ | RegistryError _ | TypeError => true
  | GraphError _ | CycleError | KeyError _ => false
  end.

(** The values that [json.dumps] encodes: [None], booleans, numbers,
    strings, and dictionaries, lists and tuples of such values. *)
Fixpoint json_plain (value : pyvalue) : bool :=
  match value with
  | PNone | PBool _ | PInt _ | PFloat _ | PStr _ => true
  | PDict items => forallb (λ '(_, v), json_plain v) items
  | PList elems | PTuple elems => forallb json_plain elems
  | _ => false
  end.

(** Whether a value holds an object with a [model_dump] method, whose
    dump [_normalise_value] returns as it is. *)
Fixpoint has_model (value : pyvalue) : bool :=
  match value with
  | PModel _ => true
  | PDict items | PObject _ items => existsb (λ '(_, v), has_model v) items
  | PList elems | PTuple elems | PSet elems => existsb has_model elems
  | _ => false
  end.

(** ** Stand-ins and examples *)

(** Functions to run the scheduler on examples: an encoder that writes a
    value down in a JSON-like way and refuses what [json] refuses, and
    digests that merely tag their argument. *)
Definition dquote : string := String (Ascii.ascii_of_nat 34) EmptyString.

Fixpoint example_json_encode (value : pyvalue) : option string :=
  let encode_items :=
    fix go (items : list (string * pyvalue)) : option string :=
      match items with
      | [] => Some ""
      | (k, v) :: rest =>
          sv ← example_json_encode v;
          srest ← go rest;
          Some (dquote +:+ k +:+ dquote +:+ ":" +:+ sv +:+ "," +:+ srest)
      end in
  let encode_elems :=
    fix go (elems : list pyvalue) : option string :=
      match elems with
      | [] => Some ""
      | v :: rest =>
          sv ← example_json_encode v;
          srest ← go rest;
          Some (sv +:+ "," +:+ srest)
      end in
  match value with
  | PNone => Some "null"
  | PBool true => Some "true"
  | PBool false => Some "false"
  | PInt z => Some (pretty z)
  | PFloat bits => Some ("f" +:+ pretty bits)
  | PStr s => Some (dquote +:+ s +:+ dquote)
  | PDict items => body ← encode_items items; Some ("{" +:+ body +:+ "}")
  | PList elems | PTuple elems => body ← encode_elems elems; Some ("[" +:+ body +:+ "]")
  | _ => None
  end.

Definition example_lower_ascii (c : Ascii.ascii) : Ascii.ascii :=
  let n := Ascii.nat_of_ascii c in
  if bool_decide (65 ≤ n ≤ 90)%nat then Ascii.ascii_of_nat (n + 32) else c.

Fixpoint example_lower (s : string) : string :=
  match s with
  | EmptyString => EmptyString
  | String c rest => String (example_lower_ascii c) (example_lower rest)
  end.

Definition example_externals : Externals := {|
  sha256_hexdigest := λ data, "sha256:" +:+ data;
  sha1_hexdigest := λ data, "sha1:" +:+ data;
  json_encode := example_json_encode;
  str_lower := example_lower;
  type_repr := λ _, "<class>"
|}.

(** Handlers over integers after those of [nodes/primitives.py], and the
    counting handler of [test_scheduler_reuses_cache]: it counts its calls
    in the state it reaches. *)
Definition int_of (v : option pyvalue) (default_value : Z) : Z :=
  match v with
  | Some (PInt z) => z
  | _ => default_value
  end.

Definition constant_handler : NodeHandler := λ node inputs context env,
  (Returns (PDict [("output", PInt (int_of (od_get "value" (parameters node)) 0))]), env).

Definition add_handler : NodeHandler := λ node inputs context env,
  let lhs := int_of (od_get "lhs" inputs) (int_of (od_get "lhs" (parameters node)) 0) in
  let rhs := int_of (od_get "rhs" inputs) (int_of (od_get "rhs" (parameters node)) 0) in
  (Returns (PDict [("output", PInt (lhs + rhs))]), env).

Definition multiply_handler : NodeHandler := λ node inputs context env,
  let lhs := int_of (od_get "lhs" inputs) (int_of (od_get "lhs" (parameters node)) 1) in
  let rhs := int_of (od_get "rhs" inputs) (int_of (od_get "rhs" (parameters node)) 1) in
  (Returns (PDict [("output", PInt (lhs * rhs))]), env).

Definition counting_constant : NodeHandler := λ node inputs context env,
  (Returns (PDict [("output", default (PInt 0) (od_get "value" (parameters node)))]),
   od_set "count" (PInt (int_of (od_get "count" env) 0 + 1)) env).

Definition example_registry : NodeRegistry :=
  {[ "primitives.constant" := mkNodeDefinition constant_handler "Emit a scalar constant";
     "math.add" := mkNodeDefinition add_handler "Add two scalar inputs";
     "math.multiply" := mkNodeDefinition multiply_handler "Multiply two scalar inputs";
     "test.constant" := mkNodeDefinition counting_constant "" ]}.

(** A sequence of mutations of a graph; the first that raises ends it. *)
Inductive mutation : Type :=
| AddNode (node : Node)
| RemoveNode (node_key : string)
| Connect (source_node source_port target_node target_port : string)
| Disconnect (node port : string)
| MarkDirty (node_key : string)
| ClearDirty (node_key : string).

Definition mutate (g : Graph) (m : mutation) : result Graph :=
  match m with
  | AddNode node => add_node node g
  | RemoveNode node_key => remove_node node_key g
  | Connect s sp t tp => connect s sp t tp g
  | Disconnect node port => Ok (disconnect node port g)
  | MarkDirty node_key => Ok (mark_dirty node_key g)
  | ClearDirty node_key => Ok (clear_dirty node_key g)
  end.

Definition mutate_all (ms : list mutation) (g : Graph) : result Graph :=
  for_each mutate ms g.

(** The graph of [tests/test_runtime.py], with integer parameters. *)
Definition example_graph_mutations : list mutation :=
  [AddNode (mkNode "c1" "primitives.constant" None [("value", PInt 2)] []);
   AddNode (mkNode "c2" "primitives.constant" None [("value", PInt 3)] []);
   AddNode (mkNode "add" "math.add" None [] []);
   AddNode (mkNode "mul" "math.multiply" None [("rhs", PInt 10)] []);
   Connect "c1" "output" "add" "lhs";
   Connect "c2" "output" "add" "rhs";
   Connect "add" "output" "mul" "lhs"].

Definition example_graph : Graph :=
  match mutate_all example_graph_mutations (Graph_init "test" []) with
  | Ok g => g
  | Raise _ => Graph_init "test" []
  end.

Definition example_world : World :=
  mkWorld example_graph ExecutionCache_init [] [] [].

(** The mutations after which the dependents index and the connections
    disagree. *)
Definition two_ports_mutations : list mutation :=
  [AddNode (mkNode "a" "primitives.constant" None [] []);
   AddNode (mkNode "b" "math.add" None [] []);
   Connect "a" "output" "b" "lhs";
   Connect "a" "output" "b" "rhs";
   Disconnect "b" "lhs"].

(** The mutations after which a node is still among the dependents of a
    source that it is no longer connected to. *)
Definition overwrite_mutations : list mutation :=
  [AddNode (mkNode "a" "primitives.constant" None [] []);
   AddNode (mkNode "b" "primitives.constant" None [] []);
   AddNode (mkNode "c" "math.add" None [] []);
   Connect "a" "output" "c" "lhs";
   Connect "b" "output" "c" "lhs"].

Definition graph_of (ms : list mutation) : Graph :=
  match mutate_all ms (Graph_init "g" []) with
  | Ok g => g
  | Raise _ => Graph_init "g" []
  end.

(** The example graph with a connection from its last node back to its
    first. *)
Definition cyclic_graph : Graph :=
  match mutate_all [Connect "mul" "output" "c1" "seed"] example_graph with
  | Ok g => g
  | Raise _ => example_graph
  end.

(** A handler that returns an empty mapping unless the state it reaches
    holds ["on"]. *)
Definition switch_handler : NodeHandler := λ node inputs context env,
  match od_get "on" env with
  | Some _ => (Returns (PDict [("output", PInt 7)]), env)
  | None => (Returns (PDict []), env)
  end.

Definition switch_registry : NodeRegistry :=
  <["test.switch" := mkNodeDefinition switch_handler ""]> example_registry.

Definition switch_graph : Graph :=
  match mutate_all [AddNode (mkNode "a" "test.switch" None [] []);
                    AddNode (mkNode "b" "math.add" None [] []);
                    Connect "a" "output" "b" "lhs"] (Graph_init "g" []) with
  | Ok g => g
  | Raise _ => Graph_init "g" []
  end.

Definition no_memoization : RuntimeContext :=
  mkRuntimeContext
    (Some (mkAppConfiguration (mkRuntimePaths "." "cache" "assets")
                              (mkRuntimePerformance true false 0) [])).

Definition set_env (env : odict pyvalue) (w : World) : World :=
  mkWorld (w_graph w) (w_cache w) env (handler_calls w) (progress_calls w).

(** A first pass with memoization, in which ["a"] returns an output, and
    a second one without, in which it returns the empty mapping. *)
Definition switch_first : result (odict (odict pyvalue)) * World :=
  evaluate (H:=example_externals) switch_registry (Some ["b"]) None false false
           (mkWorld switch_graph ExecutionCache_init [("on", PInt 1)] [] []).

Definition switch_second : result (odict (odict pyvalue)) * World :=
  evaluate (H:=example_externals) switch_registry (Some ["a"; "b"]) (Some no_memoization)
           false false
           (set_env [] switch_first.2).

Definition example_c1 : Node :=
  mkNode "c1" "primitives.constant" None [("value", PInt 2)] [].


Definition example_first : result (odict (odict pyvalue)) * World :=
  evaluate (H:=example_externals) example_registry (Some ["mul"]) None false true
           example_world.

(** Parameters with a dictionary inside a list inside a dictionary, and
    the same parameters with the items of every dictionary inserted in
    another order. *)
Definition nested_parameters : odict pyvalue :=
  [("lhs", PDict [("a", PInt 1);
                  ("b", PList [PDict [("x", PInt 1); ("y", PNdarray [2%Z] "u1" "ab")]])]);
   ("rhs", PInt 10)].

Definition nested_parameters_reordered : odict pyvalue :=
  [("rhs", PInt 10);
   ("lhs", PDict [("b", PList [PDict [("y", PNdarray [2%Z] "u1" "ab"); ("x", PInt 1)]]);
                  ("a", PInt 1)])].

(** A node with a set among its parameters, and the same node when the
    set iterates in another order: in CPython [{0, 8}] iterates as
    [0, 8] and [{8, 0}] as [8, 0], and the two sets are equal. *)
Definition set_node (elems : list pyvalue) : Node :=
  mkNode "n" "primitives.constant" None [("value", PSet elems)] [].

(** A graph of one node, after [evaluate] has run on it. *)
Definition evaluated_graph : Graph :=
  w_graph (evaluate (H:=example_externals) example_registry None None false false
                    (mkWorld (graph_of [AddNode (mkNode "a" "primitives.constant" None [] [])])
                             ExecutionCache_init [] [] [])).2.

(** The mutations of [two_ports_mutations], then the removal of the
    source. *)
Definition dangling_mutations : list mutation :=
  two_ports_mutations ++ [RemoveNode "a"].

(** The example graph before its last connection. *)
Definition example_graph_unconnected : Graph :=
  match mutate_all (take 6 example_graph_mutations) (Graph_init "test" []) with
  | Ok g => g
  | Raise _ => Graph_init "test" []
  end.

Definition is_removal (m : mutation) : bool :=
  match m with
  | RemoveNode _ => true
  | _ => false
  end.

(** The mutations that keep the dependents index exact: a connection to
    a port that is free or has the same source already; the removal of the
    only connection of a node from its source; the removal of a node
    without inputs; and all the others. *)
Definition keeps_transpose (m : mutation) (g : Graph) : Prop :=
  match m with
  | Connect source _ target target_port =>
      match od_get target_port (inputs_for g target) with
      | Some connection => source_node connection = source
      | None => True
      end
  | Disconnect node port =>
      match od_get port (inputs_for g node) with
      | Some connection =>
          ∀ port' connection',
            port' ≠ port → od_get port' (inputs_for g node) = Some connection' →
            source_node connection' ≠ source_node connection
      | None => True
      end
  | RemoveNode node_key => inputs_for g node_key = []
  | AddNode _ | MarkDirty _ | ClearDirty _ => True
  end.

(** The example graph with its four nodes and no connection yet. *)
Definition example_graph_nodes : Graph :=
  match mutate_all (take 4 example_graph_mutations) (Graph_init "test" []) with
  | Ok g => g
  | Raise _ => Graph_init "test" []
  end.

(** * Proofs *)

#[local] Set Warnings "-clear-no-such-hyp".

(** * Graph mutations *)

(** C5.  The dependents index is not always the transpose of the
    connections.  After one source is connected to two ports of a node and
    one of the two is disconnected, the other connection still has that
    source, but the node is no longer among the dependents of the source.
    And after a connection is replaced by one from another source, the node
    is still among the dependents of the first source. *)
Theorem dependents_not_transpose :
  mutate_all two_ports_mutations (Graph_init "g" []) = Ok (graph_of two_ports_mutations)
  ∧ inputs_for (graph_of two_ports_mutations) "b" = [("rhs", mkConnection "a" "output")]
  ∧ dependents_of (graph_of two_ports_mutations) "a" = ∅
  ∧ ¬ is_transpose (graph_of two_ports_mutations)
  ∧ mutate_all overwrite_mutations (Graph_init "g" []) = Ok (graph_of overwrite_mutations)
  ∧ inputs_for (graph_of overwrite_mutations) "c" = [("lhs", mkConnection "b" "output")]
  ∧ dependents_of (graph_of overwrite_mutations) "a" = {["c"]}
  ∧ ¬ is_transpose (graph_of overwrite_mutations).
Proof.
  assert (Hd : dependents_of (graph_of two_ports_mutations) "a" = ∅)
    by (vm_compute; reflexivity).
  assert (Hi : inputs_for (graph_of overwrite_mutations) "c"
               = [("lhs", mkConnection "b" "output")])
    by (vm_compute; reflexivity).
  assert (Hd' : dependents_of (graph_of overwrite_mutations) "a" = {["c"]})
    by (vm_compute; reflexivity).
  split; [vm_compute; reflexivity|].
  split; [vm_compute; reflexivity|].
  split; [exact Hd|]. split.
  { intros Ht. destruct (Ht "a" "b") as [_ Hin].
    rewrite Hd in Hin. apply (not_elem_of_empty (C:=gset string) "b"), Hin.
    exists "rhs", (mkConnection "a" "output"). split; [vm_compute|]; reflexivity. }
  split; [vm_compute; reflexivity|].
  split; [exact Hi|]. split; [exact Hd'|].
  intros Ht. destruct (Ht "a" "c") as [Hin _].
  destruct Hin as (port & connection & Hport & Hsource).
  { rewrite Hd'. by apply elem_of_singleton. }
  rewrite Hi in Hport. simpl in Hport. case_decide; [|done].
  injection Hport as <-. done.
Qed.

(** * A relation on a finite set in which every element has a successor
      has a cycle *)
Section FiniteDescent.
Context (R : relation string) (X : gset string).
Hypothesis step : ∀ x, x ∈ X → ∃ y, y ∈ X ∧ R x y.

Lemma walk_finds_cycle (k : nat) (path : list string) (x : string) :
  size X ≤ length path + k →
  NoDup (x :: path) →
  (∀ y, y ∈ x :: path → y ∈ X ∧ rtc R y x) →
  ∃ c, tc R c c.
Proof.
  revert path x. induction k as [|k IH]; intros path x Hsize Hnd Hpath.
  - exfalso.
    assert (Hle : length (x :: path) ≤ size X).
    { rewrite <- (size_list_to_set (C:=gset string) (x :: path)) by done.
      apply subseteq_size. intros y Hy. apply elem_of_list_to_set in Hy.
      by apply Hpath. }
    simpl in Hle. lia.
  - destruct (step x) as (y & HyX & Hxy); [apply Hpath; left|].
    destruct (decide (y ∈ x :: path)) as [Hin|Hnin].
    + exists y. eapply tc_rtc_l; [by apply Hpath|]. by apply tc_once.
    + apply (IH (x :: path) y).
      * simpl. lia.
      * by constructor.
      * intros z [->|Hz]%elem_of_cons; [done|].
        split; [by apply Hpath|].
        eapply rtc_r; [by apply Hpath|done].
Qed.

Lemma finite_descent_cycle : X ≠ ∅ → ∃ c, tc R c c.
Proof.
  intros [x Hx]%set_choose_L.
  apply (walk_finds_cycle (size X) [] x).
  - lia.
  - repeat constructor. set_solver.
  - intros y ->%list_elem_of_singleton. done.
Qed.
End FiniteDescent.

(** * The sorter *)
Section Sorter.
Context (sorter : TopologicalSorter).

Lemma elem_of_ts_ready done n :
  n ∈ ts_ready sorter done
  ↔ ∃ ps, sorter !! n = Some ps ∧ (n ∉ done) ∧ ps ⊆ done.
Proof.
  unfold ts_ready. rewrite elem_of_elements, elem_of_dom. split.
  - intros [ps Hps]. apply map_lookup_filter_Some in Hps as [? [? ?]]. eauto.
  - intros (ps & ? & ? & ?). exists ps. by apply map_lookup_filter_Some.
Qed.

Lemma NoDup_ts_ready done : NoDup (ts_ready sorter done).
Proof. apply NoDup_elements. Qed.

Lemma ts_inv_init : ts_inv sorter ∅ [].
Proof.
  split; [done|]. split; [constructor|]. split; [set_solver|].
  intros i n p Hi. by rewrite lookup_nil in Hi.
Qed.

Lemma ts_inv_step done out :
  ts_inv sorter done out →
  ts_inv sorter (done ∪ list_to_set (ts_ready sorter done)) (out ++ ts_ready sorter done).
Proof.
  intros (Hset & Hnd & Hdom & Hord). split; [|split; [|split]].
  - by rewrite list_to_set_app_L, Hset.
  - apply NoDup_app. split; [done|]. split; [|apply NoDup_ts_ready].
    intros x Hx Hr. apply elem_of_ts_ready in Hr as (ps & _ & Hnot & _).
    apply Hnot. rewrite <- Hset. by apply elem_of_list_to_set.
  - intros x [Hx|Hx]%elem_of_union; [by apply Hdom|].
    apply elem_of_list_to_set, elem_of_ts_ready in Hx as (ps & Hps & _).
    apply elem_of_dom. eauto.
  - intros i n p Hi Hp.
    destruct (decide (i < length out)) as [Hlt|Hge].
    + rewrite lookup_app_l in Hi by done.
      destruct (Hord i n p Hi Hp) as (j & Hj & Hjp).
      exists j. split; [done|]. rewrite lookup_app_l by lia. done.
    + rewrite lookup_app_r in Hi by lia.
      apply list_elem_of_lookup_2, elem_of_ts_ready in Hi as (ps & Hps & _ & Hsub).
      destruct Hp as (ps' & Hps' & Hp). rewrite Hps in Hps'. injection Hps' as <-.
      apply Hsub in Hp. rewrite <- Hset in Hp.
      apply elem_of_list_to_set, list_elem_of_lookup in Hp as [j Hj].
      exists j. split; [apply lookup_lt_Some in Hj; lia|].
      by apply lookup_app_l_Some.
Qed.

Lemma ts_finish_ok done out r :
  ts_inv sorter done out → ts_finish sorter done out = Ok r →
  r = out ∧ done = dom sorter.
Proof.
  intros (_ & _ & Hdom & _). unfold ts_finish. case_decide; [|done].
  intros [= <-]. split; [done|]. set_solver.
Qed.

Lemma ts_loop_stop fuel done out :
  ts_ready sorter done = [] →
  ts_loop fuel sorter done out = ts_finish sorter done out.
Proof. intros Hready. destruct fuel; simpl; [done|]. by rewrite Hready. Qed.

Lemma ts_loop_go fuel done out :
  ts_ready sorter done ≠ [] →
  ts_loop (S fuel) sorter done out
  = ts_loop fuel sorter (done ∪ list_to_set (ts_ready sorter done))
            (out ++ ts_ready sorter done).
Proof. intros Hready. simpl. by destruct (ts_ready sorter done). Qed.

(** What [static_order] returns lists every node once, predecessors first. *)
Lemma ts_loop_ok fuel done out r :
  ts_inv sorter done out → ts_loop fuel sorter done out = Ok r →
  ts_inv sorter (dom sorter) r.
Proof.
  revert done out. induction fuel as [|fuel IH]; intros done out Hinv.
  - simpl. intros Hf. destruct (ts_finish_ok _ _ _ Hinv Hf) as [-> <-]. done.
  - destruct (decide (ts_ready sorter done = [])) as [Hready|Hready].
    + rewrite ts_loop_stop by done.
      intros Hf. destruct (ts_finish_ok _ _ _ Hinv Hf) as [-> <-]. done.
    + rewrite ts_loop_go by done. apply IH. by apply ts_inv_step.
Qed.

(** When [static_order] raises, some nodes are left and none is ready. *)
Lemma ts_loop_raise fuel done out e :
  done ⊆ dom sorter → size (dom sorter ∖ done) ≤ fuel →
  ts_loop fuel sorter done out = Raise e →
  ∃ done', done' ⊆ dom sorter ∧ ¬ dom sorter ⊆ done' ∧ ts_ready sorter done' = [].
Proof.
  revert done out. induction fuel as [|fuel IH]; intros done out Hdom Hsize.
  - simpl. unfold ts_finish. case_decide as Hsub; [done|]. intros _. exfalso. apply Hsub.
    apply Nat.le_0_r, size_empty_iff in Hsize. set_solver.
  - destruct (ts_ready sorter done) as [|n ready] eqn:Hready.
    + rewrite ts_loop_stop by done.
      unfold ts_finish. case_decide as Hsub; [done|]. intros _. by exists done.
    + rewrite ts_loop_go by (by rewrite Hready). apply IH.
      * intros x [Hx|Hx]%elem_of_union; [by apply Hdom|].
        apply elem_of_list_to_set, elem_of_ts_ready in Hx as (ps & Hps & _).
        apply elem_of_dom. eauto.
      * assert (Hn : n ∈ ts_ready sorter done) by (rewrite Hready; left).
        pose proof Hn as (ps & Hps & Hnot & _)%elem_of_ts_ready.
        assert (dom sorter ∖ (done ∪ list_to_set (ts_ready sorter done))
                ⊂ dom sorter ∖ done) as Hlt%subset_size; [|lia].
        split; [set_solver|]. intros Hsub.
        assert (n ∈ dom sorter ∖ done) as Hin%Hsub.
        { apply elem_of_difference. split; [|done]. apply elem_of_dom. eauto. }
        apply elem_of_difference in Hin as [_ Hin]. apply Hin.
        apply elem_of_union. right. by apply elem_of_list_to_set.
Qed.

Lemma static_order_ok r :
  static_order sorter = Ok r →
  NoDup r ∧ (∀ n, n ∈ r ↔ n ∈ dom sorter) ∧ ts_ordered sorter r.
Proof.
  intros Hr. apply ts_loop_ok in Hr as (Hset & Hnd & _ & Hord); [|apply ts_inv_init].
  split; [done|]. split; [|done].
  intros n. by rewrite <- Hset, elem_of_list_to_set.
Qed.

Lemma ts_ordered_tc r n m :
  ts_ordered sorter r → tc (ts_pred sorter) n m →
  ∀ i, r !! i = Some n → ∃ j, j < i ∧ r !! j = Some m.
Proof.
  intros Hord Htc. induction Htc as [n m Hnm|n k m Hnk _ IH]; intros i Hi.
  - eauto.
  - destruct (Hord i n k Hi Hnk) as (j & Hj & Hjk).
    destruct (IH j Hjk) as (j' & Hj' & Hm). exists j'. split; [lia|done].
Qed.

(** A sorter with a cycle makes [static_order] raise. *)
Lemma static_order_cycle n :
  tc (ts_pred sorter) n n → static_order sorter = Raise CycleError.
Proof.
  intros Hcyc. destruct (static_order sorter) as [r|e] eqn:Hr.
  - exfalso. apply static_order_ok in Hr as (Hnd & Hmem & Hord).
    assert (n ∈ r) as [i Hi]%list_elem_of_lookup.
    { apply Hmem, elem_of_dom. inversion Hcyc as [? ? [ps [? ?]]|? ? ? [ps [? ?]]]; eauto. }
    destruct (ts_ordered_tc r n n Hord Hcyc i Hi) as (j & Hj & Hjn).
    pose proof (NoDup_lookup _ _ _ _ Hnd Hi Hjn). lia.
  - f_equal. unfold static_order in Hr. revert Hr. generalize (size sorter) (∅ : gset string) ([] : list string).
    intros fuel. induction fuel as [|fuel IH]; intros done out; simpl.
    + unfold ts_finish. case_decide; [done|]. congruence.
    + destruct (ts_ready sorter done); [|apply IH].
      unfold ts_finish. case_decide; [done|]. congruence.
Qed.

(** A sorter without a cycle makes [static_order] return. *)
Lemma static_order_acyclic :
  ts_closed sorter → (∀ n, ¬ tc (ts_pred sorter) n n) →
  ∃ r, static_order sorter = Ok r.
Proof.
  intros Hclosed Hacyc. destruct (static_order sorter) as [r|e] eqn:Hr; [eauto|].
  exfalso. apply ts_loop_raise in Hr as (done & Hdom & Hnot & Hready).
  - destruct (finite_descent_cycle (ts_pred sorter) (dom sorter ∖ done)) as [c Hc].
    + intros x [Hx Hxd]%elem_of_difference.
      apply elem_of_dom in Hx as [ps Hps].
      destruct (decide (ps ∖ done = ∅)) as [Hempty|[p Hp]%set_choose_L].
      * assert (x ∈ ts_ready sorter done) as Hin.
        { apply elem_of_ts_ready. exists ps. split; [done|]. split; [done|]. set_solver. }
        rewrite Hready in Hin. by apply not_elem_of_nil in Hin.
      * exists p. apply elem_of_difference in Hp as [Hp Hpd]. split.
        -- apply elem_of_difference. split; [|done]. by eapply Hclosed.
        -- by exists ps.
    + intros Hempty. apply Hnot. set_solver.
    + by apply (Hacyc c).
  - set_solver.
  - rewrite difference_empty_L, size_dom. done.
Qed.
End Sorter.

Lemma lookup_ts_add node preds (sorter : TopologicalSorter) k :
  ts_add node preds sorter !! k
  = if decide (k = node) then Some (default ∅ (sorter !! node) ∪ preds)
    else match sorter !! k with
         | Some ps => Some ps
         | None => if decide (k ∈ preds) then Some ∅ else None
         end.
Proof.
  unfold ts_add. rewrite lookup_union, lookup_gset_to_gmap.
  destruct (decide (k = node)) as [->|Hne].
  - rewrite lookup_insert_eq. by case_guard.
  - rewrite lookup_insert_ne by done.
    destruct (sorter !! k); case_guard; by try case_decide.
Qed.

Section Traversal.
Context (g : Graph).

Lemma dependencies_in_all_keys n : dependencies_of g n ⊆ all_keys g.
Proof.
  intros s Hs. unfold dependencies_of, inputs_for in Hs. unfold all_keys.
  destruct (_connections g !! n) as [ports|] eqn:Hports; simpl in Hs; [|set_solver].
  apply elem_of_union. right. apply elem_of_union_list.
  eexists. split; [|exact Hs].
  apply list_elem_of_fmap. exists ports. split; [done|].
  apply list_elem_of_fmap. exists (n, ports). split; [done|].
  by apply elem_of_map_to_list.
Qed.

Lemma dfs_fold fuel :
  (∀ n st, n ∈ all_keys g → dfs_pre g fuel st →
           dfs_post g st (_add_dependencies_recursive fuel g n st) [n]) →
  ∀ roots st, (∀ r, r ∈ roots → r ∈ all_keys g) → dfs_pre g fuel st →
    dfs_post g st (foldl (λ st' dep, _add_dependencies_recursive fuel g dep st') st roots)
             roots.
Proof.
  intros Hsingle roots. induction roots as [|r roots IH]; intros st Hroots Hpre.
  - simpl. destruct Hpre as (HU & _ & Hinv).
    split; [done|]. split; [done|]. split; [by intros ? ?%elem_of_nil|].
    split; [done|]. split; [by left|]. by intros.
  - simpl. set (st1 := _add_dependencies_recursive fuel g r st).
    destruct (Hsingle r st) as (Hinv1 & Hsub1 & Hr1 & HU1 & Hreach1 & Hclosed1);
      [apply Hroots; left|done|]. fold st1 in Hinv1, Hsub1, Hr1, HU1, Hreach1, Hclosed1.
    destruct (IH st1) as (Hinv2 & Hsub2 & Hr2 & HU2 & Hreach2 & Hclosed2).
    { intros ? ?. apply Hroots. by right. }
    { destruct Hpre as (HU & Hsize & _). split; [done|]. split; [|done].
      eapply Nat.le_lt_trans; [|exact Hsize]. apply subseteq_size. set_solver. }
    split; [done|]. split; [set_solver|]. split.
    { intros r' [->|Hr']%elem_of_cons; [|by apply Hr2].
      apply Hsub2, Hr1. left. }
    split; [done|]. split.
    + intros m Hm. destruct (Hreach2 m Hm) as [Hm1|(r' & Hr' & Hrtc)].
      * destruct (Hreach1 m Hm1) as [?|(r' & ->%list_elem_of_singleton & Hrtc)]; [by left|].
        right. exists r. split; [left|done].
      * right. exists r'. split; [by right|done].
    + intros m Hm Hnot. destruct (decide (m ∈ st1.2)) as [Hm1|Hm1].
      * etrans; [by apply Hclosed1|done].
      * by apply Hclosed2.
Qed.

Lemma dfs_single fuel n st :
  n ∈ all_keys g → dfs_pre g fuel st →
  dfs_post g st (_add_dependencies_recursive fuel g n st) [n].
Proof.
  revert n st. induction fuel as [|fuel IH]; intros n [s V] Hn (HU & Hsize & Hinv).
  { simpl in Hsize. lia. }
  simpl in *. destruct (decide (n ∈ V)) as [HnV|HnV].
  { split; [done|]. split; [done|]. split.
    { by intros ? ->%list_elem_of_singleton. }
    split; [done|]. split; [by left|]. by intros. }
  set (deps := dependencies_of g n).
  set (st1 := (ts_add n deps s, V ∪ {[n]})).
  assert (Hpre1 : dfs_pre g fuel st1).
  { split; [simpl; set_solver|]. split.
    - simpl. assert (all_keys g ∖ (V ∪ {[n]}) ⊂ all_keys g ∖ V) as ?%subset_size; [|lia].
      split; [set_solver|]. intros Hsub.
      assert (n ∈ all_keys g ∖ V) as ?%Hsub by set_solver. set_solver.
    - destruct Hinv as [Ha Hb]. split; simpl.
      + intros k Hk. rewrite lookup_ts_add. case_decide as Hkn.
        * subst k. f_equal. fold deps.
          destruct (s !! n) as [ps|] eqn:Hps; simpl; [|set_solver].
          destruct (Hb n ps Hps HnV) as [-> _]. set_solver.
        * rewrite Ha by set_solver. done.
      + intros k ps. rewrite lookup_ts_add. intros Hk HkV.
        case_decide as Hkn; [set_solver|].
        destruct (s !! k) as [ps'|] eqn:Hps.
        * injection Hk as ->. destruct (Hb k ps Hps) as (-> & m & Hm & Hkm); [set_solver|].
          split; [done|]. exists m. split; [set_solver|done].
        * case_decide as Hkd; [|done]. injection Hk as <-.
          split; [done|]. exists n. split; [set_solver|done]. }
  destruct (dfs_fold fuel IH (elements deps) st1) as (Hinv2 & Hsub2 & Hr2 & HU2 & Hreach2 & Hclosed2).
  { intros r Hr%elem_of_elements. by eapply dependencies_in_all_keys. }
  { done. }
  simpl in Hsub2.
  split; [done|]. split; [set_solver|]. split.
  { intros ? ->%list_elem_of_singleton. apply Hsub2. set_solver. }
  split; [done|]. split.
  - intros m Hm. destruct (Hreach2 m Hm) as [Hm1|(r & Hr & Hrtc)].
    + simpl in Hm1. apply elem_of_union in Hm1 as [?| ->%elem_of_singleton]; [by left|].
      right. exists n. split; [left|done].
    + right. exists n. split; [left|]. eapply rtc_l; [|exact Hrtc].
      by apply elem_of_elements in Hr.
  - intros m Hm HmV. destruct (decide (m = n)) as [->|Hmn].
    + intros d Hd. apply Hr2. by apply elem_of_elements.
    + apply Hclosed2; [done|]. simpl. set_solver.
Qed.

(** The traversal visits the closure of the targets and gives the sorter
    each visited node with its dependencies. *)
Lemma collect_dependencies_spec targets :
  targets ⊆ all_keys g →
  let st := collect_dependencies g targets in
  (∀ n, n ∈ st.2 ↔ in_closure g targets n)
  ∧ dom st.1 = st.2
  ∧ (∀ n, n ∈ st.2 → st.1 !! n = Some (dependencies_of g n)).
Proof.
  intros Htargets st.
  destruct (dfs_fold (S (size (all_keys g))) (dfs_single _) (elements targets) (∅, ∅))
    as ([Ha Hb] & _ & Hroots & _ & Hreach & Hclosed).
  { intros r Hr%elem_of_elements. by apply Htargets. }
  { split; [set_solver|]. split; [simpl; rewrite difference_empty_L; lia|].
    split; [set_solver|]. intros n ps. simpl. by rewrite lookup_empty. }
  fold (collect_dependencies g targets) in Ha, Hb, Hroots, Hreach, Hclosed. fold st in Ha, Hb, Hroots, Hreach, Hclosed.
  assert (Hclosure : ∀ n, n ∈ st.2 ↔ in_closure g targets n).
  { intros n. split.
    - intros Hn. destruct (Hreach n Hn) as [?|(r & Hr%elem_of_elements & Hrtc)]; [set_solver|].
      by exists r.
    - intros (t & Ht & Hrtc). assert (Ht' : t ∈ st.2) by (by apply Hroots, elem_of_elements).
      clear Ht. induction Hrtc as [|t m n Htm _ IH]; [done|].
      apply IH. eapply Hclosed; [done|set_solver|done]. }
  split; [done|]. split; [|done].
  apply set_eq. intros n. split.
  - intros [ps Hps]%elem_of_dom. destruct (decide (n ∈ st.2)) as [|Hn]; [done|].
    destruct (Hb n ps Hps Hn) as (_ & m & Hm & Hnm).
    eapply Hclosed; [done|set_solver|done].
  - intros Hn. apply elem_of_dom. rewrite Ha by done. eauto.
Qed.
End Traversal.

Section Ordering.
Context (g : Graph).

Lemma target_nodes_in_all_keys limit_to : target_nodes limit_to g ⊆ all_keys g.
Proof.
  intros n Hn. unfold all_keys. do 2 (apply elem_of_union; left).
  destruct limit_to as [keys|]; simpl in Hn; [|done].
  apply elem_of_list_to_set, list_elem_of_filter in Hn as [Hn _].
  apply elem_of_dom. unfold has_node in Hn. by apply bool_decide_eq_true in Hn.
Qed.

Lemma ts_pred_collect targets n p :
  targets ⊆ all_keys g →
  ts_pred (collect_dependencies g targets).1 n p
  ↔ in_closure g targets n ∧ depends_on g n p.
Proof.
  intros Ht. destruct (collect_dependencies_spec g targets Ht) as (Hcl & Hdom & Hlook).
  split.
  - intros (ps & Hps & Hp).
    assert (Hn : n ∈ (collect_dependencies g targets).2).
    { rewrite <- Hdom. apply elem_of_dom. eauto. }
    rewrite (Hlook n Hn) in Hps. injection Hps as <-. split; [by apply Hcl|done].
  - intros [Hn Hp]. apply Hcl in Hn. exists (dependencies_of g n). by rewrite Hlook.
Qed.

Lemma ts_closed_collect targets :
  targets ⊆ all_keys g → ts_closed (collect_dependencies g targets).1.
Proof.
  intros Ht n ps Hps p Hp.
  assert (ts_pred (collect_dependencies g targets).1 n p) as Hpred by (by exists ps).
  apply ts_pred_collect in Hpred as [(t & Htt & Hrtc) Hdep]; [|done].
  destruct (collect_dependencies_spec g targets Ht) as (Hcl & -> & _).
  apply Hcl. exists t. split; [done|]. by eapply rtc_r.
Qed.

Lemma tc_collect_depends targets n m :
  targets ⊆ all_keys g →
  tc (ts_pred (collect_dependencies g targets).1) n m → tc (depends_on g) n m.
Proof.
  intros Ht Htc. induction Htc as [n m Hnm|n k m Hnk _ IH].
  - apply tc_once. by apply ts_pred_collect in Hnm as [_ ?].
  - eapply tc_l; [|exact IH]. by apply ts_pred_collect in Hnk as [_ ?].
Qed.

Lemma tc_depends_collect targets n m :
  targets ⊆ all_keys g → in_closure g targets n →
  tc (depends_on g) n m → tc (ts_pred (collect_dependencies g targets).1) n m.
Proof.
  intros Ht Hn Htc. induction Htc as [n m Hnm|n k m Hnk _ IH].
  - apply tc_once. by apply ts_pred_collect.
  - eapply tc_l; [by apply ts_pred_collect|]. apply IH.
    destruct Hn as (t & Htt & Hrtc). exists t. split; [done|]. by eapply rtc_r.
Qed.

Lemma topological_order_empty keys :
  target_nodes (Some keys) g = ∅ → topological_order (Some keys) g = Ok [].
Proof.
  intros He. unfold topological_order.
  by rewrite He, !bool_decide_eq_true_2 by eauto.
Qed.

Lemma topological_order_static limit_to :
  (∃ n, n ∈ target_nodes limit_to g) →
  topological_order limit_to g
  = match static_order (collect_dependencies g (target_nodes limit_to g)).1 with
    | Ok order => Ok order
    | Raise _ => Raise GraphError_cycle
    end.
Proof.
  intros [n Hn]. unfold topological_order.
  rewrite (bool_decide_eq_false_2 (target_nodes limit_to g = ∅)) by set_solver.
  by rewrite andb_false_r.
Qed.

(** A cycle that can be reached from the targets makes
    [topological_order] raise. *)
Lemma topological_order_cycle limit_to n :
  in_closure g (target_nodes limit_to g) n → tc (depends_on g) n n →
  topological_order limit_to g = Raise GraphError_cycle.
Proof.
  intros Hn Hcyc. rewrite topological_order_static.
  - rewrite (static_order_cycle _ n); [done|].
    apply tc_depends_collect; [apply target_nodes_in_all_keys|done..].
  - destruct Hn as (t & Ht & _). eauto.
Qed.

(** What [topological_order] returns is the closure of the targets. *)
Lemma topological_order_members limit_to order :
  topological_order limit_to g = Ok order →
  ∀ n, n ∈ order ↔ in_closure g (target_nodes limit_to g) n.
Proof.
  intros Horder n.
  destruct (decide (target_nodes limit_to g = ∅)) as [Hempty|[t Ht]%set_choose_L].
  - assert (order = []) as ->.
    { revert Horder. unfold topological_order, collect_dependencies.
      rewrite Hempty, elements_empty. simpl.
      destruct (_ && _); [congruence|]. by intros [= <-]. }
    split; [by intros ?%elem_of_nil|].
    intros (t & Ht & _). rewrite Hempty in Ht. set_solver.
  - rewrite topological_order_static in Horder by eauto.
    destruct (static_order _) as [r|] eqn:Hr; [|done]. injection Horder as ->.
    apply static_order_ok in Hr as (_ & Hmem & _).
    destruct (collect_dependencies_spec g _ (target_nodes_in_all_keys limit_to))
      as (Hcl & Hdom & _).
    by rewrite Hmem, Hdom, Hcl.
Qed.

(** C1.  For a graph without cycles, [topological_order] returns a list
    without repetitions whose members are exactly the transitive-dependency
    closure of the requested nodes (the requested keys that name a node of
    the graph); in it the source of every connection whose target is in the
    list comes strictly before that target; and when [limit_to] is
    unspecified every node of the graph is in the list. *)
Theorem topological_order_sorts limit_to :
  acyclic g →
  ∃ order,
    topological_order limit_to g = Ok order
    ∧ NoDup order
    ∧ (∀ n, n ∈ order ↔ in_closure g (target_nodes limit_to g) n)
    ∧ (∀ s t, t ∈ order → depends_on g t s → before order s t)
    ∧ (limit_to = None → ∀ n, is_Some (nodes g !! n) → n ∈ order).
Proof.
  intros Hacyc.
  assert (Hcover : ∀ order : list string,
    (∀ n, n ∈ order ↔ in_closure g (target_nodes limit_to g) n) →
    limit_to = None → ∀ n, is_Some (nodes g !! n) → n ∈ order).
  { intros order Hmem -> n Hn. apply Hmem. exists n. split; [|done].
    simpl. by apply elem_of_dom. }
  destruct (decide (target_nodes limit_to g = ∅)) as [Hempty|[t Ht]%set_choose_L].
  - assert (Hnone : ∀ n, ¬ in_closure g (target_nodes limit_to g) n).
    { intros n (t & Ht & _). rewrite Hempty in Ht. set_solver. }
    destruct limit_to as [keys|].
    + exists []. split; [by apply topological_order_empty|].
      split; [constructor|]. split.
      { intros n. split; [by intros ?%elem_of_nil|]. intros ?. by destruct (Hnone n). }
      split; [by intros s t ?%elem_of_nil|]. done.
    + assert (Hs : (collect_dependencies g (target_nodes None g)).1 = ∅).
      { unfold collect_dependencies. by rewrite Hempty, elements_empty. }
      exists []. split.
      { unfold topological_order. simpl. simpl in Hs. rewrite Hs. done. }
      split; [constructor|]. split.
      { intros n. split; [by intros ?%elem_of_nil|]. intros ?. by destruct (Hnone n). }
      split; [by intros s t' ?%elem_of_nil|]. intros _ n Hn.
      apply elem_of_dom in Hn. simpl in Hempty. set_solver.
  - pose proof (target_nodes_in_all_keys limit_to) as HU.
    destruct (static_order_acyclic (collect_dependencies g (target_nodes limit_to g)).1)
      as [order Horder].
    { by apply ts_closed_collect. }
    { intros n Hn%tc_collect_depends; [|done]. by apply (Hacyc n). }
    exists order. split.
    { rewrite topological_order_static by eauto. by rewrite Horder. }
    apply static_order_ok in Horder as (Hnd & Hmem & Hord).
    destruct (collect_dependencies_spec g _ HU) as (Hcl & Hdom & _).
    assert (Hmem' : ∀ n, n ∈ order ↔ in_closure g (target_nodes limit_to g) n).
    { intros n. by rewrite Hmem, Hdom, Hcl. }
    split; [done|]. split; [done|]. split; [|by apply Hcover].
    intros s t' [i Hi]%list_elem_of_lookup Hdep.
    destruct (Hord i t' s Hi) as (j & Hj & Hjs).
    { apply ts_pred_collect; [done|]. split; [|done].
      apply Hmem'. by eapply list_elem_of_lookup_2. }
    by exists j, i.
Qed.
End Ordering.

(** A graph whose connections all end at nodes and that
    [topological_order] can sort has no cycle. *)
Lemma sortable_acyclic g :
  dom (_connections g) ⊆ dom (nodes g) →
  topological_order None g ≠ Raise GraphError_cycle →
  acyclic g.
Proof.
  intros Hdom Hok n Hcyc. apply Hok. apply (topological_order_cycle g None n); [|done].
  exists n. split; [|done]. simpl. apply Hdom.
  assert (∃ s, depends_on g n s) as [s Hs].
  { inversion Hcyc; eauto. }
  unfold depends_on, dependencies_of, inputs_for in Hs.
  destruct (_connections g !! n) eqn:Hn; [|set_solver].
  apply elem_of_dom. eauto.
Qed.

Lemma topological_order_sorts_witness :
  ∃ order,
    topological_order (Some ["mul"]) example_graph = Ok order
    ∧ NoDup order
    ∧ (∀ n, n ∈ order ↔ in_closure example_graph (target_nodes (Some ["mul"]) example_graph) n)
    ∧ (∀ s t, t ∈ order → depends_on example_graph t s → before order s t)
    ∧ (Some ["mul"] = None → ∀ n, is_Some (nodes example_graph !! n) → n ∈ order).
Proof.
  apply (topological_order_sorts example_graph (Some ["mul"])).
  apply sortable_acyclic; [apply (bool_decide_unpack _)|]; vm_compute; done.
Defined.

Lemma filter_all {A} (P : A → Prop) `{∀ x, Decision (P x)} (l : list A) :
  Forall P l → filter P l = l.
Proof.
  induction 1 as [|x l Hx _ IH]; [done|].
  rewrite filter_cons_True by done. by rewrite IH.
Qed.

Lemma result_nodes_have_node targets g :
  Forall (λ k, has_node g k = true) (result_nodes_of targets g).
Proof.
  destruct targets as [keys|]; simpl.
  - apply Forall_forall. by intros k [? _]%list_elem_of_filter.
  - apply Forall_forall. intros k [[k' node] [-> Hk]]%list_elem_of_fmap.
    apply elem_of_map_to_list in Hk. unfold has_node. simpl.
    apply bool_decide_eq_true. eauto.
Qed.

Lemma result_nodes_target_nodes targets g :
  target_nodes (Some (result_nodes_of targets g)) g
  = list_to_set (result_nodes_of targets g).
Proof. simpl. by rewrite filter_all by apply result_nodes_have_node. Qed.

Section SchedulerCycle.
Context `{Externals}.

(** C7.  When a node that can be reached from the requested targets
    depends on itself through a chain of connections, [topological_order]
    raises the cycle [GraphError] and [evaluate] raises it too and leaves
    the world as it was: no handler is called, the cache and the dirty
    set are unchanged and the progress callback is not called. *)
Theorem evaluate_cycle reg targets context force progress w n :
  in_closure (w_graph w) (list_to_set (result_nodes_of targets (w_graph w))) n →
  tc (depends_on (w_graph w)) n n →
  topological_order (Some (result_nodes_of targets (w_graph w))) (w_graph w)
  = Raise GraphError_cycle
  ∧ is_GraphError GraphError_cycle = true
  ∧ evaluate reg targets context force progress w = (Raise GraphError_cycle, w).
Proof.
  intros Hn Hcyc.
  assert (Htopo : topological_order (Some (result_nodes_of targets (w_graph w))) (w_graph w)
                  = Raise GraphError_cycle).
  { apply (topological_order_cycle _ _ n); [|done].
    by rewrite result_nodes_target_nodes. }
  split; [done|]. split; [done|]. unfold evaluate. rewrite Htopo.
  destruct (result_nodes_of targets (w_graph w)) eqn:Hrn; [|done].
  destruct Hn as (t & Ht & _). set_solver.
Qed.
End SchedulerCycle.

Lemma evaluate_cycle_witness :
  topological_order (Some (result_nodes_of (Some ["add"]) cyclic_graph)) cyclic_graph
  = Raise GraphError_cycle
  ∧ is_GraphError GraphError_cycle = true
  ∧ evaluate (H:=example_externals) example_registry (Some ["add"]) None false true
             (mkWorld cyclic_graph ExecutionCache_init [] [] [])
    = (Raise GraphError_cycle, mkWorld cyclic_graph ExecutionCache_init [] [] []).
Proof.
  apply (evaluate_cycle (H:=example_externals) example_registry (Some ["add"]) None false true
           (mkWorld cyclic_graph ExecutionCache_init [] [] []) "c1").
  - exists "add". split; [apply (bool_decide_unpack _); vm_compute; done|].
    apply rtc_once. apply (bool_decide_unpack _). vm_compute. done.
  - apply (tc_l _ "c1" "mul" "c1"); [|apply (tc_l _ "mul" "add" "c1"); [|apply tc_once]];
      apply (bool_decide_unpack _); vm_compute; done.
Defined.

(** * Gathering inputs *)

(** A source that has produced a mapping that is not empty in this pass is
    read from the results of the pass, whatever the cache holds. *)
Lemma collect_input_produced cache node_key results inputs port_name connection
    source_outputs :
  results !! source_node connection = Some source_outputs →
  source_outputs ≠ [] →
  collect_input cache node_key results inputs (port_name, connection)
  = read_port connection port_name source_outputs inputs.
Proof.
  intros Hres Hne. unfold collect_input, read_port. rewrite Hres.
  by destruct source_outputs.
Qed.

(** A source that has not been produced in this pass is read from the
    cache, and is a missing dependency when the cache does not hold it. *)
Lemma collect_input_not_produced cache node_key results inputs port_name connection :
  results !! source_node connection = None →
  collect_input cache node_key results inputs (port_name, connection)
  = match cache_get cache (source_node connection) with
    | Some source_outputs => read_port connection port_name source_outputs inputs
    | None =>
        Raise (SchedulerError ("Missing outputs for '" +:+ source_node connection
                                 +:+ "' required by '" +:+ node_key +:+ "'"))
    end.
Proof. intros Hres. unfold collect_input, read_port. by rewrite Hres. Qed.

Section Scheduler.
Context `{Externals}.





End Scheduler.



(** C6.  A source that has produced an empty mapping in the same pass is
    treated as if it had produced nothing: with memoization disabled, the
    second pass below takes the input of ["b"] from the outputs that the
    cache still holds for ["a"] from the first pass, although ["a"] has just
    been evaluated; and with an empty cache the failure is the one for
    missing outputs, not the one for a missing port. *)
Theorem empty_outputs_are_taken_from_cache :
  switch_first.1 = Ok [("b", [("output", PInt 7)])]
  ∧ cache_get (w_cache switch_first.2) "a" = Some [("output", PInt 7)]
  ∧ handler_calls switch_second.2 = ["a"; "b"; "a"; "b"]
  ∧ switch_second.1 = Ok [("a", []); ("b", [("output", PInt 7)])]
  ∧ _collect_inputs switch_graph (w_cache switch_first.2) "b" {["a" := []]}
    = Ok [("lhs", PInt 7)]
  ∧ _collect_inputs switch_graph ExecutionCache_init "b" {["a" := []]}
    = Raise (SchedulerError "Missing outputs for 'a' required by 'b'").
Proof. vm_compute. repeat split; reflexivity. Qed.







Section Idempotence.
Context `{Externals}.





Lemma evaluate_nonempty reg targets context force progress w :
  result_nodes_of targets (w_graph w) ≠ [] →
  evaluate reg targets context force progress w
  = match topological_order (Some (result_nodes_of targets (w_graph w))) (w_graph w) with
    | Raise e => (Raise e, w)
    | Ok execution_order =>
        let total := length execution_order in
        let w0 := if progress
                  then mkWorld (w_graph w) (w_cache w) (w_env w) (handler_calls w)
                               (progress_calls w ++ [(0, total, "")])
                  else w in
        match evaluate_loop reg (context_or_default context) force progress total 1
                            execution_order ∅ w0 with
        | (Ok results, w') =>
            (Ok (select_results (result_nodes_of targets (w_graph w)) results), w')
        | (Raise e, w') => (Raise e, w')
        end
    end.
Proof. unfold evaluate. by destruct (result_nodes_of targets (w_graph w)). Qed.

End Idempotence.


(** * Signatures *)

Lemma NoDup_fst_unique {V} (items : odict V) k v1 v2 :
  NoDup items.*1 → (k, v1) ∈ items → (k, v2) ∈ items → v1 = v2.
Proof.
  induction items as [|[k' v'] items IH]; [by intros _ ?%elem_of_nil|].
  intros [Hk Hnd]%NoDup_cons H1 H2.
  apply elem_of_cons in H1 as [[= -> ->]|H1]; apply elem_of_cons in H2 as [[= ->]|H2];
    try done.
  - destruct Hk. apply list_elem_of_fmap. by exists (k', v2).
  - subst. destruct Hk. apply list_elem_of_fmap. by exists (k', v1).
  - by apply IH.
Qed.

Section Sorting.
Context {V : Type}.

#[local] Instance key_le_trans : Transitive (@key_le V).
Proof. intros a b c. unfold key_le. apply transitivity. Qed.

#[local] Instance key_le_total : Total (@key_le V).
Proof. intros a b. unfold key_le. apply (total String.le). Qed.

Lemma sorted_items_sorted (items : odict V) : StronglySorted key_le (sorted_items items).
Proof. apply StronglySorted_merge_sort; apply _. Qed.

Lemma sorted_items_perm (items : odict V) : sorted_items items ≡ₚ items.
Proof. apply merge_sort_Permutation. Qed.

Lemma sorted_unique (a b : odict V) :
  NoDup a.*1 → a ≡ₚ b →
  StronglySorted key_le a → StronglySorted key_le b → a = b.
Proof.
  intros Hnd Hperm Ha Hb. apply (StronglySorted_unique_strong key_le); try done.
  intros [k1 v1] [k2 v2] H1 H2 Hle1 Hle2. unfold key_le in *. simpl in *.
  assert (k1 = k2) as -> by (by apply (anti_symm String.le)).
  f_equal. rewrite <- Hperm in H2.
  by eapply NoDup_fst_unique.
Qed.

(** The order of insertion does not show in the sorted items. *)
Lemma sorted_items_same (a b : odict V) :
  a ≡ₚ b → NoDup a.*1 → sorted_items a = sorted_items b.
Proof.
  intros Hperm Hnd. apply sorted_unique.
  - by rewrite sorted_items_perm.
  - by rewrite !sorted_items_perm.
  - apply sorted_items_sorted.
  - apply sorted_items_sorted.
Qed.
End Sorting.

Lemma fmap_value_keys {V W} (f : V → W) (items : odict V) :
  (map (λ '(k, v), (k, f v)) items).*1 = items.*1.
Proof. induction items as [|[k v] items IH]; [done|]. cbn. f_equal. exact IH. Qed.

(** Sorting the items of a dictionary and then mapping its values, as the
    source does, or mapping and then sorting: the same. *)
Lemma sorted_items_fmap_value {V W} (f : V → W) (items : odict V) :
  NoDup items.*1 →
  sorted_items (map (λ '(k, v), (k, f v)) items)
  = map (λ '(k, v), (k, f v)) (sorted_items items).
Proof.
  intros Hnd. apply sorted_unique.
  - rewrite sorted_items_perm. by rewrite fmap_value_keys.
  - rewrite sorted_items_perm.
    apply (fmap_Permutation (λ '(k, v), (k, f v))). by rewrite sorted_items_perm.
  - apply sorted_items_sorted.
  - apply (StronglySorted_fmap _ key_le key_le); [|apply sorted_items_sorted].
    by intros [k1 v1] [k2 v2].
Qed.

(** Induction on a value, with the values inside it. *)
Section PyvalueInduction.
Context (P : pyvalue → Prop).
Hypothesis HNone : P PNone.
Hypothesis HBool : ∀ b, P (PBool b).
Hypothesis HInt : ∀ z, P (PInt z).
Hypothesis HFloat : ∀ bits, P (PFloat bits).
Hypothesis HStr : ∀ s, P (PStr s).
Hypothesis HDict : ∀ items, Forall (λ item, P item.2) items → P (PDict items).
Hypothesis HList : ∀ elems, Forall P elems → P (PList elems).
Hypothesis HTuple : ∀ elems, Forall P elems → P (PTuple elems).
Hypothesis HSet : ∀ elems, Forall P elems → P (PSet elems).
Hypothesis HNdarray : ∀ shape dtype raw, P (PNdarray shape dtype raw).
Hypothesis HModel : ∀ dump, P dump → P (PModel dump).
Hypothesis HObject : ∀ cls attrs, Forall (λ item, P item.2) attrs → P (PObject cls attrs).
Hypothesis HOpaque : ∀ repr, P (POpaque repr).

Lemma pyvalue_nested_ind : ∀ value, P value.
Proof.
  fix IH 1. intros value.
  pose (items_ok := fix go (items : list (string * pyvalue))
                      : Forall (λ item, P item.2) items :=
          match items with
          | [] => @List.Forall_nil _ _
          | (k, v) :: rest =>
              @List.Forall_cons _ (λ item, P item.2) (k, v) rest (IH v) (go rest)
          end).
  pose (elems_ok := fix go (elems : list pyvalue) : Forall P elems :=
          match elems with
          | [] => @List.Forall_nil _ _
          | v :: rest => @List.Forall_cons _ P v rest (IH v) (go rest)
          end).
  destruct value.
  - apply HNone.
  - apply HBool.
  - apply HInt.
  - apply HFloat.
  - apply HStr.
  - apply HDict, items_ok.
  - apply HList, elems_ok.
  - apply HTuple, elems_ok.
  - apply HSet, elems_ok.
  - apply HNdarray.
  - apply HModel, IH.
  - apply HObject, items_ok.
  - apply HOpaque.
Qed.
End PyvalueInduction.

(** Values that are related one by one are mapped to the same list by a
    function that does not tell related values apart. *)
Lemma related_items_map (R : relation pyvalue) (f : pyvalue → pyvalue)
    (xs ys : odict pyvalue) :
  Forall2 (λ x y, x.1 = y.1 ∧ R x.2 y.2) xs ys →
  Forall (λ item, ∀ other, R item.2 other → f item.2 = f other) xs →
  map (λ '(k, v), (k, f v)) xs = map (λ '(k, v), (k, f v)) ys.
Proof.
  induction 1 as [|[k v] [k' w] xs ys [Hk Hv] _ IH]; [done|].
  intros [Hf Hrest]%Forall_cons. simpl in *. subst k'.
  by rewrite (Hf w Hv), IH.
Qed.

Lemma related_elems_map (R : relation pyvalue) (f : pyvalue → pyvalue)
    (xs ys : list pyvalue) :
  Forall2 R xs ys →
  Forall (λ x, ∀ other, R x other → f x = f other) xs →
  map f xs = map f ys.
Proof.
  induction 1 as [|v w xs ys Hv _ IH]; [done|].
  intros [Hf Hrest]%Forall_cons. simpl. by rewrite (Hf w Hv), IH.
Qed.

(** The sorted items of two dictionaries that hold related values under
    the same keys, in any order. *)
Lemma related_items_sorted (R : relation pyvalue) (f : pyvalue → pyvalue)
    (xs xs' ys : odict pyvalue) :
  NoDup xs.*1 → xs ≡ₚ xs' →
  Forall2 (λ x y, x.1 = y.1 ∧ R x.2 y.2) xs' ys →
  Forall (λ item, ∀ other, R item.2 other → f item.2 = f other) xs →
  sorted_items (map (λ '(k, v), (k, f v)) xs)
  = sorted_items (map (λ '(k, v), (k, f v)) ys).
Proof.
  intros Hnd Hperm Hrel Hf. rewrite Hperm in Hf.
  rewrite <- (related_items_map R f xs' ys Hrel Hf).
  apply sorted_items_same.
  - by apply (fmap_Permutation (λ '(k, v), (k, f v))).
  - by rewrite fmap_value_keys.
Qed.

(** [json.dumps] with [sort_keys] does not show the order of insertion,
    at any depth. *)
Lemma sort_keys_json_same value other :
  json_same value other → sort_keys value = sort_keys other.
Proof.
  revert other.
  induction value as [| | | | |items IH|elems IH|elems IH|elems IH|shape dtype raw
                  |dump IH|cls attrs IH|] using pyvalue_nested_ind;
    intros other Hsame; inversion Hsame; subst; try done.
  - cbn [sort_keys]. f_equal. by eapply related_items_sorted.
  - cbn [sort_keys]. f_equal. by eapply related_elems_map.
  - cbn [sort_keys]. f_equal. by eapply related_elems_map.
Qed.

Section Signature.
Context `{Externals}.

Lemma normalise_dict_sorted_first items :
  NoDup items.*1 →
  _normalise_value (PDict items)
  = PDict (map (λ '(k, v), (k, _normalise_value v)) (sorted_items items)).
Proof. intros Hnd. simpl. f_equal. by apply sorted_items_fmap_value. Qed.

(** Sorting the normalised items, as [_normalise_value] does, and then
    the items that [json.dumps] writes: one sorting of the items. *)
Lemma sorted_normalised_items (items : odict pyvalue) :
  NoDup items.*1 →
  sorted_items (map (λ '(k, v), (k, sort_keys v))
                    (sorted_items (map (λ '(k, v), (k, _normalise_value v)) items)))
  = sorted_items (map (λ '(k, v), (k, sort_keys (_normalise_value v))) items).
Proof.
  intros Hnd. apply sorted_items_same.
  - rewrite sorted_items_perm, map_map.
    erewrite map_ext; [done|]. by intros [k v].
  - rewrite fmap_value_keys. rewrite sorted_items_perm. by rewrite fmap_value_keys.
Qed.

Lemma normalised_items_same (R : relation pyvalue) (xs xs' ys : odict pyvalue) :
  NoDup xs.*1 → xs ≡ₚ xs' →
  Forall2 (λ x y, x.1 = y.1 ∧ R x.2 y.2) xs' ys →
  Forall (λ item, ∀ other, R item.2 other →
                           sort_keys (_normalise_value item.2)
                           = sort_keys (_normalise_value other)) xs →
  sorted_items (map (λ '(k, v), (k, sort_keys v))
                    (sorted_items (map (λ '(k, v), (k, _normalise_value v)) xs)))
  = sorted_items (map (λ '(k, v), (k, sort_keys v))
                      (sorted_items (map (λ '(k, v), (k, _normalise_value v)) ys))).
Proof.
  intros Hnd Hperm Hrel Hf.
  assert (Hnd' : NoDup ys.*1).
  { assert (xs'.*1 = ys.*1) as <-.
    { clear Hf Hperm. induction Hrel as [|x y xs0 ys0 [Hk _] _ IH]; [done|].
      rewrite !fmap_cons. by f_equal. }
    by rewrite <- Hperm. }
  rewrite !sorted_normalised_items by done.
  by apply (related_items_sorted R (λ v, sort_keys (_normalise_value v)) xs xs' ys).
Qed.

(** What [json.dumps] writes for a normalised value does not show the
    order in which dictionaries and objects were filled. *)
Lemma normalise_py_same value other :
  py_same value other →
  sort_keys (_normalise_value value) = sort_keys (_normalise_value other).
Proof.
  revert other.
  induction value as [| | | | |items IH|elems IH|elems IH|elems IH|shape dtype raw
                  |dump IH|cls attrs IH|] using pyvalue_nested_ind;
    intros other Hsame; inversion Hsame; subst; try done.
  - cbn [_normalise_value sort_keys]. f_equal. by eapply normalised_items_same.
  - cbn [_normalise_value sort_keys]. f_equal. rewrite !map_map.
    by eapply (related_elems_map py_same (λ v, sort_keys (_normalise_value v))).
  - cbn [_normalise_value sort_keys]. f_equal. rewrite !map_map.
    by eapply (related_elems_map py_same (λ v, sort_keys (_normalise_value v))).
  - cbn [_normalise_value sort_keys]. f_equal. rewrite !map_map.
    by eapply (related_elems_map py_same (λ v, sort_keys (_normalise_value v))).
  - cbn [_normalise_value]. by apply sort_keys_json_same.
  - cbn [_normalise_value sort_keys map].
    match goal with
    | Hnd : NoDup attrs.*1, Hperm : attrs ≡ₚ _, Hrel : Forall2 _ _ _ |- _ =>
        by rewrite (normalised_items_same py_same _ _ _ Hnd Hperm Hrel IH)
    end.
Qed.
End Signature.

Section SignatureClaim.
Context `{Externals}.

(** C4.  The signature is the SHA-256 digest of what [json.dumps]
    writes, keys in order, for the dictionary of the key of the node,
    its type, its normalised parameters and the normalised inputs, and
    [TypeError] is raised when that cannot be written.  It is the same
    for two nodes with the same key and the same type whose parameters
    and inputs are the same up to the order in which the items of
    dictionaries and the attributes of objects were inserted, at every
    depth; a list, a tuple or a set counts with the order in which it is
    iterated.  The serialisation does not show the order of the items
    of a dictionary, at any depth.  Normalisation keeps [None],
    booleans, numbers and strings; writes a dictionary with its keys in
    order and its values normalised; writes a list, a tuple or a set as
    the list of its normalised elements, in the order of iteration;
    replaces an array by its shape, its dtype and the SHA-1 digest of
    its bytes, a model by its dump, another object by the name of its
    class and its normalised attributes, and anything else by its
    [repr]. *)
Theorem signature_deterministic node1 node2 inputs1 inputs2 :
  key node1 = key node2 →
  type node1 = type node2 →
  py_same (PDict (parameters node1)) (PDict (parameters node2)) →
  py_same (PDict inputs1) (PDict inputs2) →
  _make_signature node1 inputs1 = _make_signature node2 inputs2
  ∧ (_make_signature node1 inputs1
     = match json_encode
               (sort_keys
                  (PDict [("node", PStr (key node1));
                          ("type", PStr (type node1));
                          ("parameters", _normalise_value (PDict (parameters node1)));
                          ("inputs", _normalise_value (PDict inputs1))])) with
       | Some data => Ok (sha256_hexdigest data)
       | None => Raise TypeError
       end)
  ∧ (∀ value other,
       json_same value other → json_dumps_sorted value = json_dumps_sorted other)
  ∧ (∀ value other,
       py_same value other →
       json_dumps_sorted (_normalise_value value)
       = json_dumps_sorted (_normalise_value other))
  ∧ (_normalise_value PNone = PNone
     ∧ (∀ b, _normalise_value (PBool b) = PBool b)
     ∧ (∀ z, _normalise_value (PInt z) = PInt z)
     ∧ (∀ bits, _normalise_value (PFloat bits) = PFloat bits)
     ∧ (∀ s, _normalise_value (PStr s) = PStr s))
  ∧ (∀ items,
       ∃ sorted,
         _normalise_value (PDict items) = PDict sorted
         ∧ StronglySorted key_le sorted
         ∧ sorted ≡ₚ map (λ '(k, v), (k, _normalise_value v)) items)
  ∧ (∀ elems,
       _normalise_value (PList elems) = PList (_normalise_value <$> elems)
       ∧ _normalise_value (PTuple elems) = PList (_normalise_value <$> elems)
       ∧ _normalise_value (PSet elems) = PList (_normalise_value <$> elems))
  ∧ (∀ shape dtype raw,
       _normalise_value (PNdarray shape dtype raw)
       = PDict [("__ndarray__", PBool true);
                ("shape", PTuple (PInt <$> shape));
                ("dtype", PStr dtype);
                ("digest", PStr (sha1_hexdigest raw))])
  ∧ (∀ dump, _normalise_value (PModel dump) = dump)
  ∧ (∀ cls attrs,
       ∃ sorted,
         _normalise_value (PObject cls attrs)
         = PDict [("__object__", PStr cls); ("data", PDict sorted)]
         ∧ StronglySorted key_le sorted
         ∧ sorted ≡ₚ map (λ '(k, v), (k, _normalise_value v)) attrs)
  ∧ (∀ repr, _normalise_value (POpaque repr) = PStr repr).
Proof.
  intros Hkey Htype Hparams Hinputs.
  split; [|split; [|split; [|split; [|split; [|split; [|split; [|split; [|split;
    [|split]]]]]]]]].
  - unfold _make_signature, json_dumps_sorted, signature_payload.
    rewrite Hkey, Htype. cbn [sort_keys map].
    by rewrite (normalise_py_same _ _ Hparams), (normalise_py_same _ _ Hinputs).
  - done.
  - intros value other Hsame. unfold json_dumps_sorted.
    by rewrite (sort_keys_json_same _ _ Hsame).
  - intros value other Hsame. unfold json_dumps_sorted.
    by rewrite (normalise_py_same _ _ Hsame).
  - done.
  - intros items. eexists. split; [reflexivity|].
    split; [apply sorted_items_sorted|apply sorted_items_perm].
  - done.
  - done.
  - done.
  - intros cls attrs. eexists. split; [reflexivity|].
    split; [apply sorted_items_sorted|apply sorted_items_perm].
  - done.
Qed.
End SignatureClaim.

Lemma nested_parameters_same :
  py_same (PDict nested_parameters) (PDict nested_parameters_reordered).
Proof.
  eapply py_same_dict; [by apply (bool_decide_unpack _)|apply perm_swap|].
  constructor; [split; [done|apply py_same_refl]|].
  constructor; [|constructor]. split; [done|]. simpl.
  eapply py_same_dict; [by apply (bool_decide_unpack _)|apply perm_swap|].
  constructor; [|constructor; [split; [done|apply py_same_refl]|constructor]].
  split; [done|]. simpl. apply py_same_list.
  constructor; [|constructor].
  eapply py_same_dict; [by apply (bool_decide_unpack _)|apply perm_swap|].
  constructor; [split; [done|apply py_same_refl]|].
  constructor; [split; [done|apply py_same_refl]|constructor].
Qed.

Lemma signature_deterministic_witness :
  py_same (PDict nested_parameters) (PDict nested_parameters_reordered)
  ∧ _make_signature (H:=example_externals)
      (mkNode "mul" "math.multiply" None nested_parameters [])
      [("a", PSet [PInt 5]); ("b", PNone)]
    = _make_signature (H:=example_externals)
        (mkNode "mul" "math.multiply" (Some "Multiply") nested_parameters_reordered
                [("x", PInt 3)])
        [("b", PNone); ("a", PSet [PInt 5])].
Proof.
  split; [exact nested_parameters_same|].
  apply (signature_deterministic (H:=example_externals)
           (mkNode "mul" "math.multiply" None nested_parameters [])
           (mkNode "mul" "math.multiply" (Some "Multiply") nested_parameters_reordered
                   [("x", PInt 3)])
           [("a", PSet [PInt 5]); ("b", PNone)] [("b", PNone); ("a", PSet [PInt 5])]).
  - reflexivity.
  - reflexivity.
  - exact nested_parameters_same.
  - eapply py_same_dict; [by apply (bool_decide_unpack _)|apply perm_swap|].
    constructor; [split; [done|apply py_same_refl]|].
    constructor; [split; [done|apply py_same_refl]|constructor].
Defined.

(** C4, the input on which the digest is not determined by the values:
    the two nodes hold the same set, [{0, 8}], which iterates as [0, 8]
    in one and as [8, 0] in the other; their normalised parameters are
    two different lists and their signatures differ. *)
Lemma signature_depends_on_set_order :
  [PInt 0; PInt 8] ≡ₚ [PInt 8; PInt 0]
  ∧ key (set_node [PInt 0; PInt 8]) = key (set_node [PInt 8; PInt 0])
  ∧ type (set_node [PInt 0; PInt 8]) = type (set_node [PInt 8; PInt 0])
  ∧ _normalise_value (H:=example_externals)
      (PDict (parameters (set_node [PInt 0; PInt 8])))
    = PDict [("value", PList [PInt 0; PInt 8])]
  ∧ _normalise_value (H:=example_externals)
      (PDict (parameters (set_node [PInt 8; PInt 0])))
    = PDict [("value", PList [PInt 8; PInt 0])]
  ∧ _make_signature (H:=example_externals) (set_node [PInt 0; PInt 8]) []
    ≠ _make_signature (H:=example_externals) (set_node [PInt 8; PInt 0]) [].
Proof.
  split; [apply perm_swap|]. split; [reflexivity|]. split; [reflexivity|].
  split; [vm_compute; reflexivity|]. split; [vm_compute; reflexivity|].
  vm_compute. intros [=].
Qed.

(** * Serialisation *)

Lemma od_set_fresh {V} k (v : V) (d : odict V) :
  k ∉ d.*1 → od_set k v d = d ++ [(k, v)].
Proof.
  induction d as [|[k' v'] d IH]; [done|]. csimpl.
  intros [Hne Hk]%not_elem_of_cons. case_decide; [done|]. by rewrite IH.
Qed.

Lemma node_from_to_dict node : node_from_dict (node_to_dict node) = Ok node.
Proof. destruct node as [k t [ttl|] params md]; reflexivity. Qed.

Lemma has_node_true g k : has_node g k = true ↔ is_Some (nodes g !! k).
Proof. unfold has_node. apply bool_decide_eq_true. Qed.

Lemma has_node_false g k : has_node g k = false ↔ nodes g !! k = None.
Proof.
  unfold has_node. rewrite bool_decide_eq_false. by rewrite eq_None_not_Some.
Qed.

Lemma mark_dirty_fields k g :
  nodes (mark_dirty k g) = nodes g
  ∧ _connections (mark_dirty k g) = _connections g
  ∧ name (mark_dirty k g) = name g
  ∧ graph_metadata (mark_dirty k g) = graph_metadata g.
Proof. unfold mark_dirty. by destruct (has_node g k). Qed.

Lemma add_node_fresh node g :
  nodes g !! key node = None →
  ∃ g', add_node node g = Ok g'
        ∧ nodes g' = <[key node := node]> (nodes g)
        ∧ _connections g' = _connections g
        ∧ name g' = name g ∧ graph_metadata g' = graph_metadata g.
Proof.
  intros Hfresh%has_node_false. unfold add_node. rewrite Hfresh.
  eexists. split; [done|].
  destruct (mark_dirty_fields (key node) (set_nodes (insert (key node) node) g))
    as (-> & -> & -> & ->). done.
Qed.

Lemma connect_existing source sport target tport g :
  is_Some (nodes g !! source) → is_Some (nodes g !! target) →
  ∃ g', connect source sport target tport g = Ok g'
        ∧ nodes g' = nodes g
        ∧ _connections g'
          = <[target := od_set tport (mkConnection source sport) (inputs_for g target)]>
              (_connections g)
        ∧ name g' = name g ∧ graph_metadata g' = graph_metadata g.
Proof.
  intros Hs%has_node_true Ht%has_node_true. unfold connect. rewrite Hs, Ht. simpl.
  eexists. split; [done|].
  match goal with
  | |- context [mark_dirty ?k ?h] => destruct (mark_dirty_fields k h) as (-> & -> & -> & ->)
  end. done.
Qed.

(** Adding the nodes of a list of distinct keys to a graph that has none
    of them. *)
Lemma add_nodes_from_dict (items : list (string * Node)) g :
  NoDup items.*1 →
  (∀ k node, (k, node) ∈ items → key node = k ∧ nodes g !! k = None) →
  ∃ g', for_each (λ h node_data, node ← node_from_dict node_data; add_node node h)
                 (node_to_dict <$> items.*2) g = Ok g'
        ∧ (∀ k node, (k, node) ∈ items → nodes g' !! k = Some node)
        ∧ (∀ k, k ∉ items.*1 → nodes g' !! k = nodes g !! k)
        ∧ _connections g' = _connections g
        ∧ name g' = name g ∧ graph_metadata g' = graph_metadata g.
Proof.
  revert g. induction items as [|[k node] items IH]; intros g Hnd Hitems.
  { exists g. split; [done|]. split; [by intros ? ? ?%elem_of_nil|]. done. }
  apply NoDup_cons in Hnd as [Hk Hnd]. csimpl.
  rewrite node_from_to_dict. simpl.
  destruct (Hitems k node) as [Hkey Hfresh]; [left|].
  destruct (add_node_fresh node g) as (g1 & -> & Hnodes1 & Hconns1 & Hname1 & Hmd1).
  { by rewrite Hkey. }
  simpl. destruct (IH g1 Hnd) as (g' & -> & Hin & Hout & Hconns & Hname & Hmd).
  { intros k' node' Hin. destruct (Hitems k' node') as [? ?]; [by right|].
    split; [done|]. rewrite Hnodes1, lookup_insert_ne; [done|].
    rewrite Hkey. intros <-. apply Hk. apply list_elem_of_fmap. by exists (k, node'). }
  exists g'. split; [done|]. split; [|split].
  - intros k' node' [[= -> ->]|Hin']%elem_of_cons; [|by apply Hin].
    rewrite Hout by done. rewrite Hnodes1, Hkey. apply lookup_insert_eq.
  - intros k' [Hne Hk']%not_elem_of_cons. rewrite Hout by done.
    rewrite Hnodes1, Hkey. by rewrite lookup_insert_ne.
  - by rewrite Hconns, Hname, Hmd.
Qed.

(** Connecting the ports of one node, written by [_graph_to_dict]. *)
Lemma connect_ports_of_node target (ports : odict Connection) g :
  is_Some (nodes g !! target) →
  (∀ port connection, (port, connection) ∈ ports →
                      is_Some (nodes g !! source_node connection)) →
  NoDup ((inputs_for g target).*1 ++ ports.*1) →
  ∃ g', for_each (connect_from_dict target)
                 ((λ '(port, connection), (port, connection_to_dict connection)) <$> ports) g
        = Ok g'
        ∧ nodes g' = nodes g
        ∧ inputs_for g' target = inputs_for g target ++ ports
        ∧ (∀ k, k ≠ target → _connections g' !! k = _connections g !! k)
        ∧ name g' = name g ∧ graph_metadata g' = graph_metadata g.
Proof.
  revert g. induction ports as [|[port [source sport]] ports IH]; intros g Ht Hsrc Hnd.
  { exists g. split; [done|]. split; [done|]. by rewrite app_nil_r. }
  csimpl. unfold mbind, result_bind. simpl.
  destruct (connect_existing source sport target port g) as (g1 & -> & Hn1 & Hc1 & Hname1 & Hmd1).
  { apply (Hsrc port (mkConnection source sport)). left. }
  { done. }
  assert (Hin1 : inputs_for g1 target = inputs_for g target ++ [(port, mkConnection source sport)]).
  { unfold inputs_for at 1. rewrite Hc1, lookup_insert_eq. simpl.
    apply od_set_fresh. csimpl in Hnd. apply NoDup_app in Hnd as (_ & Hnd & _).
    intros Hin. apply (Hnd port Hin). left. }
  destruct (IH g1) as (g' & -> & Hn & Hin & Hother & Hname & Hmd).
  { by rewrite Hn1. }
  { intros p c Hpc. rewrite Hn1. apply (Hsrc p c). by right. }
  { rewrite Hin1, fmap_app. csimpl in *. by rewrite <- app_assoc. }
  exists g'. split; [done|]. split; [by rewrite Hn|]. split.
  { rewrite Hin, Hin1. by rewrite <- app_assoc. }
  split; [|by rewrite Hname, Hmd].
  intros k Hk. rewrite Hother by done. rewrite Hc1. by rewrite lookup_insert_ne.
Qed.

(** Connecting the ports of the nodes of a list of distinct keys, none of
    which has connections yet. *)
Lemma connect_all_from_dict (g0 : Graph) (keys : list string) g :
  NoDup keys →
  nodes g = nodes g0 →
  (∀ k, k ∈ keys → is_Some (nodes g0 !! k) ∧ _connections g !! k = None) →
  (∀ target ports, _connections g0 !! target = Some ports →
     NoDup ports.*1
     ∧ ∀ port connection, (port, connection) ∈ ports →
                          is_Some (nodes g0 !! source_node connection)) →
  ∃ g', for_each connect_ports_from_dict
                 ((λ node_key,
                     (node_key,
                      PDict ((λ '(port, connection), (port, connection_to_dict connection))
                               <$> inputs_for g0 node_key))) <$> keys) g
        = Ok g'
        ∧ nodes g' = nodes g0
        ∧ (∀ k, k ∈ keys → inputs_for g' k = inputs_for g0 k)
        ∧ (∀ k, k ∉ keys → _connections g' !! k = _connections g !! k)
        ∧ name g' = name g ∧ graph_metadata g' = graph_metadata g.
Proof.
  intros Hnd Hnodes Hkeys Hwf. revert g Hnodes Hkeys.
  induction keys as [|k keys IH]; intros g Hnodes Hkeys.
  { exists g. split; [done|]. split; [done|]. split; [by intros ? ?%elem_of_nil|]. done. }
  apply NoDup_cons in Hnd as [Hk Hnd]. csimpl. unfold mbind, result_bind. simpl.
  destruct (Hkeys k) as [Hnode Hnone]; [left|].
  assert (Hports : NoDup (inputs_for g0 k).*1
                   ∧ ∀ port connection, (port, connection) ∈ inputs_for g0 k →
                                        is_Some (nodes g0 !! source_node connection)).
  { unfold inputs_for. destruct (_connections g0 !! k) as [ports|] eqn:Hp; simpl.
    - by apply (Hwf k).
    - split; [constructor|]. by intros ? ? ?%elem_of_nil. }
  destruct Hports as [Hpnd Hpsrc].
  destruct (connect_ports_of_node k (inputs_for g0 k) g)
    as (g1 & -> & Hn1 & Hin1 & Hother1 & Hname1 & Hmd1).
  { by rewrite Hnodes. }
  { intros p c Hpc. rewrite Hnodes. by apply (Hpsrc p c). }
  { unfold inputs_for at 1. by rewrite Hnone. }
  destruct (IH Hnd g1) as (g' & -> & Hn & Hin & Hother & Hname & Hmd).
  { by rewrite Hn1. }
  { intros k' Hk'. destruct (Hkeys k') as [? ?]; [by right|]. split; [done|].
    rewrite Hother1; [done|]. intros ->. done. }
  exists g'. split; [done|]. split; [done|]. split; [|split].
  - intros k' [->|Hk']%elem_of_cons; [|by apply Hin].
    unfold inputs_for at 1. rewrite (Hother k Hk). fold (inputs_for g1 k).
    rewrite Hin1. unfold inputs_for at 1. by rewrite Hnone.
  - intros k' [Hne Hk']%not_elem_of_cons. rewrite Hother by done. by apply Hother1.
  - by rewrite Hname, Hmd.
Qed.

(** X8.  A well-formed graph is read back from what [_graph_to_dict]
    writes without error, with the same name, metadata and nodes and, for
    every node, the same connections port by port, in the same order. *)
Lemma graph_round_trip g :
  well_formed g →
  ∃ g', _graph_from_dict (_graph_to_dict g) = Ok g'
        ∧ name g' = name g
        ∧ graph_metadata g' = graph_metadata g
        ∧ nodes g' = nodes g
        ∧ ∀ k, inputs_for g' k = inputs_for g k.
Proof.
  intros [Hkeys Hconns]. unfold _graph_from_dict, _graph_to_dict.
  cbn [as_dict mbind result_bind]. 
  change (od_get "name" _) with (Some (PStr (name g))).
  change (od_get "metadata" _) with (Some (PDict (graph_metadata g))).
  change (od_get "nodes" _) with (Some (PList (node_to_dict <$> (map_to_list (nodes g)).*2))).
  match goal with
  | |- context [od_get "connections" (?a :: ?b :: ?c :: ("connections", ?v) :: [])] =>
      change (od_get "connections" (a :: b :: c :: ("connections", v) :: [])) with (Some v)
  end.
  cbn [id default as_str as_dict as_list mbind result_bind].
  destruct (add_nodes_from_dict (map_to_list (nodes g)) (Graph_init (name g) (graph_metadata g)))
    as (g1 & -> & Hin1 & Hout1 & Hc1 & Hname1 & Hmd1).
  { apply NoDup_fst_map_to_list. }
  { intros k node Hk%elem_of_map_to_list. split; [by apply Hkeys|done]. }
  assert (Hnodes1 : nodes g1 = nodes g).
  { apply map_eq. intros k. destruct (nodes g !! k) as [node|] eqn:Hk.
    - apply Hin1. by apply elem_of_map_to_list.
    - rewrite Hout1; [done|]. intros [[k' node] [-> Hin]]%list_elem_of_fmap.
      apply elem_of_map_to_list in Hin. simpl in Hk. congruence. }
  cbn [mbind result_bind].
  destruct (connect_all_from_dict g (map_to_list (nodes g)).*1 g1)
    as (g' & -> & Hn & Hin & Hother & Hname & Hmd).
  { apply NoDup_fst_map_to_list. }
  { done. }
  { intros k [[k' node] [-> Hk]]%list_elem_of_fmap. apply elem_of_map_to_list in Hk.
    split; [eauto|]. by rewrite Hc1. }
  { intros target ports Hp. by destruct (Hconns target ports Hp) as (_ & ? & ?). }
  exists g'. split; [done|]. split; [by rewrite Hname, Hname1|].
  split; [by rewrite Hmd, Hmd1|]. split; [done|].
  intros k. destruct (decide (k ∈ (map_to_list (nodes g)).*1)) as [Hk|Hk]; [by apply Hin|].
  unfold inputs_for. rewrite Hother, Hc1 by done. simpl.
  destruct (_connections g !! k) as [ports|] eqn:Hp; [|done].
  destruct (Hconns k ports Hp) as ([node Hnode] & _). destruct Hk.
  apply list_elem_of_fmap. exists (k, node). split; [done|]. by apply elem_of_map_to_list.
Qed.

(** C8.  [remove_node] raises [GraphError] for a key that names no node.
    Otherwise the node, the connections that end at it and its entry in
    the dependents index are gone.  But [mark_dirty] is called after the
    node is removed, where it does nothing: a node that [evaluate] has left
    clean is not in the dirty set after its removal.  And after the
    mutations of C5 the removal of the source leaves the connection that
    starts from it. *)
Theorem remove_node_leaves_key_clean :
  (∀ node_key g,
     has_node g node_key = false →
     remove_node node_key g
     = Raise (GraphError ("Node '" +:+ node_key +:+ "' does not exist")))
  ∧ (∀ node_key g g',
       remove_node node_key g = Ok g' →
       has_node g' node_key = false
       ∧ inputs_for g' node_key = []
       ∧ dependents_of g' node_key = ∅
       ∧ mark_dirty node_key g' = g')
  ∧ has_node evaluated_graph "a" = true
  ∧ dirty evaluated_graph = ∅
  ∧ dirty <$> mutate evaluated_graph (RemoveNode "a") = Ok ∅
  ∧ mutate_all dangling_mutations (Graph_init "g" []) = Ok (graph_of dangling_mutations)
  ∧ has_node (graph_of dangling_mutations) "a" = false
  ∧ inputs_for (graph_of dangling_mutations) "b" = [("rhs", mkConnection "a" "output")].
Proof.
  split; [|split].
  - intros node_key g Hnode. unfold remove_node. by rewrite Hnode.
  - intros node_key g g'. unfold remove_node.
    destruct (has_node g node_key); [|done]. simpl. intros [= <-].
    assert (Hgone : ∀ h, has_node (set_connections (delete node_key)
                                     (set_nodes (delete node_key) h)) node_key = false).
    { intros h. unfold has_node. simpl. apply bool_decide_eq_false_2.
      rewrite lookup_delete_eq. by intros [? ?]. }
    unfold mark_dirty. rewrite !Hgone.
    unfold inputs_for, dependents_of. simpl. by rewrite !lookup_delete_eq.
  - vm_compute. repeat split; reflexivity.
Qed.

(** C9.  The graph that the mutations of C5 and the removal of the source
    leave has a connection whose source is no node; [_graph_to_dict] writes
    that connection, and [_graph_from_dict] raises [GraphError] on it. *)
Theorem round_trip_dangling_source :
  mutate_all dangling_mutations (Graph_init "g" []) = Ok (graph_of dangling_mutations)
  ∧ _graph_to_dict (graph_of dangling_mutations)
    = PDict [("name", PStr "g");
             ("metadata", PDict []);
             ("nodes", PList [PDict [("key", PStr "b"); ("type", PStr "math.add");
                                     ("title", PNone); ("parameters", PDict []);
                                     ("metadata", PDict [])]]);
             ("connections",
              PDict [("b", PDict [("rhs", PDict [("source_node", PStr "a");
                                                 ("source_port", PStr "output")])])])]
  ∧ _graph_from_dict (_graph_to_dict (graph_of dangling_mutations))
    = Raise (GraphError "Source node 'a' does not exist").
Proof. vm_compute. repeat split; reflexivity. Qed.

(** * Dictionaries in insertion order *)

Lemma od_get_Some_elem {V} k (v : V) (d : odict V) : od_get k d = Some v → (k, v) ∈ d.
Proof.
  induction d as [|[k' v'] d IH]; [done|]. simpl. case_decide.
  - intros [= ->]. subst. left.
  - intros ?. right. by apply IH.
Qed.

Lemma od_get_None {V} k (d : odict V) : od_get k d = None ↔ k ∉ d.*1.
Proof.
  induction d as [|[k' v'] d IH]; csimpl.
  - split; [by intros _ ?%elem_of_nil|done].
  - rewrite not_elem_of_cons. case_decide; [naive_solver|]. rewrite IH. naive_solver.
Qed.

Lemma od_get_elem {V} k (v : V) (d : odict V) :
  NoDup d.*1 → (k, v) ∈ d → od_get k d = Some v.
Proof.
  induction d as [|[k' v'] d IH]; [by intros _ ?%elem_of_nil|]. csimpl.
  intros [Hk Hnd]%NoDup_cons [[= -> ->]|Hin]%elem_of_cons.
  - by case_decide.
  - case_decide as Heq; [|by apply IH]. subst. destruct Hk.
    apply list_elem_of_fmap. by exists (k', v).
Qed.

Lemma od_get_set {V} k k' (v : V) (d : odict V) :
  od_get k' (od_set k v d) = if decide (k' = k) then Some v else od_get k' d.
Proof.
  induction d as [|[k0 v0] d IH]; simpl.
  - by case_decide.
  - destruct (decide (k = k0)) as [->|Hne]; simpl.
    + by repeat case_decide.
    + rewrite IH. repeat case_decide; congruence.
Qed.

Lemma od_get_del {V} k k' (d : odict V) :
  od_get k' (od_del k d) = if decide (k' = k) then None else od_get k' d.
Proof.
  induction d as [|[k0 v0] d IH]; simpl.
  - by case_decide.
  - destruct (decide (k = k0)) as [->|Hne]; simpl.
    + rewrite IH. repeat case_decide; congruence.
    + rewrite IH. repeat case_decide; congruence.
Qed.

Lemma od_set_keys {V} k (v : V) (d : odict V) :
  (od_set k v d).*1 = if decide (k ∈ d.*1) then d.*1 else d.*1 ++ [k].
Proof.
  induction d as [|[k0 v0] d IH].
  - by rewrite decide_False by apply not_elem_of_nil.
  - csimpl. destruct (decide (k = k0)) as [->|Hne]; csimpl.
    + rewrite decide_True by left. done.
    + rewrite IH. destruct (decide (k ∈ d.*1)).
      * rewrite decide_True by (by right). done.
      * rewrite decide_False; [done|]. by intros [?|?]%elem_of_cons.
Qed.

Lemma od_set_NoDup {V} k (v : V) (d : odict V) : NoDup d.*1 → NoDup (od_set k v d).*1.
Proof.
  intros Hnd. rewrite od_set_keys. case_decide; [done|].
  apply NoDup_app. split; [done|]. split; [|apply NoDup_singleton].
  intros x Hx ->%list_elem_of_singleton. done.
Qed.

Lemma od_del_elem {V} k (d : odict V) x : x ∈ od_del k d ↔ x ∈ d ∧ x.1 ≠ k.
Proof.
  induction d as [|[k0 v0] d IH]; simpl.
  - split; [by intros ?%elem_of_nil|by intros [?%elem_of_nil _]].
  - case_decide as Heq.
    + rewrite IH, elem_of_cons. subst. split; [naive_solver|].
      intros [[->|?] ?]; [done|]. done.
    + rewrite !elem_of_cons, IH. split; [|naive_solver].
      intros [->|[? ?]]; [|naive_solver]. split; [by left|]. simpl. congruence.
Qed.

Lemma od_del_filter {V} k (d : odict V) :
  od_del k d = filter (λ x, x.1 ≠ k) d.
Proof.
  induction d as [|[k0 v0] d IH]; [done|]. simpl. case_decide as Heq.
  - subst. rewrite filter_cons_False by (simpl; congruence). done.
  - rewrite filter_cons_True by (simpl; congruence). by rewrite IH.
Qed.

Lemma od_del_NoDup {V} k (d : odict V) : NoDup d.*1 → NoDup (od_del k d).*1.
Proof.
  induction d as [|[k0 v0] d IH]; [done|]. csimpl.
  intros [Hk Hnd]%NoDup_cons. case_decide; [by apply IH|]. csimpl.
  apply NoDup_cons. split; [|by apply IH].
  intros [[k1 v1] [-> [Hin _]%od_del_elem]]%list_elem_of_fmap. apply Hk.
  apply list_elem_of_fmap. by exists (k1, v1).
Qed.

Lemma od_del_fresh {V} k (d : odict V) : k ∉ d.*1 → od_del k d = d.
Proof.
  induction d as [|[k0 v0] d IH]; [done|]. csimpl.
  intros [Hne Hk]%not_elem_of_cons. case_decide; [done|]. by rewrite IH.
Qed.

Lemma od_del_set_fresh {V} k (v : V) (d : odict V) :
  k ∉ d.*1 → od_del k (od_set k v d) = d.
Proof.
  intros Hk. rewrite od_set_fresh by done. rewrite od_del_filter, filter_app.
  rewrite <- od_del_filter, od_del_fresh by done.
  rewrite filter_cons_False by (simpl; congruence). by rewrite app_nil_r.
Qed.

Lemma od_set_elem {V} k (v : V) (d : odict V) x :
  x ∈ od_set k v d → x ∈ d ∨ x = (k, v).
Proof.
  induction d as [|[k0 v0] d IH]; simpl.
  - intros ->%list_elem_of_singleton. by right.
  - case_decide.
    + intros [->|Hx]%elem_of_cons; [by right|]. left. by right.
    + intros [->|Hx]%elem_of_cons; [left; by left|].
      destruct (IH Hx) as [?|?]; [left; by right|by right].
Qed.

(** * The mutations of a graph, one by one *)

Lemma mark_dirty_dependents k g : _dependents (mark_dirty k g) = _dependents g.
Proof. unfold mark_dirty. by destruct (has_node g k). Qed.

Lemma mark_dirty_dirty k g :
  dirty (mark_dirty k g)
  = if has_node g k then dirty g ∪ {[k]} ∪ dependents_of g k else dirty g.
Proof. unfold mark_dirty. by destruct (has_node g k). Qed.

Lemma inputs_for_mark_dirty k g t : inputs_for (mark_dirty k g) t = inputs_for g t.
Proof. unfold inputs_for. by destruct (mark_dirty_fields k g) as (_ & -> & _). Qed.

Lemma dependents_of_mark_dirty k g s : dependents_of (mark_dirty k g) s = dependents_of g s.
Proof. unfold dependents_of. by rewrite mark_dirty_dependents. Qed.

(** X1.  [add_node] raises [GraphError] when the key is taken and changes
    nothing then; otherwise it stores the node under its key, leaves the
    connections and the dependents index alone, and marks the node dirty,
    together with the dependents that the index holds for its key. *)
Theorem add_node_spec node g :
  match add_node node g with
  | Raise e =>
      is_Some (nodes g !! key node)
      ∧ e = GraphError ("Node '" +:+ key node +:+ "' already exists")
  | Ok g' =>
      nodes g !! key node = None
      ∧ nodes g' = <[key node := node]> (nodes g)
      ∧ _connections g' = _connections g
      ∧ _dependents g' = _dependents g
      ∧ dirty g' = dirty g ∪ {[key node]} ∪ dependents_of g (key node)
  end.
Proof.
  unfold add_node. destruct (has_node g (key node)) eqn:Hnode.
  - split; [by apply has_node_true|done].
  - apply has_node_false in Hnode. split; [done|].
    set (g1 := set_nodes (insert (key node) node) g).
    destruct (mark_dirty_fields (key node) g1) as (-> & -> & _).
    rewrite mark_dirty_dependents, mark_dirty_dirty.
    assert (has_node g1 (key node) = true) as ->.
    { apply has_node_true. unfold g1. simpl. rewrite lookup_insert_eq. eauto. }
    done.
Qed.

Lemma connect_inputs source sport target tport g g' :
  connect source sport target tport g = Ok g' →
  is_Some (nodes g !! source) ∧ is_Some (nodes g !! target)
  ∧ nodes g' = nodes g
  ∧ (∀ k, inputs_for g' k
          = if decide (k = target)
            then od_set tport (mkConnection source sport) (inputs_for g target)
            else inputs_for g k)
  ∧ (∀ k, dependents_of g' k
          = if decide (k = source) then dependents_of g source ∪ {[target]}
            else dependents_of g k)
  ∧ dirty g' = dirty g ∪ {[target]} ∪ dependents_of g' target.
Proof.
  unfold connect. destruct (has_node g source) eqn:Hs; [|done].
  destruct (has_node g target) eqn:Ht; [|done]. simpl. intros [= <-].
  apply has_node_true in Hs. pose proof Ht as Ht'%has_node_true.
  split; [done|]. split; [done|].
  match goal with
  | |- context [mark_dirty ?k ?h] => set (g2 := h)
  end.
  destruct (mark_dirty_fields target g2) as (-> & _).
  split; [done|]. split; [|split].
  - intros k. rewrite inputs_for_mark_dirty. unfold inputs_for, g2. simpl.
    case_decide as Hk; [subst; by rewrite lookup_insert_eq|by rewrite lookup_insert_ne].
  - intros k. rewrite dependents_of_mark_dirty. unfold dependents_of, g2. simpl.
    case_decide as Hk; [subst; by rewrite lookup_insert_eq|by rewrite lookup_insert_ne].
  - rewrite mark_dirty_dirty, dependents_of_mark_dirty.
    assert (has_node g2 target = true) as -> by done. done.
Qed.

(** X2.  [connect] refuses an unknown source, then an unknown target, with
    [GraphError].  Otherwise the nodes stay as they are; the port of the
    target gets the connection, in place of the one it had, if any, so
    that no port is listed twice, and every other port is as before; the
    target joins the dependents of the source; and the target and its
    dependents are marked dirty. *)
Theorem connect_spec source sport target tport g :
  match connect source sport target tport g with
  | Raise e =>
      (nodes g !! source = None
       ∧ e = GraphError ("Source node '" +:+ source +:+ "' does not exist"))
      ∨ (is_Some (nodes g !! source) ∧ nodes g !! target = None
         ∧ e = GraphError ("Target node '" +:+ target +:+ "' does not exist"))
  | Ok g' =>
      is_Some (nodes g !! source) ∧ is_Some (nodes g !! target)
      ∧ nodes g' = nodes g
      ∧ (∀ k port,
           od_get port (inputs_for g' k)
           = if decide (k = target ∧ port = tport) then Some (mkConnection source sport)
             else od_get port (inputs_for g k))
      ∧ (inputs_for g' target).*1
        = (if decide (tport ∈ (inputs_for g target).*1) then (inputs_for g target).*1
           else (inputs_for g target).*1 ++ [tport])
      ∧ (∀ k, dependents_of g' k
              = if decide (k = source) then dependents_of g source ∪ {[target]}
                else dependents_of g k)
      ∧ dirty g' = dirty g ∪ {[target]} ∪ dependents_of g' target
  end.
Proof.
  destruct (connect source sport target tport g) as [g'|e] eqn:Hc.
  - apply connect_inputs in Hc as (Hs & Ht & Hn & Hin & Hdep & Hdirty).
    split; [done|]. split; [done|]. split; [done|]. split; [|split; [|split]].
    + intros k port. rewrite Hin. destruct (decide (k = target)) as [->|Hk].
      * rewrite od_get_set. repeat case_decide; naive_solver.
      * rewrite decide_False by naive_solver. done.
    + rewrite Hin, decide_True by done. apply od_set_keys.
    + done.
    + done.
  - revert Hc. unfold connect. destruct (has_node g source) eqn:Hs; simpl.
    + destruct (has_node g target) eqn:Ht; simpl; [done|]. intros [= <-]. right.
      split; [by apply has_node_true|]. split; [by apply has_node_false|done].
    + intros [= <-]. left. split; [by apply has_node_false|done].
Qed.

Lemma disconnect_inputs node port connection g :
  od_get port (inputs_for g node) = Some connection →
  nodes (disconnect node port g) = nodes g
  ∧ (∀ k, inputs_for (disconnect node port g) k
          = if decide (k = node) then od_del port (inputs_for g node) else inputs_for g k)
  ∧ (∀ k, dependents_of (disconnect node port g) k
          = if decide (k = source_node connection) then dependents_of g k ∖ {[node]}
            else dependents_of g k)
  ∧ dirty (disconnect node port g)
    = if has_node g node
      then dirty g ∪ {[node]} ∪ dependents_of (disconnect node port g) node
      else dirty g.
Proof.
  intros Hport. unfold disconnect. rewrite Hport.
  match goal with
  | |- context [mark_dirty ?k ?h] => set (g3 := h)
  end.
  assert (Hn3 : nodes g3 = nodes g).
  { unfold g3. simpl. by case_decide. }
  assert (Hin3 : ∀ k, inputs_for g3 k
                      = if decide (k = node) then od_del port (inputs_for g node)
                        else inputs_for g k).
  { intros k. unfold g3. simpl.
    match goal with
    | |- context [decide (inputs_for ?h node = [])] => set (g1 := h)
    end.
    assert (Hin1 : ∀ k, inputs_for g1 k
                        = if decide (k = node) then od_del port (inputs_for g node)
                          else inputs_for g k).
    { intros k'. unfold g1, inputs_for. simpl.
      case_decide; [subst; by rewrite lookup_insert_eq|by rewrite lookup_insert_ne]. }
    assert (Hset : ∀ h : Graph, inputs_for (set_dependents
              (λ d, <[source_node connection
                      := default ∅ (d !! source_node connection) ∖ {[node]}]> d) h) k
            = inputs_for h k) by done.
    rewrite Hset. destruct (decide (inputs_for g1 node = [])) as [He|He].
    - rewrite Hin1, decide_True in He by done.
      destruct (decide (k = node)) as [->|Hk].
      + unfold inputs_for at 1. simpl. by rewrite lookup_delete_eq, He.
      + transitivity (inputs_for g1 k).
        * unfold inputs_for. simpl. by rewrite lookup_delete_ne.
        * rewrite Hin1. by rewrite decide_False.
    - apply Hin1. }
  assert (Hdep3 : ∀ k, dependents_of g3 k
                       = if decide (k = source_node connection)
                         then dependents_of g k ∖ {[node]} else dependents_of g k).
  { intros k. unfold g3, dependents_of. cbn [_dependents set_dependents].
    match goal with
    | |- context [_dependents (if ?c then ?a else ?b)] =>
        assert (_dependents (if c then a else b) = _dependents g) as -> by by destruct c
    end.
    case_decide as Hk.
    - subst. by rewrite lookup_insert_eq.
    - by rewrite lookup_insert_ne. }
  destruct (mark_dirty_fields node g3) as (-> & _).
  split; [done|]. split; [|split].
  - intros k. by rewrite inputs_for_mark_dirty.
  - intros k. by rewrite dependents_of_mark_dirty.
  - rewrite mark_dirty_dirty, dependents_of_mark_dirty.
    assert (has_node g3 node = has_node g node) as ->.
    { unfold has_node. by rewrite Hn3. }
    assert (dirty g3 = dirty g) as ->.
    { unfold g3. simpl. by case_decide. }
    done.
Qed.

(** X3.  [disconnect] on a port without connection returns the graph as it
    is, dirty set included.  Otherwise the nodes stay as they are; that
    port loses its connection and every other port keeps its own; the
    node leaves the dependents of the source of the connection, whatever
    its other ports say; and the node, if it exists, is marked dirty with
    its dependents. *)
Theorem disconnect_spec node port g :
  match od_get port (inputs_for g node) with
  | None => disconnect node port g = g
  | Some connection =>
      nodes (disconnect node port g) = nodes g
      ∧ (∀ k p,
           od_get p (inputs_for (disconnect node port g) k)
           = if decide (k = node ∧ p = port) then None
             else od_get p (inputs_for g k))
      ∧ (∀ k, dependents_of (disconnect node port g) k
              = if decide (k = source_node connection) then dependents_of g k ∖ {[node]}
                else dependents_of g k)
      ∧ dirty (disconnect node port g)
        = (if has_node g node
           then dirty g ∪ {[node]} ∪ dependents_of (disconnect node port g) node
           else dirty g)
  end.
Proof.
  destruct (od_get port (inputs_for g node)) as [connection|] eqn:Hport.
  - destruct (disconnect_inputs node port connection g Hport) as (Hn & Hin & Hdep & Hdirty).
    split; [done|]. split; [|done].
    intros k p. rewrite Hin. destruct (decide (k = node)) as [->|Hk].
    + rewrite od_get_del. repeat case_decide; naive_solver.
    + rewrite decide_False by naive_solver. done.
  - unfold disconnect. by rewrite Hport.
Qed.

(** X4.  Connecting a port that has no connection and disconnecting it
    again gives back the connections that the graph had. *)
Theorem connect_disconnect source sport target tport g g' :
  od_get tport (inputs_for g target) = None →
  connect source sport target tport g = Ok g' →
  ∀ k, inputs_for (disconnect target tport g') k = inputs_for g k.
Proof.
  intros Hfree Hc k. apply connect_inputs in Hc as (_ & _ & _ & Hin & _).
  destruct (disconnect_inputs target tport (mkConnection source sport) g') as (_ & Hin' & _).
  { rewrite Hin, decide_True by done. rewrite od_get_set. by rewrite decide_True. }
  rewrite Hin'. case_decide as Hk.
  - subst. rewrite Hin, decide_True by done. apply od_del_set_fresh. by apply od_get_None.
  - rewrite Hin. by rewrite decide_False.
Qed.

Lemma connect_disconnect_witness :
  od_get "lhs" (inputs_for example_graph_unconnected "mul") = None
  ∧ connect "add" "output" "mul" "lhs" example_graph_unconnected = Ok example_graph
  ∧ ∀ k, inputs_for (disconnect "mul" "lhs" example_graph) k
         = inputs_for example_graph_unconnected k.
Proof.
  assert (H1 : od_get "lhs" (inputs_for example_graph_unconnected "mul") = None)
    by (vm_compute; reflexivity).
  assert (H2 : connect "add" "output" "mul" "lhs" example_graph_unconnected
               = Ok example_graph)
    by (vm_compute; reflexivity).
  split; [exact H1|]. split; [exact H2|].
  exact (connect_disconnect "add" "output" "mul" "lhs" example_graph_unconnected
           example_graph H1 H2).
Defined.

(** * Removing a node *)

Lemma filter_ext_in {A} (P Q : A → Prop) `{!∀ x, Decision (P x)} `{!∀ x, Decision (Q x)}
    (l : list A) :
  (∀ x, x ∈ l → P x ↔ Q x) → filter P l = filter Q l.
Proof.
  induction l as [|x l IH]; [done|]. intros Hext.
  rewrite !filter_cons. rewrite IH by (intros y Hy; apply Hext; by right).
  destruct (decide (P x)) as [HP|HP], (decide (Q x)) as [HQ|HQ]; try done.
  - destruct HQ. apply Hext; [by left|done].
  - destruct HP. apply Hext; [by left|done].
Qed.

Lemma drop_ports_filter k items d :
  drop_ports k items d
  = filter (λ x, Forall (λ item, ¬ (source_node item.2 = k ∧ item.1 = x.1)) items) d.
Proof.
  unfold drop_ports. revert d. induction items as [|item items IH]; intros d; simpl.
  - symmetry. apply filter_all. apply Forall_forall. intros x _. constructor.
  - rewrite IH. case_decide as Hsrc.
    + rewrite od_del_filter, list_filter_filter. apply filter_ext_in. intros x _.
      rewrite Forall_cons. naive_solver.
    + apply filter_ext_in. intros x _. rewrite Forall_cons. naive_solver.
Qed.

Lemma drop_ports_self k d :
  NoDup d.*1 → drop_ports k d d = filter (λ x, source_node x.2 ≠ k) d.
Proof.
  intros Hnd. rewrite drop_ports_filter. apply filter_ext_in. intros [p c] Hx.
  rewrite Forall_forall. split.
  - intros Hall Hsrc. by apply (Hall (p, c)).
  - intros Hsrc [p' c'] Hitem [Hk Hp]. simpl in *. subst p'.
    by rewrite (NoDup_fst_unique d p c c') in Hsrc.
Qed.

Lemma remove_node_port_fold k t items g :
  let g' := foldl (remove_node_port k t) g items in
  nodes g' = nodes g
  ∧ _dependents g' = _dependents g
  ∧ (∀ t', inputs_for g' t'
           = if decide (t' = t) then drop_ports k items (inputs_for g t)
             else inputs_for g t')
  ∧ dirty g'
    = if decide (Exists (λ item, source_node item.2 = k) items)
      then dirty (mark_dirty t g) else dirty g.
Proof.
  revert g. induction items as [|item items IH]; intros g; cbn zeta; cbn [foldl].
  - split; [done|]. split; [done|]. split; [intros t'; unfold drop_ports; simpl; case_decide; by subst|].
    rewrite decide_False; [done|]. by intros ?%Exists_nil.
  - unfold remove_node_port at 2 4 6 8. destruct (decide (source_node item.2 = k)) as [Hsrc|Hsrc].
    + set (g0 := set_connections _ g).
      destruct (IH (mark_dirty t g0)) as (Hn & Hd & Hin & Hdirty).
      destruct (mark_dirty_fields t g0) as (Hn1 & _). change (nodes g0) with (nodes g) in Hn1.
      split; [by rewrite Hn, Hn1|]. split; [by rewrite Hd, mark_dirty_dependents|].
      split.
      * intros t'. rewrite Hin, !inputs_for_mark_dirty. unfold drop_ports. simpl.
        rewrite (decide_True _ _ Hsrc). unfold inputs_for, g0. simpl.
        destruct (decide (t' = t)) as [->|Hne];
          [by rewrite lookup_insert_eq|by rewrite lookup_insert_ne].
      * rewrite Hdirty.
        destruct (decide (Exists _ (item :: items))) as [_|Hex]; [|destruct Hex; by left].
        assert (Hg0 : dirty (mark_dirty t g0) = dirty (mark_dirty t g)).
        { rewrite !mark_dirty_dirty. done. }
        case_decide; [|done]. rewrite <- Hg0.
        rewrite (mark_dirty_dirty t (mark_dirty t g0)).
        assert (has_node (mark_dirty t g0) t = has_node g0 t) as ->.
        { unfold has_node. by rewrite Hn1. }
        rewrite dependents_of_mark_dirty, mark_dirty_dirty.
        destruct (has_node g0 t); [|done]. apply set_eq. set_solver.
    + destruct (IH g) as (Hn & Hd & Hin & Hdirty).
      split; [done|]. split; [done|]. split.
      * intros t'. rewrite Hin. unfold drop_ports. simpl.
        by rewrite (decide_False _ _ Hsrc).
      * rewrite Hdirty. apply decide_ext. rewrite Exists_cons. naive_solver.
Qed.

Lemma remove_node_target_fields k g t :
  NoDup (inputs_for g t).*1 →
  let g' := remove_node_target k g t in
  nodes g' = nodes g
  ∧ (∀ s, dependents_of g' s
          = if decide (s = k) then dependents_of g k ∖ {[t]} else dependents_of g s)
  ∧ (∀ t', inputs_for g' t'
           = if decide (t' = t) then filter (λ x, source_node x.2 ≠ k) (inputs_for g t)
             else inputs_for g t')
  ∧ dirty g'
    = if decide (Exists (λ item, source_node item.2 = k) (inputs_for g t))
      then dirty (mark_dirty t g) else dirty g.
Proof.
  intros Hnd. cbn zeta. unfold remove_node_target.
  destruct (remove_node_port_fold k t (inputs_for g t) g) as (Hn & Hd & Hin & Hdirty).
  set (g1 := foldl (remove_node_port k t) g (inputs_for g t)) in *.
  set (g2 := if decide (inputs_for g1 t = []) then set_connections (delete t) g1 else g1).
  assert (Hn2 : nodes g2 = nodes g) by (unfold g2; by destruct (decide (inputs_for g1 t = []))).
  assert (Hd2 : _dependents g2 = _dependents g) by (unfold g2; by destruct (decide (inputs_for g1 t = []))).
  assert (Hdirty2 : dirty g2 = dirty g1) by (unfold g2; by destruct (decide (inputs_for g1 t = []))).
  assert (Hin2 : ∀ t', inputs_for g2 t' = inputs_for g1 t').
  { intros t'. unfold g2. destruct (decide (inputs_for g1 t = [])) as [He|He]; [|done].
    unfold inputs_for at 1. simpl. destruct (decide (t' = t)) as [->|Hne].
    - by rewrite lookup_delete_eq, He.
    - by rewrite lookup_delete_ne. }
  split; [done|]. split; [|split].
  - intros s. unfold dependents_of. simpl. rewrite Hd2.
    destruct (decide (s = k)) as [->|Hne];
      [by rewrite lookup_insert_eq|by rewrite lookup_insert_ne].
  - intros t'. change (inputs_for (set_dependents _ g2) t') with (inputs_for g2 t').
    rewrite Hin2, Hin. by rewrite drop_ports_self.
  - change (dirty (set_dependents _ g2)) with (dirty g2). by rewrite Hdirty2.
Qed.

Lemma Exists_source_filter k (d : odict Connection) :
  ¬ Exists (λ item, source_node item.2 = k) (filter (λ x, source_node x.2 ≠ k) d).
Proof.
  intros (x & [Hne _]%list_elem_of_filter & Heq)%Exists_exists. done.
Qed.

Lemma filter_source_idemp k (d : odict Connection) :
  filter (λ x : string * Connection, source_node x.2 ≠ k)
         (filter (λ x, source_node x.2 ≠ k) d)
  = filter (λ x, source_node x.2 ≠ k) d.
Proof.
  apply filter_all, Forall_forall. by intros x [? _]%list_elem_of_filter.
Qed.

Lemma filter_keys_NoDup {V} (P : string * V → Prop) `{!∀ x, Decision (P x)} (d : odict V) :
  NoDup d.*1 → NoDup (filter P d).*1.
Proof.
  induction d as [|[k0 v0] d IH]; [done|]. csimpl. intros [Hk Hnd]%NoDup_cons.
  rewrite filter_cons. destruct (decide (P (k0, v0))); [|by apply IH]. csimpl.
  apply NoDup_cons. split; [|by apply IH].
  intros [[k1 v1] [-> [_ Hin]%list_elem_of_filter]]%list_elem_of_fmap.
  apply Hk, list_elem_of_fmap. by exists (k1, v1).
Qed.

(** The group of nodes that [remove_node] marks dirty: the dependents of
    the removed node that exist and have a connection from it. *)
Lemma remove_node_targets_fields k ts g :
  ports_unique g →
  let g' := foldl (remove_node_target k) g ts in
  nodes g' = nodes g
  ∧ ports_unique g'
  ∧ (∀ s, dependents_of g' s
          = if decide (s = k) then dependents_of g k ∖ list_to_set ts
            else dependents_of g s)
  ∧ (∀ t', inputs_for g' t'
           = if decide (t' ∈ ts) then filter (λ x, source_node x.2 ≠ k) (inputs_for g t')
             else inputs_for g t')
  ∧ dirty g ⊆ dirty g'
  ∧ (∀ t, t ∈ ts → is_Some (nodes g !! t) →
          Exists (λ item, source_node item.2 = k) (inputs_for g t) →
          t ∈ dirty g' ∧ (t ≠ k → dependents_of g t ⊆ dirty g'))
  ∧ (∀ x, x ∈ dirty g' →
          x ∈ dirty g
          ∨ ∃ t, t ∈ ts ∧ is_Some (nodes g !! t)
                 ∧ Exists (λ item, source_node item.2 = k) (inputs_for g t)
                 ∧ (x = t ∨ x ∈ dependents_of g t)).
Proof.
  revert g. induction ts as [|t ts IH]; intros g Hu; cbn zeta; cbn [foldl].
  - split; [done|]. split; [done|]. split.
    { intros s. destruct (decide (s = k)) as [->|Hne]; [set_solver|done]. }
    split. { intros t'. rewrite decide_False; [done|apply not_elem_of_nil]. }
    split; [done|]. split; [by intros t ?%elem_of_nil|]. intros x Hx. by left.
  - destruct (remove_node_target_fields k g t (Hu t)) as (Hn1 & Hd1 & Hin1 & Hdirty1).
    set (g1 := remove_node_target k g t) in *.
    assert (Hu1 : ports_unique g1).
    { intros t'. rewrite Hin1. destruct (decide (t' = t)); [|apply Hu]. apply filter_keys_NoDup, Hu. }
    destruct (IH g1 Hu1) as (Hn & Hu' & Hd & Hin & Hsub & Hlow & Hup).
    assert (Hmono : dirty g ⊆ dirty g1).
    { rewrite Hdirty1. destruct (decide (Exists _ (inputs_for g t))); [|done]. rewrite mark_dirty_dirty.
      destruct (has_node g t); set_solver. }
    split; [by rewrite Hn|]. split; [done|]. split; [|split; [|split; [|split]]].
    + intros s. rewrite Hd, !Hd1. destruct (decide (s = k)) as [->|Hne].
      * rewrite decide_True by done. set_solver.
      * done.
    + intros t'. rewrite Hin, !Hin1. destruct (decide (t' = t)) as [->|Hne].
      * rewrite (decide_True (P := t ∈ t :: ts)) by (by left).
        destruct (decide (t ∈ ts)); [apply filter_source_idemp|done].
      * destruct (decide (t' ∈ ts)) as [Hts|Hts].
        -- rewrite decide_True by (by right). done.
        -- rewrite decide_False; [done|]. by intros [?|?]%elem_of_cons.
    + set_solver.
    + intros t' Hin' Hnode Hex. destruct (decide (t' = t)) as [->|Hne].
      * assert (Ht : {[t]} ∪ dependents_of g t ⊆ dirty g1).
        { rewrite Hdirty1, decide_True by done. rewrite mark_dirty_dirty.
          apply has_node_true in Hnode. rewrite Hnode. set_solver. }
        split; [set_solver|]. intros _. set_solver.
      * apply elem_of_cons in Hin' as [?|Hin']; [done|].
        destruct (Hlow t' Hin') as [Ht1 Ht2].
        { by rewrite Hn1. }
        { rewrite Hin1. by rewrite decide_False. }
        split; [done|]. intros Hk. specialize (Ht2 Hk).
        rewrite Hd1 in Ht2. by rewrite decide_False in Ht2.
    + intros x [Hx|(t' & Hts & Hnode & Hex & Hx)]%Hup.
      * rewrite Hdirty1 in Hx. destruct (decide (Exists _ (inputs_for g t))) as [Hex|Hex]; [|by left].
        rewrite mark_dirty_dirty in Hx. destruct (has_node g t) eqn:Hnode; [|by left].
        apply has_node_true in Hnode.
        apply elem_of_union in Hx as [[Hx|Hx]%elem_of_union|Hx]; [by left|..].
        -- right. exists t. split; [by left|]. split; [done|]. split; [done|].
           left. set_solver.
        -- right. exists t. split; [by left|]. split; [done|]. split; [done|].
           by right.
      * right. exists t'. split; [by right|]. rewrite Hn1 in Hnode. split; [done|].
        split.
        -- rewrite Hin1 in Hex. destruct (decide (t' = t)) as [->|Hne]; [|done].
           by apply Exists_source_filter in Hex.
        -- destruct Hx as [Hx|Hx]; [by left|]. right. rewrite Hd1 in Hx.
           destruct (decide (t' = k)) as [->|Hne]; [|done]. set_solver.
Qed.

(** X5.  [remove_node] raises [GraphError] for an unknown key.  Otherwise
    the node is gone with its own connections and its entry of the
    dependents index; each node that the index lists as a dependent loses
    its connections from the removed node and keeps the others, in order;
    the connections of every other node are as before, whatever their
    source; nothing leaves the dirty set; and what joins it are the
    dependents that exist and had such a connection, with their own
    dependents. *)
Theorem remove_node_spec node_key g :
  ports_unique g →
  match remove_node node_key g with
  | Raise e =>
      nodes g !! node_key = None
      ∧ e = GraphError ("Node '" +:+ node_key +:+ "' does not exist")
  | Ok g' =>
      is_Some (nodes g !! node_key)
      ∧ nodes g' = delete node_key (nodes g)
      ∧ (∀ t, inputs_for g' t
              = if decide (t = node_key) then []
                else if decide (t ∈ dependents_of g node_key)
                then filter (λ x, source_node x.2 ≠ node_key) (inputs_for g t)
                else inputs_for g t)
      ∧ (∀ s, dependents_of g' s
              = if decide (s = node_key) then ∅ else dependents_of g s)
      ∧ dirty g ⊆ dirty g'
      ∧ (∀ t, rewired node_key g t →
              t ∈ dirty g' ∧ (t ≠ node_key → dependents_of g t ⊆ dirty g'))
      ∧ (∀ x, x ∈ dirty g' →
              x ∈ dirty g
              ∨ ∃ t, rewired node_key g t ∧ (x = t ∨ x ∈ dependents_of g t))
  end.
Proof.
  intros Hu. unfold remove_node. destruct (has_node g node_key) eqn:Hnode; simpl.
  2: { split; [by apply has_node_false|done]. }
  apply has_node_true in Hnode. split; [done|].
  destruct (remove_node_targets_fields node_key (elements (dependents_of g node_key)) g Hu)
    as (Hn & _ & Hd & Hin & Hsub & Hlow & Hup).
  set (g1 := foldl (remove_node_target node_key) g (elements (dependents_of g node_key))) in *.
  set (g4 := set_connections _ _).
  assert (Hn4 : nodes g4 = delete node_key (nodes g)) by (unfold g4; simpl; by rewrite Hn).
  assert (Hgone : has_node g4 node_key = false).
  { apply has_node_false. by rewrite Hn4, lookup_delete_eq. }
  assert (Hm : mark_dirty node_key g4 = g4) by (unfold mark_dirty; by rewrite Hgone).
  rewrite Hm. split; [done|]. split; [|split; [|split; [|split]]].
  - intros t. unfold g4, inputs_for at 1. simpl.
    destruct (decide (t = node_key)) as [->|Hne]; [by rewrite lookup_delete_eq|].
    rewrite lookup_delete_ne by done. fold (inputs_for g1 t). rewrite Hin.
    destruct (decide (t ∈ dependents_of g node_key)) as [Ht|Ht].
    + rewrite decide_True; [done|]. by apply elem_of_elements.
    + rewrite decide_False; [done|]. by rewrite elem_of_elements.
  - intros s. unfold g4, dependents_of at 1. simpl.
    destruct (decide (s = node_key)) as [->|Hne]; [by rewrite lookup_delete_eq|].
    rewrite lookup_delete_ne by done. fold (dependents_of g1 s). rewrite Hd.
    by rewrite decide_False.
  - done.
  - intros t (Ht & Hnode' & Hex). apply Hlow; [by apply elem_of_elements|done..].
  - intros x [Hx|(t & Ht%elem_of_elements & Hnode' & Hex & Hx)]%Hup; [by left|].
    right. by exists t.
Qed.

Lemma ports_unique_checked g :
  map_Forall (λ _ ports, NoDup ports.*1) (_connections g) → ports_unique g.
Proof.
  intros Hall t. unfold inputs_for. destruct (_connections g !! t) as [ports|] eqn:Ht.
  - apply (Hall t ports Ht).
  - apply NoDup_nil_2.
Qed.

Lemma remove_node_spec_witness :
  ports_unique example_graph
  ∧ ∃ g', remove_node "add" example_graph = Ok g'
          ∧ inputs_for g' "mul" = [] ∧ "mul" ∈ dirty g'.
Proof.
  assert (Hu : ports_unique example_graph).
  { apply ports_unique_checked. apply (bool_decide_unpack _). vm_compute. done. }
  split; [done|]. pose proof (remove_node_spec "add" example_graph Hu) as Hspec.
  destruct (remove_node "add" example_graph) as [g'|e] eqn:Hr; [|by vm_compute in Hr].
  exists g'. split; [done|]. destruct Hspec as (_ & _ & Hin & _ & _ & Hlow & _).
  split.
  - rewrite Hin. vm_compute. reflexivity.
  - apply Hlow. split; [|split].
    + apply (bool_decide_unpack _). vm_compute. done.
    + vm_compute. eauto.
    + apply (bool_decide_unpack _). vm_compute. done.
Defined.

(** * Invariants of the graph operations *)

Lemma remove_node_port_fold_dom k t items g :
  dom (_connections (foldl (remove_node_port k t) g items)) ⊆ {[t]} ∪ dom (_connections g).
Proof.
  revert g. induction items as [|item items IH]; intros g; cbn [foldl]; [set_solver|].
  etrans; [apply IH|]. unfold remove_node_port.
  destruct (decide (source_node item.2 = k)); [|done].
  match goal with
  | |- context [mark_dirty ?a ?h] => destruct (mark_dirty_fields a h) as (_ & -> & _)
  end.
  simpl. rewrite dom_insert. set_solver.
Qed.

Lemma remove_node_target_dom k g t :
  dom (_connections (remove_node_target k g t)) ⊆ dom (_connections g).
Proof.
  unfold remove_node_target. cbn [_connections set_dependents].
  pose proof (remove_node_port_fold_dom k t (inputs_for g t) g) as Hdom.
  set (g1 := foldl (remove_node_port k t) g (inputs_for g t)) in *.
  assert (Ht : t ∈ dom (_connections g1) ∧ inputs_for g1 t ≠ [] → t ∈ dom (_connections g)).
  { intros [Hin _]. destruct (_connections g !! t) as [ports|] eqn:Hports.
    - apply elem_of_dom. eauto.
    - unfold g1, inputs_for in Hin. rewrite Hports in Hin. exact Hin. }
  destruct (decide (inputs_for g1 t = [])) as [He|He]; simpl.
  - rewrite dom_delete. set_solver.
  - intros x Hx. destruct (decide (x = t)) as [->|Hne]; [by apply Ht|].
    apply Hdom in Hx. set_solver.
Qed.

Lemma remove_node_targets_dom k ts g :
  dom (_connections (foldl (remove_node_target k) g ts)) ⊆ dom (_connections g).
Proof.
  revert g. induction ts as [|t ts IH]; intros g; cbn [foldl]; [done|].
  etrans; [apply IH|]. apply remove_node_target_dom.
Qed.

Lemma remove_node_inputs k g g' :
  ports_unique g →
  remove_node k g = Ok g' →
  is_Some (nodes g !! k)
  ∧ nodes g' = delete k (nodes g)
  ∧ dom (_connections g') ⊆ dom (_connections g) ∖ {[k]}
  ∧ ∀ t, inputs_for g' t
         = if decide (t = k) then []
           else if decide (t ∈ dependents_of g k)
           then filter (λ x, source_node x.2 ≠ k) (inputs_for g t)
           else inputs_for g t.
Proof.
  intros Hu. unfold remove_node. destruct (has_node g k) eqn:Hnode; [|done]. simpl.
  intros [= <-]. apply has_node_true in Hnode. split; [done|].
  destruct (remove_node_targets_fields k (elements (dependents_of g k)) g Hu)
    as (Hn & _ & _ & Hin & _).
  pose proof (remove_node_targets_dom k (elements (dependents_of g k)) g) as Hdom.
  set (g1 := foldl (remove_node_target k) g (elements (dependents_of g k))) in *.
  match goal with
  | |- context [mark_dirty ?a ?h] =>
      set (g4 := h); destruct (mark_dirty_fields a g4) as (Hn4 & Hc4 & _)
  end.
  split; [|split].
  - rewrite Hn4. unfold g4. simpl. by rewrite Hn.
  - rewrite Hc4. unfold g4. simpl. rewrite dom_delete. set_solver.
  - intros t. rewrite inputs_for_mark_dirty. unfold g4, inputs_for at 1. simpl.
    destruct (decide (t = k)) as [->|Hne]; [by rewrite lookup_delete_eq|].
    rewrite lookup_delete_ne by done. fold (inputs_for g1 t). rewrite Hin.
    destruct (decide (t ∈ dependents_of g k)) as [Ht|Ht].
    + rewrite decide_True; [done|]. by apply elem_of_elements.
    + rewrite decide_False; [done|]. by rewrite elem_of_elements.
Qed.

Lemma disconnect_dom node port g :
  dom (_connections (disconnect node port g)) ⊆ dom (_connections g).
Proof.
  unfold disconnect. destruct (od_get port (inputs_for g node)) as [c|] eqn:Hport; [|done].
  assert (Hnode : node ∈ dom (_connections g)).
  { unfold inputs_for in Hport. destruct (_connections g !! node) eqn:Hc; [|done].
    by apply elem_of_dom. }
  match goal with
  | |- context [mark_dirty ?a ?h] => destruct (mark_dirty_fields a h) as (_ & -> & _)
  end.
  cbn [_connections set_dependents].
  match goal with
  | |- context [if ?c then _ else _] => destruct c
  end; simpl; rewrite ?dom_delete, dom_insert; set_solver.
Qed.

Lemma inputs_for_is_Some g t ports :
  _connections g !! t = Some ports → inputs_for g t = ports.
Proof. unfold inputs_for. by intros ->. Qed.

Lemma inputs_for_nonempty g t : inputs_for g t ≠ [] → is_Some (_connections g !! t).
Proof. unfold inputs_for. destruct (_connections g !! t); [eauto|done]. Qed.

(** Each operation keeps the invariant. *)
Lemma mutate_inv m g g' : graph_inv g → mutate g m = Ok g' → graph_inv g'.
Proof.
  intros (Hkeys & Hconns & Hu). destruct m as [node|k|s sp t tp|node port|k|k]; simpl.
  - intros Hadd. unfold add_node in Hadd.
    destruct (has_node g (key node)) eqn:Hnode; [done|]. injection Hadd as <-.
    match goal with
    | |- context [mark_dirty ?a ?h] =>
        destruct (mark_dirty_fields a h) as (Hn & Hc & _)
    end.
    split; [|split].
    + intros k n. rewrite Hn. simpl. destruct (decide (k = key node)) as [->|Hne].
      * rewrite lookup_insert_eq. by intros [= <-].
      * rewrite lookup_insert_ne by done. apply Hkeys.
    + intros target. rewrite Hn, Hc. simpl. intros Ht%Hconns.
      destruct (decide (target = key node)) as [->|Hne].
      * rewrite lookup_insert_eq. eauto.
      * by rewrite lookup_insert_ne.
    + intros target. rewrite inputs_for_mark_dirty. apply Hu.
  - intros Hr. destruct (remove_node_inputs k g g' Hu Hr) as (_ & Hn & Hdom & Hin).
    split; [|split].
    + intros k' n. rewrite Hn. intros [_ Hl]%lookup_delete_Some. by apply Hkeys.
    + intros target Ht%elem_of_dom. apply Hdom in Ht.
      apply elem_of_difference in Ht as [Ht%elem_of_dom%Hconns Hne].
      rewrite Hn, lookup_delete_ne; [done|]. set_solver.
    + intros target. rewrite Hin. destruct (decide (target = k)); [apply NoDup_nil_2|].
      destruct (decide (target ∈ dependents_of g k)); [|apply Hu].
      apply filter_keys_NoDup, Hu.
  - intros Hc. apply connect_inputs in Hc as Hc'. destruct Hc' as (Hs & Ht & Hn & Hin & _).
    destruct (connect_existing s sp t tp g Hs Ht) as (g'' & Hc'' & _ & Hraw & _).
    rewrite Hc in Hc''. injection Hc'' as <-.
    split; [|split].
    + intros k n. rewrite Hn. apply Hkeys.
    + intros target. rewrite Hn, Hraw. destruct (decide (target = t)) as [->|Hne]; [done|].
      rewrite lookup_insert_ne by done. apply Hconns.
    + intros target. rewrite Hin. destruct (decide (target = t)); [|apply Hu].
      apply od_set_NoDup, Hu.
  - intros [= <-]. pose proof (disconnect_dom node port g) as Hdom.
    destruct (od_get port (inputs_for g node)) as [c|] eqn:Hport.
    + destruct (disconnect_inputs node port c g Hport) as (Hn & Hin & _).
      split; [|split].
      * intros k n. rewrite Hn. apply Hkeys.
      * intros target Ht%elem_of_dom. rewrite Hn. apply Hconns, elem_of_dom. set_solver.
      * intros target. rewrite Hin. destruct (decide (target = node)); [|apply Hu].
        apply od_del_NoDup, Hu.
    + unfold disconnect. by rewrite Hport.
  - intros [= <-]. destruct (mark_dirty_fields k g) as (Hn & Hc & _).
    split; [|split].
    + intros k' n. rewrite Hn. apply Hkeys.
    + intros target. rewrite Hn, Hc. apply Hconns.
    + intros target. rewrite inputs_for_mark_dirty. apply Hu.
  - by intros [= <-].
Qed.

Lemma mutate_all_inv ms g g' : graph_inv g → mutate_all ms g = Ok g' → graph_inv g'.
Proof.
  unfold mutate_all. revert g. induction ms as [|m ms IH]; intros g Hinv; simpl.
  - by intros [= <-].
  - destruct (mutate g m) as [g1|e] eqn:Hm; [|done]. simpl.
    apply IH. by apply (mutate_inv m g).
Qed.

Lemma Graph_init_inv nm md : graph_inv (Graph_init nm md).
Proof.
  split; [|split].
  - intros k node. simpl. by rewrite lookup_empty.
  - intros target. simpl. rewrite lookup_empty. by intros [? ?].
  - intros target. apply NoDup_nil_2.
Qed.

(** Without [remove_node], every connection keeps its source. *)
Lemma mutate_sources m g g' :
  is_removal m = false → sources_exist g → mutate g m = Ok g' → sources_exist g'.
Proof.
  intros Hm Hsrc. destruct m as [node|k|s sp t tp|node port|k|k]; simpl; [|done|..].
  - intros Hadd. unfold add_node in Hadd.
    destruct (has_node g (key node)) eqn:Hnode; [done|]. injection Hadd as <-.
    match goal with
    | |- context [mark_dirty ?a ?h] =>
        destruct (mark_dirty_fields a h) as (Hn & Hc & _)
    end.
    intros target item. rewrite inputs_for_mark_dirty, Hn. simpl.
    change (inputs_for (set_nodes _ g) target) with (inputs_for g target).
    intros Hitem%Hsrc. destruct (decide (source_node item.2 = key node)) as [->|Hne].
    + rewrite lookup_insert_eq. eauto.
    + by rewrite lookup_insert_ne.
  - intros Hc. apply connect_inputs in Hc as (Hs & Ht & Hn & Hin & _).
    intros target item. rewrite Hin, Hn. destruct (decide (target = t)) as [->|Hne].
    + intros [Hitem| ->]%od_set_elem; [by apply (Hsrc t)|done].
    + apply Hsrc.
  - intros [= <-]. destruct (od_get port (inputs_for g node)) as [c|] eqn:Hport.
    + destruct (disconnect_inputs node port c g Hport) as (Hn & Hin & _).
      intros target item. rewrite Hin, Hn. destruct (decide (target = node)) as [->|Hne].
      * intros [Hitem _]%od_del_elem. by apply (Hsrc node).
      * apply Hsrc.
    + unfold disconnect. by rewrite Hport.
  - intros [= <-]. destruct (mark_dirty_fields k g) as (Hn & _).
    intros target item. rewrite inputs_for_mark_dirty, Hn. apply Hsrc.
  - by intros [= <-].
Qed.

Lemma mutate_all_sources ms g g' :
  Forall (λ m, is_removal m = false) ms →
  sources_exist g → mutate_all ms g = Ok g' → sources_exist g'.
Proof.
  unfold mutate_all. intros Hms. revert g.
  induction Hms as [|m ms Hm _ IH]; intros g Hsrc; simpl.
  - by intros [= <-].
  - destruct (mutate g m) as [g1|e] eqn:Hg1; [|done]. simpl.
    apply IH. by apply (mutate_sources m g).
Qed.

(** X6.  Whatever sequence of [add_node], [remove_node], [connect],
    [disconnect], [mark_dirty] and [clear_dirty] builds a graph from an
    empty one without raising, every node of the graph is stored under its
    own key, connections are kept only for nodes that exist, and no node
    has two connections on one port. *)
Theorem built_graph_invariant ms nm md g :
  mutate_all ms (Graph_init nm md) = Ok g → graph_inv g.
Proof.
  unfold mutate_all. generalize (Graph_init_inv nm md). generalize (Graph_init nm md).
  induction ms as [|m ms IH]; intros g0 Hinv; simpl.
  - by intros [= <-].
  - destruct (mutate g0 m) as [g1|e] eqn:Hm; [|done]. simpl.
    apply IH. destruct m; by apply (mutate_inv _ g0 g1 Hinv Hm).
Qed.

Lemma built_graph_invariant_witness :
  mutate_all example_graph_mutations (Graph_init "test" []) = Ok example_graph
  ∧ graph_inv example_graph.
Proof.
  assert (H : mutate_all example_graph_mutations (Graph_init "test" []) = Ok example_graph)
    by (vm_compute; reflexivity).
  split; [exact H|]. exact (built_graph_invariant _ _ _ _ H).
Defined.

Lemma inv_sources_well_formed g : graph_inv g → sources_exist g → well_formed g.
Proof.
  intros (Hkeys & Hconns & Hu) Hsrc. split; [done|]. intros target ports Hports.
  pose proof (inputs_for_is_Some g target ports Hports) as Hin.
  split; [apply Hconns; eauto|]. split; [rewrite <- Hin; apply Hu|].
  intros port connection Hitem. apply (Hsrc target (port, connection)). by rewrite Hin.
Qed.

Lemma Graph_init_sources nm md : sources_exist (Graph_init nm md).
Proof.
  intros target item. unfold inputs_for. simpl. rewrite lookup_empty.
  by intros ?%elem_of_nil.
Qed.

(** X7.  A graph built from an empty one without [remove_node] is well
    formed: besides the invariants of every built graph, each of its
    connections starts from a node of the graph, so that
    [_graph_from_dict] accepts what [_graph_to_dict] writes for it. *)
Theorem built_without_removal_well_formed ms nm md g :
  Forall (λ m, is_removal m = false) ms →
  mutate_all ms (Graph_init nm md) = Ok g →
  well_formed g.
Proof.
  intros Hms Hbuilt. apply inv_sources_well_formed.
  - apply (mutate_all_inv ms (Graph_init nm md)); [apply Graph_init_inv|done].
  - apply (mutate_all_sources ms (Graph_init nm md)); [done|apply Graph_init_sources|done].
Qed.

Lemma built_without_removal_well_formed_witness :
  Forall (λ m, is_removal m = false) example_graph_mutations
  ∧ mutate_all example_graph_mutations (Graph_init "test" []) = Ok example_graph
  ∧ well_formed example_graph.
Proof.
  assert (H1 : Forall (λ m, is_removal m = false) example_graph_mutations)
    by (repeat constructor).
  assert (H2 : mutate_all example_graph_mutations (Graph_init "test" []) = Ok example_graph)
    by (vm_compute; reflexivity).
  split; [exact H1|]. split; [exact H2|].
  exact (built_without_removal_well_formed _ _ _ _ H1 H2).
Defined.

Lemma well_formed_checked g :
  map_Forall (λ k node, key node = k) (nodes g) →
  map_Forall (λ target ports,
                is_Some (nodes g !! target) ∧ NoDup ports.*1
                ∧ Forall (λ item, is_Some (nodes g !! source_node item.2)) ports)
             (_connections g) →
  well_formed g.
Proof.
  intros Hkeys Hconns. split; [exact Hkeys|]. intros target ports Hports.
  destruct (Hconns target ports Hports) as (Hnode & Hnd & Hsrc).
  split; [done|]. split; [done|]. intros port connection Hitem.
  rewrite Forall_forall in Hsrc. apply (Hsrc (port, connection) Hitem).
Qed.

Lemma graph_round_trip_witness :
  well_formed example_graph
  ∧ ∃ g', _graph_from_dict (_graph_to_dict example_graph) = Ok g'
          ∧ name g' = name example_graph
          ∧ graph_metadata g' = graph_metadata example_graph
          ∧ nodes g' = nodes example_graph
          ∧ ∀ k, inputs_for g' k = inputs_for example_graph k.
Proof.
  assert (Hwf : well_formed example_graph).
  { apply well_formed_checked; apply (bool_decide_unpack _); vm_compute; done. }
  split; [exact Hwf|]. exact (graph_round_trip example_graph Hwf).
Defined.

(** * When sorting fails *)

(** When [static_order] raises, the sorter has a cycle. *)
Lemma static_order_raise_cycle (sorter : TopologicalSorter) e :
  ts_closed sorter → static_order sorter = Raise e → ∃ c, tc (ts_pred sorter) c c.
Proof.
  intros Hclosed Hr. apply ts_loop_raise in Hr as (done & Hdom & Hnot & Hready).
  - apply (finite_descent_cycle (ts_pred sorter) (dom sorter ∖ done)).
    + intros x [Hx Hxd]%elem_of_difference.
      apply elem_of_dom in Hx as [ps Hps].
      destruct (decide (ps ∖ done = ∅)) as [Hempty|[p Hp]%set_choose_L].
      * assert (x ∈ ts_ready sorter done) as Hin.
        { apply elem_of_ts_ready. exists ps. split; [done|]. split; [done|]. set_solver. }
        rewrite Hready in Hin. by apply not_elem_of_nil in Hin.
      * exists p. apply elem_of_difference in Hp as [Hp Hpd]. split.
        -- apply elem_of_difference. split; [|done]. by eapply Hclosed.
        -- by exists ps.
    + intros Hempty. apply Hnot. set_solver.
  - set_solver.
  - rewrite difference_empty_L, size_dom. done.
Qed.

(** X9.  [topological_order] raises nothing but the [GraphError] of a
    cycle, and raises it exactly when a node that the targets need, or a
    target itself, is on a cycle of connections.  A cycle elsewhere in
    the graph does not disturb the sorting of the targets. *)
Theorem topological_order_raises limit_to g :
  (∀ e, topological_order limit_to g = Raise e → e = GraphError_cycle)
  ∧ (topological_order limit_to g = Raise GraphError_cycle
     ↔ ∃ n, in_closure g (target_nodes limit_to g) n ∧ tc (depends_on g) n n).
Proof.
  split.
  - intros e. unfold topological_order. destruct (_ && _); [done|].
    destruct (static_order _); [done|]. by intros [= <-].
  - split.
    + intros Hraise.
      destruct (decide (target_nodes limit_to g = ∅)) as [Hempty|[t Ht]%set_choose_L].
      { exfalso. revert Hraise. unfold topological_order, collect_dependencies.
        rewrite Hempty, elements_empty. simpl. destruct (_ && _); [done|].
        by vm_compute. }
      pose proof (target_nodes_in_all_keys g limit_to) as HU.
      rewrite topological_order_static in Hraise by eauto.
      destruct (static_order _) as [r|e] eqn:Hr; [done|].
      apply static_order_raise_cycle in Hr as [c Hc]; [|by apply ts_closed_collect].
      exists c. split; [|by apply (tc_collect_depends g _ c c HU)].
      assert (∃ p, ts_pred (collect_dependencies g (target_nodes limit_to g)).1 c p)
        as [p Hp] by (inversion Hc; eauto).
      by apply ts_pred_collect in Hp as [? _].
    + intros (n & Hn & Hcyc). by apply (topological_order_cycle g limit_to n).
Qed.

(** * What a pass of the scheduler changes *)

Section Pass.
Context `{Externals}.

Lemma evaluate_node_step reg context force progress total index k results w r w' :
  evaluate_node reg context force progress total index k results w = (r, w') →
  ∃ calls,
    handler_calls w' = handler_calls w ++ calls
    ∧ (calls = [] ∨ calls = [k])
    ∧ (∀ k', k' ∉ calls → cache_entry (w_cache w') k' = cache_entry (w_cache w) k')
    ∧ (enable_memoization context = false → w_cache w' = w_cache w)
    ∧ match r with
      | Ok results' =>
          w_graph w' = clear_dirty k (w_graph w)
          ∧ progress_calls w'
            = (if progress then progress_calls w ++ [(index, total, k)]
               else progress_calls w)
          ∧ (∃ outputs, results' = <[k := outputs]> results
                        ∧ (enable_memoization context = true →
                           cache_get (w_cache w') k = Some outputs))
          ∧ (force = true ∨ k ∈ dirty (w_graph w) → calls = [k])
      | Raise e => w_graph w' = w_graph w ∧ progress_calls w' = progress_calls w
      end.
Proof.
  unfold evaluate_node.
  destruct (nodes (w_graph w) !! k) as [node|] eqn:Hnode.
  2: { intros [= <- <-]. exists []. rewrite app_nil_r. eauto 10. }
  destruct (_collect_inputs _ _ _ _) as [input_values|] eqn:Hin.
  2: { intros [= <- <-]. exists []. rewrite app_nil_r. eauto 10. }
  destruct (_make_signature _ _) as [signature|] eqn:Hsign.
  2: { intros [= <- <-]. exists []. rewrite app_nil_r. eauto 10. }
  destruct (use_cache _ _ _ _ _ _) eqn:Huse.
  - unfold use_cache in Huse. rewrite !andb_true_iff in Huse.
    destruct Huse as [[[Hforce%negb_true_iff Hmemo] Hclean%bool_decide_eq_true] Hvalid].
    destruct (cache_get (w_cache w) k) as [outputs|] eqn:Hget.
    + unfold record_outputs. intros [= <- <-]. exists []. simpl. rewrite app_nil_r.
      split; [done|]. split; [by left|]. split; [done|]. split; [done|].
      split; [done|]. split; [done|]. split; [by exists outputs|].
      intros [->|Hdirty]; done.
    + intros [= <- <-]. exists []. rewrite app_nil_r. eauto 10.
  - unfold run_handler. destruct (registry_get reg (type node)) as [definition|].
    2: { intros [= <- <-]. exists []. rewrite app_nil_r. eauto 10. }
    destruct (handler definition _ _ _ _) as [[v|msg] env'].
    2: { intros [= <- <-]. exists [k]. simpl.
         split; [done|]. split; [by right|]. eauto. }
    assert (Hbad : ∀ e,
      (Raise e, mkWorld (w_graph w) (w_cache w) env' (handler_calls w ++ [k])
                        (progress_calls w)) = (r, w') →
      ∃ calls,
        handler_calls w' = handler_calls w ++ calls
        ∧ (calls = [] ∨ calls = [k])
        ∧ (∀ k', k' ∉ calls → cache_entry (w_cache w') k' = cache_entry (w_cache w) k')
        ∧ (enable_memoization context = false → w_cache w' = w_cache w)
        ∧ match r with
          | Ok results' =>
              w_graph w' = clear_dirty k (w_graph w)
              ∧ progress_calls w'
                = (if progress then progress_calls w ++ [(index, total, k)]
                   else progress_calls w)
              ∧ (∃ outputs, results' = <[k := outputs]> results
                            ∧ (enable_memoization context = true →
                               cache_get (w_cache w') k = Some outputs))
              ∧ (force = true ∨ k ∈ dirty (w_graph w) → calls = [k])
          | Raise e => w_graph w' = w_graph w ∧ progress_calls w' = progress_calls w
          end).
    { intros e [= <- <-]. exists [k]. simpl.
      split; [done|]. split; [by right|]. eauto. }
    destruct v as [| | | | |outputs| | | | | | |]; try by apply Hbad.
    unfold record_outputs. destruct (enable_memoization context) eqn:Hmemo; simpl.
    + intros [= <- <-]. exists [k]. simpl. split; [done|]. split; [by right|].
      split.
      { intros k' Hk'. unfold cache_entry, cache_store. simpl.
        rewrite !lookup_insert_ne by set_solver. done. }
      split; [done|]. split; [done|]. split; [done|]. split; [|done].
      exists outputs. split; [done|]. intros _. unfold cache_get. simpl.
      by rewrite lookup_insert_eq.
    + intros [= <- <-]. exists [k]. simpl. split; [done|]. split; [by right|].
      split; [done|]. split; [done|]. split; [done|]. split; [done|]. split; [|done].
      by exists outputs.
Qed.

Lemma same_topology_refl g : same_topology g g.
Proof. done. Qed.

Lemma same_topology_clear_dirty k g g' :
  same_topology g g' → same_topology g (clear_dirty k g').
Proof. done. Qed.

Lemma evaluate_loop_pass reg context force progress total order :
  ∀ index results w r w',
  evaluate_loop reg context force progress total index order results w = (r, w') →
  same_topology (w_graph w) (w_graph w')
  ∧ dirty (w_graph w') ⊆ dirty (w_graph w)
  ∧ (∃ reported, progress_calls w' = progress_calls w ++ reported
                 ∧ (progress = false → reported = []))
  ∧ ∃ calls,
      handler_calls w' = handler_calls w ++ calls
      ∧ sublist calls order
      ∧ (∀ k, k ∉ calls → cache_entry (w_cache w') k = cache_entry (w_cache w) k)
      ∧ (enable_memoization context = false → w_cache w' = w_cache w)
      ∧ match r with
        | Ok results' =>
            dirty (w_graph w') = dirty (w_graph w) ∖ list_to_set order
            ∧ progress_calls w'
              = progress_calls w
                ++ (if progress then progress_of total index order else [])
            ∧ (∀ k, k ∉ order → results' !! k = results !! k)
            ∧ (∀ k, k ∈ order →
                    is_Some (results' !! k)
                    ∧ (enable_memoization context = true →
                       results' !! k = cache_get (w_cache w') k))
            ∧ (∀ k, k ∈ order → force = true ∨ k ∈ dirty (w_graph w) → k ∈ calls)
            ∧ (force = true → calls = order)
        | Raise e => True
        end.
Proof.
  induction order as [|k order IH]; intros index results w r w'; cbn [evaluate_loop].
  - intros [= <- <-]. split; [done|]. split; [done|].
    split; [exists []; by rewrite app_nil_r|].
    exists []. rewrite app_nil_r. split; [done|]. split; [done|]. split; [done|].
    split; [done|]. split; [set_solver|]. split; [by destruct progress; rewrite app_nil_r|].
    split; [done|]. split; [by intros k ?%elem_of_nil|].
    split; [by intros k ?%elem_of_nil|]. done.
  - destruct (evaluate_node reg context force progress total index k results w)
      as [[results1|e] w1] eqn:Hstep.
    + apply evaluate_node_step in Hstep
        as (calls1 & Hcalls1 & Hshape & Hcache1 & Hoff1 & Hg1 & Hp1
            & (outputs & -> & Hstored) & Hrun).
      intros Hloop. apply IH in Hloop
        as (Htopo & Hsub & (reported & Hrep & Hquiet)
            & calls & Hcalls & Hsl & Hcache & Hoff & Hok).
      rewrite Hg1 in Htopo, Hsub.
      split; [done|]. split; [set_solver|]. split.
      { rewrite Hp1 in Hrep. destruct progress.
        - exists ((index, total, k) :: reported). split; [|done].
          by rewrite Hrep, <- app_assoc.
        - exists reported. done. }
      exists (calls1 ++ calls). split; [by rewrite Hcalls, Hcalls1, app_assoc|].
      split.
      { destruct Hshape as [-> | ->]; simpl; [by apply sublist_cons|by apply sublist_skip]. }
      split.
      { intros k' Hk'. rewrite Hcache, Hcache1 by set_solver. done. }
      split; [intros Hmemo; by rewrite Hoff, Hoff1|].
      destruct r as [results'|e]; [|done].
      destruct Hok as (Hdirty & Hprog & Hframe & Hres & Hforced & Hall).
      rewrite Hg1 in Hdirty, Hforced.
      split; [rewrite Hdirty; set_solver|]. split.
      { rewrite Hprog, Hp1. destruct progress; [|done].
        rewrite <- app_assoc. f_equal. unfold progress_of. simpl. rewrite Nat.add_0_r.
        f_equal. apply imap_ext. intros i x _. simpl. f_equal. f_equal. lia. }
      split.
      { intros k' Hk'. rewrite Hframe by set_solver.
        rewrite lookup_insert_ne; [done|]. set_solver. }
      split.
      { intros k' Hk'. destruct (decide (k' ∈ order)) as [Hin|Hnin]; [by apply Hres|].
        assert (k' = k) as -> by set_solver.
        rewrite (Hframe k Hnin), lookup_insert_eq. split; [eauto|].
        intros Hmemo. rewrite <- (Hstored Hmemo). unfold cache_get.
        destruct (decide (k ∈ calls)) as [Hc|Hc].
        - exfalso. apply Hnin. by apply (elem_of_sublist calls order).
        - by injection (Hcache k Hc) as -> _. }
      split.
      { intros k' Hk' Hwhy. destruct (decide (k' = k)) as [->|Hne].
        - rewrite (Hrun Hwhy). set_solver.
        - apply elem_of_app. right. apply Hforced; [set_solver|].
          destruct Hwhy as [?|?]; [by left|right; set_solver]. }
      intros Hforce. rewrite (Hall Hforce), Hrun by (by left). done.
    + apply evaluate_node_step in Hstep
        as (calls1 & Hcalls1 & Hshape & Hcache1 & Hoff1 & Hg1 & Hp1).
      intros [= <- <-]. rewrite Hg1. split; [done|]. split; [done|].
      split; [exists []; by rewrite app_nil_r|].
      exists calls1. split; [done|]. split.
      { destruct Hshape as [-> | ->]; [apply sublist_nil_l|].
        apply sublist_skip, sublist_nil_l. }
      done.
Qed.
End Pass.

(** * What [evaluate] changes and returns *)

Lemma select_results_acc (result_nodes : list string)
    (results : gmap string (odict pyvalue)) (acc : odict (odict pyvalue)) k :
  od_get k (foldl (λ acc node, match results !! node with
                               | Some outputs => od_set node outputs acc
                               | None => acc
                               end) acc result_nodes)
  = match (if decide (k ∈ result_nodes) then results !! k else None) with
    | Some outputs => Some outputs
    | None => od_get k acc
    end.
Proof.
  revert acc. induction result_nodes as [|n rest IH]; intros acc; cbn [foldl].
  - rewrite decide_False; [done|apply not_elem_of_nil].
  - rewrite IH. destruct (decide (k ∈ rest)) as [Hin|Hnin].
    + rewrite decide_True by (by right).
      destruct (results !! k) as [outputs|] eqn:Hk; [done|].
      destruct (results !! n) as [v|] eqn:Hn; [|done].
      rewrite od_get_set. case_decide; [congruence|done].
    + destruct (decide (k = n)) as [->|Hne].
      * rewrite decide_True by (by left).
        destruct (results !! n) as [v|] eqn:Hn; [|done].
        rewrite od_get_set. by rewrite decide_True.
      * rewrite decide_False by (by intros [?|?]%elem_of_cons).
        destruct (results !! n) as [v|] eqn:Hn; [|done].
        rewrite od_get_set. by rewrite decide_False.
Qed.

Lemma select_results_get result_nodes results k :
  od_get k (select_results result_nodes results)
  = if decide (k ∈ result_nodes) then results !! k else None.
Proof.
  unfold select_results. rewrite select_results_acc.
  by destruct (if decide (k ∈ result_nodes) then results !! k else None).
Qed.

Lemma select_results_NoDup result_nodes results :
  NoDup (select_results result_nodes results).*1.
Proof.
  unfold select_results. generalize (NoDup_nil_2 (A:=string)).
  change (@nil string) with (([] : odict (odict pyvalue)).*1).
  generalize ([] : odict (odict pyvalue)).
  induction result_nodes as [|n rest IH]; intros acc Hacc; simpl; [done|].
  apply IH. destruct (results !! n); [by apply od_set_NoDup|done].
Qed.

Lemma od_get_is_Some {V} k (d : odict V) : is_Some (od_get k d) ↔ k ∈ d.*1.
Proof.
  destruct (od_get k d) as [v|] eqn:Hk.
  - split; [|eauto]. intros _. apply od_get_Some_elem in Hk.
    apply list_elem_of_fmap. by exists (k, v).
  - split; [by intros [? ?]|]. intros Hin. by apply od_get_None in Hk.
Qed.

Section Evaluate.
Context `{Externals}.

Lemma evaluate_none reg targets context force progress w :
  result_nodes_of targets (w_graph w) = [] →
  evaluate reg targets context force progress w = (Ok [], w).
Proof. intros Hnone. unfold evaluate. by rewrite Hnone. Qed.


(** X11.  When [evaluate] returns, it returns the outputs of the targets
    that are nodes of the graph, and of no other node, each once; the
    nodes that the targets need are clean afterwards and the dirty set is
    otherwise as it was; and with memoization enabled the outputs that
    are returned for a node are the ones that the cache now holds for
    it. *)
Theorem evaluate_returns reg targets context force progress w outputs w' :
  evaluate reg targets context force progress w = (Ok outputs, w') →
  NoDup outputs.*1
  ∧ (∀ k, k ∈ outputs.*1 ↔ k ∈ result_nodes_of targets (w_graph w))
  ∧ (∀ k, k ∈ dirty (w_graph w')
          ↔ k ∈ dirty (w_graph w)
            ∧ ¬ in_closure (w_graph w)
                  (list_to_set (result_nodes_of targets (w_graph w))) k)
  ∧ (enable_memoization (context_or_default context) = true →
     ∀ k, k ∈ result_nodes_of targets (w_graph w) →
          od_get k outputs = cache_get (w_cache w') k).
Proof.
  destruct (decide (result_nodes_of targets (w_graph w) = [])) as [Hnone|Hsome].
  { rewrite evaluate_none by done. intros [= <- <-]. rewrite Hnone.
    split; [constructor|]. split; [done|]. split; [|by intros _ k ?%elem_of_nil].
    intros k. split; [|by intros [? _]]. intros Hk. split; [done|].
    intros (t & Ht & _). set_solver. }
  rewrite evaluate_nonempty by done.
  destruct (topological_order _ _) as [order|e] eqn:Horder; [|done].
  pose proof (topological_order_members _ _ _ Horder) as Hmem.
  rewrite result_nodes_target_nodes in Hmem. cbn zeta.
  set (w0 := if progress then _ else w).
  assert (Hw0 : w_graph w0 = w_graph w) by (unfold w0; by destruct progress).
  destruct (evaluate_loop _ _ _ _ _ _ _ _ _) as [[results|e] w1] eqn:Hloop; [|done].
  intros [= <- <-].
  apply evaluate_loop_pass in Hloop
    as (_ & _ & _ & calls & _ & _ & _ & _ & Hdirty & _ & _ & Hres & _).
  rewrite Hw0 in Hdirty.
  assert (Hin : ∀ k, k ∈ result_nodes_of targets (w_graph w) → k ∈ order).
  { intros k Hk. apply Hmem. exists k. split; [by apply elem_of_list_to_set|done]. }
  split; [apply select_results_NoDup|]. split; [|split].
  - intros k. rewrite <- od_get_is_Some, select_results_get.
    destruct (decide (k ∈ result_nodes_of targets (w_graph w))) as [Hk|Hk].
    + split; [done|]. intros _. by apply Hres, Hin.
    + split; [by intros [? ?]|done].
  - intros k. rewrite Hdirty, elem_of_difference, elem_of_list_to_set, Hmem. done.
  - intros Hmemo k Hk. rewrite select_results_get, decide_True by done.
    by apply (Hres k (Hin k Hk)).
Qed.

(** X12.  When [evaluate] returns for targets of which at least one is a
    node, the handlers that were called are called in the execution
    order, those of all dirty nodes of the order among them, and with
    [force] those of all its nodes; and a progress callback is called
    with [(0, total, "")] at first and then, for the node at each
    position [i] of the order, counted from one, with [(i, total, key)]. *)
Theorem evaluate_runs reg targets context force progress w outputs w' :
  result_nodes_of targets (w_graph w) ≠ [] →
  evaluate reg targets context force progress w = (Ok outputs, w') →
  ∃ order calls,
    topological_order (Some (result_nodes_of targets (w_graph w))) (w_graph w) = Ok order
    ∧ handler_calls w' = handler_calls w ++ calls
    ∧ sublist calls order
    ∧ (∀ k, k ∈ order → k ∈ dirty (w_graph w) → k ∈ calls)
    ∧ (force = true → calls = order)
    ∧ progress_calls w'
      = progress_calls w
        ++ (if progress
            then (0, length order, "") :: progress_of (length order) 1 order
            else []).
Proof.
  intros Hsome. rewrite evaluate_nonempty by done.
  destruct (topological_order _ _) as [order|e] eqn:Horder; [|done]. cbn zeta.
  set (w0 := if progress then _ else w).
  assert (Hw0 : w_graph w0 = w_graph w
                ∧ handler_calls w0 = handler_calls w
                ∧ progress_calls w0
                  = progress_calls w ++ (if progress then [(0, length order, "")] else []))
    by (unfold w0; destruct progress; simpl; by rewrite ?app_nil_r).
  destruct Hw0 as (Hg0 & Hh0 & Hp0).
  destruct (evaluate_loop _ _ _ _ _ _ _ _ _) as [[results|e] w1] eqn:Hloop; [|done].
  intros [= <- <-].
  apply evaluate_loop_pass in Hloop
    as (_ & _ & _ & calls & Hcalls & Hsl & _ & _ & _ & Hprog & _ & _ & Hforced & Hall).
  rewrite Hg0 in Hforced. rewrite Hh0 in Hcalls. rewrite Hp0 in Hprog.
  exists order, calls. split; [done|]. split; [done|]. split; [done|].
  split; [intros k Hk Hd; apply Hforced; eauto|]. split; [done|].
  rewrite Hprog, <- app_assoc. by destruct progress.
Qed.
End Evaluate.


Lemma evaluate_returns_witness :
  NoDup [("mul", [("output", PInt 50)])].*1
  ∧ (∀ k, k ∈ [("mul", [("output", PInt 50)])].*1
          ↔ k ∈ result_nodes_of (Some ["mul"]) (w_graph example_world))
  ∧ (∀ k, k ∈ dirty (w_graph example_first.2)
          ↔ k ∈ dirty (w_graph example_world)
            ∧ ¬ in_closure (w_graph example_world)
                  (list_to_set (result_nodes_of (Some ["mul"]) (w_graph example_world))) k)
  ∧ (enable_memoization (context_or_default None) = true →
     ∀ k, k ∈ result_nodes_of (Some ["mul"]) (w_graph example_world) →
          od_get k [("mul", [("output", PInt 50)])] = cache_get (w_cache example_first.2) k).
Proof.
  apply (evaluate_returns (H:=example_externals) example_registry (Some ["mul"]) None
           false true example_world).
  vm_compute. reflexivity.
Defined.

Lemma evaluate_runs_witness :
  ∃ order calls,
    topological_order (Some (result_nodes_of (Some ["mul"]) (w_graph example_world)))
                      (w_graph example_world) = Ok order
    ∧ handler_calls example_first.2 = handler_calls example_world ++ calls
    ∧ sublist calls order
    ∧ (∀ k, k ∈ order → k ∈ dirty (w_graph example_world) → k ∈ calls)
    ∧ (false = true → calls = order)
    ∧ progress_calls example_first.2
      = progress_calls example_world
        ++ (0, length order, "") :: progress_of (length order) 1 order.
Proof.
  apply (evaluate_runs (H:=example_externals) example_registry (Some ["mul"]) None
           false true example_world [("mul", [("output", PInt 50)])]).
  - vm_compute. done.
  - vm_compute. reflexivity.
Defined.

(** * The cache *)

Lemma cache_apply_consistent cache op :
  cache_consistent cache → cache_consistent (cache_apply cache op).
Proof.
  unfold cache_consistent. intros Hc. destruct op as [k s o|k|]; simpl.
  - by rewrite !dom_insert_L, Hc.
  - by rewrite !dom_delete_L, Hc.
  - by rewrite !dom_empty_L.
Qed.

(** X13.  However a cache is used through [store], [invalidate] and
    [clear], it holds outputs exactly for the nodes for which it holds a
    signature: a signature that [is_valid] accepts always comes with
    outputs that [get] returns, and the last [store] for a node decides
    both. *)
Theorem cache_ops_consistent ops :
  let cache := foldl cache_apply ExecutionCache_init ops in
  cache_consistent cache
  ∧ (∀ node_key signature,
       cache_is_valid cache node_key signature = true → is_Some (cache_get cache node_key))
  ∧ (∀ node_key signature outputs,
       let cache' := cache_store node_key signature outputs cache in
       cache_get cache' node_key = Some outputs
       ∧ (∀ s, cache_is_valid cache' node_key s = bool_decide (s = signature))
       ∧ cache_entry (cache_invalidate node_key cache') node_key = (None, None)
       ∧ ∀ k, k ≠ node_key → cache_entry cache' k = cache_entry cache k).
Proof.
  cbn zeta. assert (Hc : cache_consistent (foldl cache_apply ExecutionCache_init ops)).
  { generalize ExecutionCache_init (eq_refl : cache_consistent ExecutionCache_init).
    induction ops as [|op ops IH]; intros cache Hcache; simpl; [done|].
    by apply IH, cache_apply_consistent. }
  split; [done|]. split.
  - intros k s Hvalid%bool_decide_eq_true. unfold cache_get. apply elem_of_dom.
    rewrite Hc. apply elem_of_dom. eauto.
  - intros k s o. unfold cache_get, cache_is_valid, cache_entry. simpl.
    rewrite !lookup_insert_eq, !lookup_delete_eq. split; [done|]. split; [|split; [done|]].
    + intros s'. apply bool_decide_ext. naive_solver.
    + intros k' Hk'. by rewrite !lookup_insert_ne.
Qed.

Lemma is_cache_miss_cache_miss node_key : is_cache_miss (cache_miss node_key) = true.
Proof. unfold cache_miss. simpl. by destruct (node_key +:+ "'"). Qed.

Lemma for_each_raise {A S} (P : error → Prop) (body : S → A → result S) xs s e :
  (∀ s x e, body s x = Raise e → P e) → for_each body xs s = Raise e → P e.
Proof.
  intros Hbody. revert s. induction xs as [|x xs IH]; intros s; simpl; [done|].
  destruct (body s x) as [s'|e'] eqn:Hx; simpl.
  - apply IH.
  - intros [= <-]. by apply (Hbody s x).
Qed.

Section NoCacheMiss.
Context `{Externals}.

Lemma collect_inputs_raise g cache node_key results e :
  _collect_inputs g cache node_key results = Raise e → is_cache_miss e = false.
Proof.
  unfold _collect_inputs. apply (for_each_raise (λ e, is_cache_miss e = false)).
  intros acc [port connection] e'.
  unfold collect_input. destruct (py_or _ _) as [outputs|]; [|by intros [= <-]].
  destruct (od_get _ outputs); [done|by intros [= <-]].
Qed.

Lemma evaluate_node_consistent reg context force progress total index k results w r w' :
  cache_consistent (w_cache w) →
  evaluate_node reg context force progress total index k results w = (r, w') →
  cache_consistent (w_cache w')
  ∧ match r with
    | Raise e => is_cache_miss e = false
    | Ok _ => True
    end.
Proof.
  intros Hc. unfold evaluate_node.
  destruct (nodes (w_graph w) !! k) as [node|]; [|by intros [= <- <-]].
  destruct (_collect_inputs _ _ _ _) as [input_values|e] eqn:Hin.
  2: { intros [= <- <-]. split; [done|]. by apply collect_inputs_raise in Hin. }
  unfold _make_signature. destruct (json_dumps_sorted _) as [data|]; [|by intros [= <- <-]].
  destruct (use_cache _ _ _ _ _ _) eqn:Huse.
  - unfold use_cache in Huse. rewrite !andb_true_iff in Huse.
    destruct Huse as [_ Hvalid%bool_decide_eq_true].
    assert (is_Some (cache_get (w_cache w) k)) as [outputs ->].
    { unfold cache_get. apply elem_of_dom. rewrite Hc. apply elem_of_dom. eauto. }
    unfold record_outputs. by intros [= <- <-].
  - unfold run_handler. destruct (registry_get reg (type node)) as [definition|e] eqn:Hreg.
    2: { intros [= <- <-]. split; [done|]. revert Hreg. unfold registry_get.
         destruct (reg !! _); [done|]. by intros [= <-]. }
    destruct (handler definition _ _ _ _) as [[v|msg] env']; [|by intros [= <- <-]].
    destruct v as [| | | | |outputs| | | | | | |]; try by intros [= <- <-].
    unfold record_outputs. destruct (enable_memoization context); simpl.
    + intros [= <- <-]. simpl. split; [|done].
      by apply (cache_apply_consistent _ (CacheStore k _ outputs)).
    + by intros [= <- <-].
Qed.

Lemma evaluate_loop_consistent reg context force progress total order :
  ∀ index results w r w',
  cache_consistent (w_cache w) →
  evaluate_loop reg context force progress total index order results w = (r, w') →
  cache_consistent (w_cache w')
  ∧ match r with
    | Raise e => is_cache_miss e = false
    | Ok _ => True
    end.
Proof.
  induction order as [|k order IH]; intros index results w r w' Hc; cbn [evaluate_loop].
  - by intros [= <- <-].
  - destruct (evaluate_node reg context force progress total index k results w)
      as [[results1|e] w1] eqn:Hstep;
      apply evaluate_node_consistent in Hstep as [Hc1 He]; try done.
    + by apply IH.
    + by intros [= <- <-].
Qed.

(** X14.  On a cache that holds outputs exactly for the nodes for which
    it holds a signature, [evaluate] never fails with the
    [SchedulerError] "Cache miss", and it leaves the cache in such a
    state, whether it returns or raises. *)
Theorem evaluate_no_cache_miss reg targets context force progress w r w' :
  cache_consistent (w_cache w) →
  evaluate reg targets context force progress w = (r, w') →
  cache_consistent (w_cache w') ∧ ∀ node_key, r ≠ Raise (cache_miss node_key).
Proof.
  intros Hc.
  assert (Hmiss : ∀ e, is_cache_miss e = false → ∀ node_key,
                       Raise e ≠ Raise (A:=odict (odict pyvalue)) (cache_miss node_key)).
  { intros e He node_key [= ->]. by rewrite is_cache_miss_cache_miss in He. }
  destruct (decide (result_nodes_of targets (w_graph w) = [])) as [Hnone|Hsome].
  { rewrite evaluate_none by done. by intros [= <- <-]. }
  rewrite evaluate_nonempty by done.
  destruct (topological_order _ _) as [order|e] eqn:Horder.
  2: { intros [= <- <-]. split; [done|]. apply Hmiss.
       revert Horder. unfold topological_order. destruct (_ && _); [done|].
       destruct (static_order _); [done|]. by intros [= <-]. }
  cbn zeta. set (w0 := if progress then _ else w).
  assert (Hc0 : cache_consistent (w_cache w0)) by (unfold w0; by destruct progress).
  destruct (evaluate_loop _ _ _ _ _ _ _ _ _) as [[results|e] w1] eqn:Hloop;
    apply evaluate_loop_consistent in Hloop as [Hc1 He]; try done.
  - by intros [= <- <-].
  - intros [= <- <-]. split; [done|]. by apply Hmiss.
Qed.
End NoCacheMiss.

Lemma evaluate_no_cache_miss_witness :
  cache_consistent (w_cache example_world)
  ∧ cache_consistent (w_cache example_first.2)
  ∧ ∀ node_key, Ok [("mul", [("output", PInt 50)])] ≠ Raise (cache_miss node_key).
Proof.
  assert (Hc : cache_consistent (w_cache example_world)) by reflexivity.
  split; [exact Hc|].
  apply (evaluate_no_cache_miss (H:=example_externals) example_registry (Some ["mul"]) None
           false true example_world _ _ Hc).
  vm_compute. reflexivity.
Defined.

(** * The registry *)

Section Registry.
Context `{Externals}.

(** X15.  [register] refuses a type that is registered already, in
    whatever case it is written, with [RegistryError]; otherwise [get]
    returns the new definition for every spelling of the type that has
    the same lower case, and answers for all other types as before. *)
Theorem registry_register_get node_type h descr reg :
  match registry_register node_type h descr reg with
  | Raise e =>
      (∃ definition, registry_get reg node_type = Ok definition)
      ∧ e = RegistryError ("Handler already registered for '" +:+ node_type +:+ "'")
  | Ok reg' =>
      registry_get reg node_type
      = Raise (RegistryError ("No handler registered for '" +:+ node_type +:+ "'"))
      ∧ ∀ other,
          registry_get reg' other
          = if decide (str_lower other = str_lower node_type)
            then Ok (mkNodeDefinition h descr)
            else registry_get reg other
  end.
Proof.
  unfold registry_register, registry_get.
  destruct (reg !! str_lower node_type) as [definition|] eqn:Hreg.
  - split; [eauto|done].
  - split; [done|]. intros other. case_decide as Hother.
    + by rewrite Hother, lookup_insert_eq.
    + by rewrite lookup_insert_ne.
Qed.
End Registry.

(** * Gathering inputs, port by port *)

Lemma collect_inputs_acc cache node_key results items acc inputs :
  for_each (collect_input cache node_key results) items acc = Ok inputs →
  inputs.*1 = foldl (λ keys port, if decide (port ∈ keys) then keys else keys ++ [port])
                    acc.*1 items.*1
  ∧ (∀ port, port ∉ items.*1 → od_get port inputs = od_get port acc)
  ∧ Forall (λ item,
              ∃ source_outputs v,
                py_or (results !! source_node item.2) (cache_get cache (source_node item.2))
                = Some source_outputs
                ∧ od_get (source_port item.2) source_outputs = Some v)
           items
  ∧ (NoDup items.*1 →
     ∀ port connection, (port, connection) ∈ items →
       ∃ source_outputs,
         py_or (results !! source_node connection) (cache_get cache (source_node connection))
         = Some source_outputs
         ∧ is_Some (od_get port inputs)
         ∧ od_get port inputs = od_get (source_port connection) source_outputs).
Proof.
  revert acc. induction items as [|[port connection] items IH]; intros acc; cbn [for_each].
  - intros [= <-]. split; [done|]. split; [done|]. split; [constructor|].
    by intros _ p c ?%elem_of_nil.
  - unfold mbind, result_bind.
    destruct (collect_input _ _ _ acc (port, connection)) as [acc'|e] eqn:Hstep; [|done].
    unfold collect_input in Hstep.
    destruct (py_or _ _) as [source_outputs|] eqn:Hor; [|done].
    destruct (od_get (source_port connection) source_outputs) as [v|] eqn:Hv; [|done].
    injection Hstep as <-. intros Hrest.
    destruct (IH _ Hrest) as (Hkeys & Hframe & Hall & Hports).
    split; [|split; [|split]].
    + rewrite Hkeys, od_set_keys. done.
    + intros p Hp. csimpl in Hp. apply not_elem_of_cons in Hp as [Hne Hp].
      rewrite (Hframe p Hp), od_get_set. by rewrite decide_False.
    + constructor; [|done]. simpl. eauto.
    + csimpl. intros [Hport Hnd]%NoDup_cons p c [[= -> ->]|Hin]%elem_of_cons.
      * exists source_outputs. split; [done|].
        rewrite (Hframe port Hport), od_get_set, decide_True by done. rewrite Hv. eauto.
      * by apply Hports.
Qed.

Lemma foldl_add_keys (ports : list string) :
  NoDup ports →
  foldl (λ keys port, if decide (port ∈ keys) then keys else keys ++ [port]) [] ports
  = ports.
Proof.
  intros Hnd.
  assert (Hgen : ∀ keys, NoDup (keys ++ ports) →
    foldl (λ keys port, if decide (port ∈ keys) then keys else keys ++ [port]) keys ports
    = keys ++ ports).
  { clear Hnd. induction ports as [|p ports IH]; intros keys Hnd; simpl.
    - by rewrite app_nil_r.
    - apply NoDup_app in Hnd as Hnd'. destruct Hnd' as (_ & Hdisj & _).
      rewrite decide_False by (intros Hp; apply (Hdisj p Hp); by left).
      rewrite IH; rewrite <- app_assoc; done. }
  by apply (Hgen []).
Qed.

(** X16.  When [_collect_inputs] returns for a node, it returns one value
    for each connected port of the node, in the order of the ports, and
    the value of a port is the one that the outputs of the source of its
    connection hold for the source port, those outputs being the ones of
    the current pass unless they are missing or empty, and the cached
    ones otherwise. *)
Theorem collect_inputs_spec g cache node_key results inputs :
  NoDup (inputs_for g node_key).*1 →
  _collect_inputs g cache node_key results = Ok inputs →
  inputs.*1 = (inputs_for g node_key).*1
  ∧ ∀ port connection,
      (port, connection) ∈ inputs_for g node_key →
      ∃ source_outputs,
        py_or (results !! source_node connection) (cache_get cache (source_node connection))
        = Some source_outputs
        ∧ is_Some (od_get port inputs)
        ∧ od_get port inputs = od_get (source_port connection) source_outputs.
Proof.
  intros Hnd Hin. apply collect_inputs_acc in Hin as (Hkeys & _ & _ & Hports).
  split; [|by apply Hports]. rewrite Hkeys. by apply foldl_add_keys.
Qed.

Lemma collect_inputs_spec_witness :
  NoDup (inputs_for example_graph "add").*1
  ∧ [("lhs", PInt 2); ("rhs", PInt 3)].*1 = (inputs_for example_graph "add").*1
  ∧ ∀ port connection,
      (port, connection) ∈ inputs_for example_graph "add" →
      ∃ source_outputs,
        py_or (({["c1" := [("output", PInt 2)]; "c2" := [("output", PInt 3)]]}
                 : gmap string (odict pyvalue)) !! source_node connection)
              (cache_get ExecutionCache_init (source_node connection))
        = Some source_outputs
        ∧ is_Some (od_get port [("lhs", PInt 2); ("rhs", PInt 3)])
        ∧ od_get port [("lhs", PInt 2); ("rhs", PInt 3)]
          = od_get (source_port connection) source_outputs.
Proof.
  assert (Hnd : NoDup (inputs_for example_graph "add").*1).
  { apply (bool_decide_unpack _). vm_compute. done. }
  split; [exact Hnd|].
  apply (collect_inputs_spec example_graph ExecutionCache_init "add"
           {["c1" := [("output", PInt 2)]; "c2" := [("output", PInt 3)]]}
           [("lhs", PInt 2); ("rhs", PInt 3)] Hnd).
  vm_compute. reflexivity.
Defined.

(** * Graphs that are read from a payload *)

Lemma for_each_inv {A S} (I : S → Prop) (body : S → A → result S) xs s s' :
  (∀ s x s', I s → body s x = Ok s' → I s') →
  I s → for_each body xs s = Ok s' → I s'.
Proof.
  intros Hbody. revert s. induction xs as [|x xs IH]; intros s Hs; simpl.
  - by intros [= <-].
  - destruct (body s x) as [s1|e] eqn:Hx; [|done]. simpl. apply IH. by eapply Hbody.
Qed.

Lemma add_node_loaded node g g' :
  freshly_loaded g → add_node node g = Ok g' → freshly_loaded g'.
Proof.
  intros [Hd Hdeps]. unfold add_node. destruct (has_node g (key node)); [done|].
  intros [= <-].
  match goal with
  | |- freshly_loaded (mark_dirty ?a ?h) =>
      set (g1 := h); destruct (mark_dirty_fields a g1) as (Hn & _)
  end.
  assert (Hdeps1 : ∀ s, dependents_of g1 s ⊆ dom (nodes g1)).
  { intros s. unfold g1. simpl. rewrite dom_insert.
    change (dependents_of (set_nodes _ g) s) with (dependents_of g s).
    specialize (Hdeps s). set_solver. }
  split.
  - rewrite mark_dirty_dirty, Hn.
    assert (has_node g1 (key node) = true) as ->.
    { apply has_node_true. unfold g1. simpl. rewrite lookup_insert_eq. eauto. }
    specialize (Hdeps1 (key node)). change (dirty g1) with (dirty g).
    change (nodes g1) with (<[key node := node]> (nodes g)) in *.
    rewrite dom_insert_L in *. rewrite Hd. set_solver.
  - intros s. rewrite dependents_of_mark_dirty, Hn. apply Hdeps1.
Qed.

Lemma connect_loaded source sport target tport g g' :
  freshly_loaded g → connect source sport target tport g = Ok g' → freshly_loaded g'.
Proof.
  intros [Hd Hdeps] (Hs & Ht & Hn & _ & Hdep & Hdirty)%connect_inputs.
  apply elem_of_dom in Ht.
  assert (Hdeps' : ∀ s, dependents_of g' s ⊆ dom (nodes g')).
  { intros s. rewrite Hdep, Hn. case_decide; [|apply Hdeps].
    specialize (Hdeps source). set_solver. }
  split; [|done]. rewrite Hdirty. specialize (Hdeps' target). rewrite Hn in *.
  rewrite Hd. set_solver.
Qed.

(** X17.  Every graph that [_graph_from_dict] returns is well formed: its
    nodes are stored under their keys, its connections end and start at
    nodes, one for each port; and all its nodes are dirty, and nothing
    else is. *)
Theorem graph_from_dict_loaded payload g :
  _graph_from_dict payload = Ok g →
  well_formed g ∧ dirty g = dom (nodes g).
Proof.
  unfold _graph_from_dict. destruct (as_dict payload) as [p|]; simpl; [|by intros [=]].
  destruct (as_str _) as [nm|]; simpl; [|by intros [=]].
  destruct (as_dict (default (PDict []) (od_get "metadata" p))) as [md|]; simpl;
    [|by intros [=]].
  destruct (as_list _) as [node_list|]; simpl; [|by intros [=]].
  destruct (as_dict (default (PDict []) (od_get "connections" p))) as [conns|]; simpl;
    [|by intros [=]].
  set (I := λ g, graph_inv g ∧ sources_exist g ∧ freshly_loaded g).
  destruct (for_each _ node_list _) as [g1|] eqn:Hnodes; simpl; [|by intros [=]].
  intros Hconns.
  assert (H0 : I (Graph_init nm md)).
  { split; [apply Graph_init_inv|]. split; [apply Graph_init_sources|].
    split; [simpl; by rewrite dom_empty_L|]. intros s. unfold dependents_of. simpl.
    rewrite lookup_empty. set_solver. }
  assert (H1 : I g1).
  { revert Hnodes. apply (for_each_inv I); [|done].
    intros s node_data s' (Hinv & Hsrc & Hload).
    destruct (node_from_dict node_data) as [node|]; simpl; [|by intros [=]]. intros Hadd.
    split; [by apply (mutate_inv (AddNode node) s)|].
    split; [by apply (mutate_sources (AddNode node) s)|].
    by apply (add_node_loaded node s). }
  assert (H2 : I g).
  { revert Hconns. apply (for_each_inv I); [|done].
    intros s [node_key ports] s' Hs. unfold connect_ports_from_dict.
    destruct (as_dict ports) as [ps|]; simpl; [|by intros [=]].
    apply (for_each_inv I); [|done].
    intros s1 [port_name connection] s2 (Hinv & Hsrc & Hload). simpl.
    destruct (as_dict connection) as [c|]; simpl; [|by intros [=]].
    destruct (od_item "source_node" c ≫= as_str) as [src|]; simpl; [|by intros [=]].
    destruct (od_item "source_port" c ≫= as_str) as [sport|]; simpl; [|by intros [=]].
    intros Hc.
    split; [by apply (mutate_inv (Connect src sport node_key port_name) s1)|].
    split; [by apply (mutate_sources (Connect src sport node_key port_name) s1)|].
    by apply (connect_loaded src sport node_key port_name s1). }
  destruct H2 as (Hinv & Hsrc & Hd & _). split; [by apply inv_sources_well_formed|done].
Qed.

Lemma graph_from_dict_loaded_witness :
  ∃ g, _graph_from_dict (_graph_to_dict example_graph) = Ok g
       ∧ well_formed g ∧ dirty g = dom (nodes g).
Proof.
  destruct (_graph_from_dict (_graph_to_dict example_graph)) as [g|e] eqn:Hg;
    [|by vm_compute in Hg].
  exists g. split; [done|]. exact (graph_from_dict_loaded _ g Hg).
Defined.

(** * The errors of [evaluate] *)

Lemma closure_nodes g (targets : gset string) n :
  sources_exist g → targets ⊆ dom (nodes g) → in_closure g targets n →
  is_Some (nodes g !! n).
Proof.
  intros Hsrc Ht (t & Htt & Hrtc).
  assert (Hnode : is_Some (nodes g !! t)) by (by apply elem_of_dom, Ht).
  clear Htt. induction Hrtc as [t|t s n Hts _ IH]; [done|].
  apply IH. unfold depends_on, dependencies_of in Hts.
  apply elem_of_list_to_set, list_elem_of_fmap in Hts as (c & -> & Hc).
  apply list_elem_of_fmap in Hc as ([port c'] & -> & Hitem).
  apply (Hsrc t (port, c') Hitem).
Qed.

Section Errors.
Context `{Externals}.

Lemma evaluate_node_errors reg context force progress total index k results w e w' :
  is_Some (nodes (w_graph w) !! k) →
  evaluate_node reg context force progress total index k results w = (Raise e, w') →
  expected_error e = true.
Proof.
  intros [node Hnode]. unfold evaluate_node. rewrite Hnode.
  destruct (_collect_inputs _ _ _ _) as [input_values|e'] eqn:Hin.
  2: { intros [= <- <-]. revert Hin. unfold _collect_inputs.
       apply (for_each_raise (λ e, expected_error e = true)).
       intros acc [port connection] e''. unfold collect_input.
       destruct (py_or _ _) as [outputs|]; [|by intros [= <-]].
       destruct (od_get _ outputs); [done|by intros [= <-]]. }
  unfold _make_signature. destruct (json_dumps_sorted _) as [data|]; [|by intros [= <- <-]].
  destruct (use_cache _ _ _ _ _ _).
  - destruct (cache_get (w_cache w) k); [done|by intros [= <- <-]].
  - unfold run_handler. destruct (registry_get reg (type node)) as [definition|e'] eqn:Hreg.
    2: { intros [= <- <-]. revert Hreg. unfold registry_get.
         destruct (reg !! _); [done|]. by intros [= <-]. }
    destruct (handler definition _ _ _ _) as [[v|msg] env']; [|by intros [= <- <-]].
    destruct v; try by intros [= <- <-].
Qed.

Lemma evaluate_loop_errors reg context force progress total order :
  ∀ index results w e w',
  Forall (λ k, is_Some (nodes (w_graph w) !! k)) order →
  evaluate_loop reg context force progress total index order results w = (Raise e, w') →
  expected_error e = true.
Proof.
  induction order as [|k order IH]; intros index results w e w' Hnodes;
    cbn [evaluate_loop]; [done|].
  apply Forall_cons in Hnodes as [Hk Hnodes].
  destruct (evaluate_node reg context force progress total index k results w)
    as [[results1|e1] w1] eqn:Hstep.
  - apply evaluate_node_step in Hstep as (_ & _ & _ & _ & _ & Hg & _).
    apply IH. by rewrite Hg.
  - intros [= <- <-]. by apply evaluate_node_errors in Hstep.
Qed.

(** X18.  On a graph whose connections all start from nodes, the only
    exceptions of [evaluate] are the [GraphError] of a cycle, a
    [SchedulerError], the [RegistryError] of a type without handler and
    the [TypeError] of a signature that cannot be encoded: the loop never
    looks up a key that is not a node. *)
Theorem evaluate_errors reg targets context force progress w e w' :
  sources_exist (w_graph w) →
  evaluate reg targets context force progress w = (Raise e, w') →
  expected_error e = true.
Proof.
  intros Hsrc.
  destruct (decide (result_nodes_of targets (w_graph w) = [])) as [Hnone|Hsome].
  { by rewrite evaluate_none by done. }
  rewrite evaluate_nonempty by done.
  destruct (topological_order _ _) as [order|e'] eqn:Horder.
  2: { intros [= <- <-]. revert Horder. unfold topological_order.
       destruct (_ && _); [done|]. destruct (static_order _); [done|]. by intros [= <-]. }
  pose proof (topological_order_members _ _ _ Horder) as Hmem.
  cbn zeta. set (w0 := if progress then _ else w).
  assert (Hg0 : w_graph w0 = w_graph w) by (unfold w0; by destruct progress).
  destruct (evaluate_loop _ _ _ _ _ _ _ _ _) as [[results|e1] w1] eqn:Hloop; [done|].
  intros [= <- <-]. apply evaluate_loop_errors in Hloop; [done|].
  rewrite Hg0. apply Forall_forall. intros k Hk%Hmem.
  apply (closure_nodes _ _ _ Hsrc) in Hk; [done|].
  rewrite result_nodes_target_nodes. intros t Ht%elem_of_list_to_set.
  pose proof (result_nodes_have_node targets (w_graph w)) as Hall.
  rewrite Forall_forall in Hall. apply elem_of_dom, has_node_true. by apply Hall.
Qed.
End Errors.

Lemma sources_exist_checked g :
  map_Forall (λ _ ports, Forall (λ item : string * Connection,
                                   is_Some (nodes g !! source_node item.2)) ports)
             (_connections g) →
  sources_exist g.
Proof.
  intros Hall target item. unfold inputs_for.
  destruct (_connections g !! target) as [ports|] eqn:Hports; simpl.
  - intros Hitem. specialize (Hall target ports Hports). rewrite Forall_forall in Hall.
    by apply Hall.
  - by intros ?%elem_of_nil.
Qed.

Lemma evaluate_errors_witness :
  sources_exist (w_graph example_world)
  ∧ expected_error (RegistryError "No handler registered for 'primitives.constant'") = true.
Proof.
  assert (Hsrc : sources_exist (w_graph example_world)).
  { apply sources_exist_checked. apply (bool_decide_unpack _). vm_compute. done. }
  split; [exact Hsrc|].
  apply (evaluate_errors (H:=example_externals) ∅ (Some ["mul"]) None false false
           example_world _ example_world Hsrc).
  vm_compute. reflexivity.
Defined.

(** * When the dependents index is the transpose of the connections *)

Lemma od_get_filter {V} (P : string * V → Prop) `{!∀ x, Decision (P x)} k (d : odict V) :
  NoDup d.*1 →
  od_get k (filter P d)
  = match od_get k d with
    | Some v => if decide (P (k, v)) then Some v else None
    | None => None
    end.
Proof.
  induction d as [|[k0 v0] d IH]; [done|]. csimpl. intros [Hk0 Hnd]%NoDup_cons.
  rewrite filter_cons. destruct (decide (k = k0)) as [->|Hne].
  - destruct (decide (P (k0, v0))) as [HP|HP]; simpl.
    + by rewrite decide_True.
    + rewrite IH by done. apply od_get_None in Hk0. by rewrite Hk0.
  - destruct (decide (P (k0, v0))) as [HP|HP]; simpl.
    + rewrite decide_False by done. by apply IH.
    + by apply IH.
Qed.

Lemma remove_node_dependents k g g' :
  ports_unique g → remove_node k g = Ok g' →
  ∀ s, dependents_of g' s = if decide (s = k) then ∅ else dependents_of g s.
Proof.
  intros Hu. unfold remove_node. destruct (has_node g k) eqn:Hnode; [|done]. simpl.
  intros [= <-] s.
  destruct (remove_node_targets_fields k (elements (dependents_of g k)) g Hu)
    as (_ & _ & Hd & _).
  rewrite dependents_of_mark_dirty. unfold dependents_of at 1. simpl.
  destruct (decide (s = k)) as [->|Hne]; [by rewrite lookup_delete_eq|].
  rewrite lookup_delete_ne by done.
  match goal with
  | |- default ∅ (_dependents ?h !! s) = _ => change (dependents_of h s = dependents_of g s)
  end.
  rewrite Hd. by rewrite decide_False.
Qed.

(** X19.  A mutation keeps the dependents index the exact transpose of
    the connections as long as it does not replace a connection by one
    from another source, does not disconnect a port of a node of which
    another port has the same source, and does not remove a node that has
    inputs. *)
Theorem transpose_preserved m g g' :
  is_transpose g → ports_unique g → keeps_transpose m g →
  mutate g m = Ok g' → is_transpose g'.
Proof.
  intros Ht Hu Hsafe. destruct m as [node|k|s sp t tp|node port|k|k]; simpl in *.
  - intros Hadd. unfold add_node in Hadd. destruct (has_node g (key node)); [done|].
    injection Hadd as <-. intros s0 t0.
    rewrite dependents_of_mark_dirty, inputs_for_mark_dirty. apply Ht.
  - intros Hr. destruct (remove_node_inputs k g g' Hu Hr) as (_ & _ & _ & Hin).
    pose proof (remove_node_dependents k g g' Hu Hr) as Hdep.
    intros s0 t0. rewrite Hdep, Hin. destruct (decide (s0 = k)) as [->|Hs0].
    + split; [set_solver|]. intros (port & c & Hport & Hsrc). exfalso.
      destruct (decide (t0 = k)) as [->|Ht0]; [done|].
      destruct (decide (t0 ∈ dependents_of g k)) as [Hdk|Hdk].
      * rewrite od_get_filter in Hport by apply Hu.
        destruct (od_get port (inputs_for g t0)) as [c'|]; [|done].
        simpl in Hport. case_decide; [|done]. by injection Hport as ->.
      * apply Hdk, Ht. eauto.
    + rewrite (Ht s0 t0). destruct (decide (t0 = k)) as [->|Ht0].
      { rewrite Hsafe. split; by intros (port & c & Hport & _). }
      destruct (decide (t0 ∈ dependents_of g k)) as [Hdk|Hdk]; [|done].
      split; intros (port & c & Hport & Hsrc); exists port, c; (split; [|done]).
      * rewrite od_get_filter by apply Hu. rewrite Hport. simpl.
        rewrite decide_True; [done|]. by rewrite Hsrc.
      * rewrite od_get_filter in Hport by apply Hu.
        destruct (od_get port (inputs_for g t0)) as [c'|]; [|done].
        simpl in Hport. by case_decide.
  - intros Hc. apply connect_inputs in Hc as (_ & _ & _ & Hin & Hdep & _).
    intros s0 t0. rewrite Hdep. split.
    + intros Hmem.
      assert (Hcase : (s0 = s ∧ t0 = t) ∨ t0 ∈ dependents_of g s0).
      { destruct (decide (s0 = s)) as [->|Hs0]; [|by right]. set_solver. }
      destruct Hcase as [[-> ->]|Hold].
      * exists tp, (mkConnection s sp). rewrite Hin, decide_True by done.
        by rewrite od_get_set, decide_True.
      * apply Ht in Hold as (port & c & Hport & Hsrc).
        destruct (decide (t0 = t ∧ port = tp)) as [[-> ->]|Hne].
        -- rewrite Hport in Hsafe. exists tp, (mkConnection s sp).
           rewrite Hin, decide_True by done. rewrite od_get_set, decide_True by done.
           split; [done|]. simpl. congruence.
        -- exists port, c. split; [|done]. rewrite Hin.
           destruct (decide (t0 = t)) as [->|Ht0]; [|done].
           rewrite od_get_set, decide_False; [done|]. naive_solver.
    + intros (port & c & Hport & Hsrc). rewrite Hin in Hport.
      destruct (decide (t0 = t)) as [->|Ht0].
      * rewrite od_get_set in Hport. destruct (decide (port = tp)) as [->|Hp].
        -- injection Hport as <-. simpl in Hsrc. subst s0.
           rewrite decide_True by done. set_solver.
        -- assert (t ∈ dependents_of g s0) by (apply Ht; eauto).
           destruct (decide (s0 = s)) as [->|Hs0]; [set_solver|done].
      * assert (t0 ∈ dependents_of g s0) by (apply Ht; eauto).
        destruct (decide (s0 = s)) as [->|Hs0]; [set_solver|done].
  - intros [= <-]. destruct (od_get port (inputs_for g node)) as [c|] eqn:Hport.
    2: { unfold disconnect. by rewrite Hport. }
    destruct (disconnect_inputs node port c g Hport) as (_ & Hin & Hdep & _).
    intros s0 t0. rewrite Hdep. split.
    + intros Hmem.
      assert (Hold : t0 ∈ dependents_of g s0 ∧ ¬ (s0 = source_node c ∧ t0 = node)).
      { destruct (decide (s0 = source_node c)) as [->|Hs0]; [set_solver|].
        split; [done|]. naive_solver. }
      destruct Hold as [(port' & c' & Hport' & Hsrc)%Ht Hnot].
      exists port', c'. split; [|done]. rewrite Hin.
      destruct (decide (t0 = node)) as [->|Ht0]; [|done].
      rewrite od_get_del. destruct (decide (port' = port)) as [->|Hp]; [|done].
      exfalso. apply Hnot. split; [|done]. congruence.
    + intros (port' & c' & Hport' & Hsrc). rewrite Hin in Hport'.
      destruct (decide (t0 = node)) as [->|Ht0].
      * rewrite od_get_del in Hport'. destruct (decide (port' = port)) as [->|Hp]; [done|].
        assert (node ∈ dependents_of g s0) by (apply Ht; eauto).
        destruct (decide (s0 = source_node c)) as [->|Hs0]; [|done].
        exfalso. by apply (Hsafe port' c' Hp Hport').
      * assert (t0 ∈ dependents_of g s0) by (apply Ht; eauto).
        destruct (decide (s0 = source_node c)) as [->|Hs0]; [set_solver|done].
  - intros [= <-] s0 t0. rewrite dependents_of_mark_dirty, inputs_for_mark_dirty. apply Ht.
  - intros [= <-]. apply Ht.
Qed.

Lemma transpose_preserved_witness :
  is_transpose example_graph_nodes
  ∧ ports_unique example_graph_nodes
  ∧ keeps_transpose (Connect "c1" "output" "add" "lhs") example_graph_nodes
  ∧ ∃ g', mutate example_graph_nodes (Connect "c1" "output" "add" "lhs") = Ok g'
          ∧ is_transpose g'.
Proof.
  assert (Hc : _connections example_graph_nodes = ∅) by (vm_compute; reflexivity).
  assert (Hd : _dependents example_graph_nodes = ∅) by (vm_compute; reflexivity).
  assert (Ht : is_transpose example_graph_nodes).
  { intros s t. unfold dependents_of, inputs_for. rewrite Hc, Hd, !lookup_empty. simpl.
    split; [set_solver|]. by intros (port & c & Hport & _). }
  assert (Hu : ports_unique example_graph_nodes).
  { intros t. unfold inputs_for. rewrite Hc, lookup_empty. apply NoDup_nil_2. }
  assert (Hs : keeps_transpose (Connect "c1" "output" "add" "lhs") example_graph_nodes).
  { simpl. unfold inputs_for. by rewrite Hc, lookup_empty. }
  split; [exact Ht|]. split; [exact Hu|]. split; [exact Hs|].
  destruct (mutate example_graph_nodes (Connect "c1" "output" "add" "lhs")) as [g'|e] eqn:Hm;
    [|by vm_compute in Hm].
  exists g'. split; [done|].
  exact (transpose_preserved (Connect "c1" "output" "add" "lhs") example_graph_nodes g'
           Ht Hu Hs Hm).
Defined.

(** * What a signature is computed from *)


Lemma forallb_Forall {A} (f : A → bool) l :
  forallb f l = true ↔ Forall (λ x, f x = true) l.
Proof.
  induction l as [|x l IH]; simpl; [by split; [constructor|]|].
  rewrite andb_true_iff, IH, Forall_cons. done.
Qed.

Lemma existsb_Forall {A} (f : A → bool) l :
  existsb f l = false ↔ Forall (λ x, f x = false) l.
Proof.
  induction l as [|x l IH]; simpl; [by split; [constructor|]|].
  rewrite orb_false_iff, IH, Forall_cons. done.
Qed.

Section Plain.
Context `{Externals}.

(** Apart from the dump of a model, what [_normalise_value] returns is
    made of the values that [json.dumps] encodes. *)
Lemma normalise_plain value :
  has_model value = false → json_plain (_normalise_value value) = true.
Proof.
  induction value as [| | | | |items IH|elems IH|elems IH|elems IH|shape dtype raw
                      |dump IH|cls attrs IH|] using pyvalue_nested_ind;
    try done.
  - cbn [has_model _normalise_value json_plain]. intros Hno%existsb_Forall.
    apply forallb_Forall. rewrite sorted_items_perm. apply Forall_fmap.
    rewrite Forall_forall in IH, Hno. apply Forall_forall. intros [k v] Hin. simpl.
    apply (IH (k, v) Hin), (Hno (k, v) Hin).
  - cbn [has_model _normalise_value json_plain]. intros Hno%existsb_Forall.
    apply forallb_Forall. change (map _normalise_value elems) with (_normalise_value <$> elems).
    apply Forall_fmap. rewrite Forall_forall in IH, Hno. apply Forall_forall.
    intros v Hin. simpl. apply (IH v Hin), (Hno v Hin).
  - cbn [has_model _normalise_value json_plain]. intros Hno%existsb_Forall.
    apply forallb_Forall. change (map _normalise_value elems) with (_normalise_value <$> elems).
    apply Forall_fmap. rewrite Forall_forall in IH, Hno. apply Forall_forall.
    intros v Hin. simpl. apply (IH v Hin), (Hno v Hin).
  - cbn [has_model _normalise_value json_plain]. intros Hno%existsb_Forall.
    apply forallb_Forall. change (map _normalise_value elems) with (_normalise_value <$> elems).
    apply Forall_fmap. rewrite Forall_forall in IH, Hno. apply Forall_forall.
    intros v Hin. simpl. apply (IH v Hin), (Hno v Hin).
  - intros _. cbn [_normalise_value json_plain forallb]. rewrite !andb_true_r.
    apply forallb_Forall, Forall_fmap, Forall_forall. done.
  - cbn [has_model _normalise_value json_plain forallb]. intros Hno%existsb_Forall.
    rewrite !andb_true_r. apply forallb_Forall. rewrite sorted_items_perm.
    apply Forall_fmap. rewrite Forall_forall in IH, Hno. apply Forall_forall.
    intros [k v] Hin. simpl. apply (IH (k, v) Hin), (Hno (k, v) Hin).
Qed.

Lemma sort_keys_plain value : json_plain value = true → json_plain (sort_keys value) = true.
Proof.
  induction value as [| | | | |items IH|elems IH|elems IH|elems IH|shape dtype raw
                      |dump IH|cls attrs IH|] using pyvalue_nested_ind;
    try done.
  - cbn [sort_keys json_plain]. intros Hok%forallb_Forall.
    apply forallb_Forall. rewrite sorted_items_perm. apply Forall_fmap.
    rewrite Forall_forall in IH, Hok. apply Forall_forall. intros [k v] Hin. simpl.
    apply (IH (k, v) Hin), (Hok (k, v) Hin).
  - cbn [sort_keys json_plain]. intros Hok%forallb_Forall.
    apply forallb_Forall. change (map sort_keys elems) with (sort_keys <$> elems).
    apply Forall_fmap. rewrite Forall_forall in IH, Hok. apply Forall_forall.
    intros v Hin. simpl. apply (IH v Hin), (Hok v Hin).
  - cbn [sort_keys json_plain]. intros Hok%forallb_Forall.
    apply forallb_Forall. change (map sort_keys elems) with (sort_keys <$> elems).
    apply Forall_fmap. rewrite Forall_forall in IH, Hok. apply Forall_forall.
    intros v Hin. simpl. apply (IH v Hin), (Hok v Hin).
Qed.

(** X20.  Parameters and inputs that hold no object with a [model_dump]
    method are normalised to values that [json.dumps] encodes, whatever
    arrays, sets, tuples, objects and other values they hold; so, for an
    encoder that encodes those values, [_make_signature] returns a
    signature and does not raise. *)
Theorem signature_total node inputs :
  (∀ value, json_plain value = true → is_Some (json_encode value)) →
  has_model (PDict (parameters node)) = false →
  has_model (PDict inputs) = false →
  json_plain (signature_payload node inputs) = true
  ∧ ∃ signature, _make_signature node inputs = Ok signature.
Proof.
  intros Hencode Hparams Hinputs.
  assert (Hplain : json_plain (signature_payload node inputs) = true).
  { unfold signature_payload. cbn [json_plain forallb].
    rewrite (normalise_plain _ Hparams), (normalise_plain _ Hinputs). done. }
  split; [done|]. unfold _make_signature, json_dumps_sorted.
  destruct (Hencode _ (sort_keys_plain _ Hplain)) as [data ->]. eauto.
Qed.
End Plain.

Lemma example_json_encode_plain value :
  json_plain value = true → is_Some (example_json_encode value).
Proof.
  induction value as [| | | | |items IH|elems IH|elems IH|elems IH|shape dtype raw
                      |dump IH|cls attrs IH|] using pyvalue_nested_ind;
    try done; try (simpl; eauto).
  - by destruct b; simpl; eauto.
  - intros Hok%forallb_Forall.
    match goal with
    | |- is_Some (mbind _ (?go items)) => assert (is_Some (go items)) as [body ->]
    end; [|simpl; eauto].
    induction items as [|[k v] items IHitems]; [simpl; eauto|].
    apply Forall_cons in IH as [Hv IH]. apply Forall_cons in Hok as [Hkv Hok].
    destruct (Hv Hkv) as [sv Hsv]. destruct (IHitems IH Hok) as [srest Hrest].
    cbn -[example_json_encode]. simpl in Hsv. rewrite Hsv. cbn -[example_json_encode].
    rewrite Hrest. simpl. eauto.
  - intros Hok%forallb_Forall.
    match goal with
    | |- is_Some (mbind _ (?go elems)) => assert (is_Some (go elems)) as [body ->]
    end; [|simpl; eauto].
    induction elems as [|v elems IHelems]; [simpl; eauto|].
    apply Forall_cons in IH as [Hv IH]. apply Forall_cons in Hok as [Hkv Hok].
    destruct (Hv Hkv) as [sv Hsv]. destruct (IHelems IH Hok) as [srest Hrest].
    cbn -[example_json_encode]. rewrite Hsv. cbn -[example_json_encode].
    rewrite Hrest. simpl. eauto.
  - intros Hok%forallb_Forall.
    match goal with
    | |- is_Some (mbind _ (?go elems)) => assert (is_Some (go elems)) as [body ->]
    end; [|simpl; eauto].
    induction elems as [|v elems IHelems]; [simpl; eauto|].
    apply Forall_cons in IH as [Hv IH]. apply Forall_cons in Hok as [Hkv Hok].
    destruct (Hv Hkv) as [sv Hsv]. destruct (IHelems IH Hok) as [srest Hrest].
    cbn -[example_json_encode]. rewrite Hsv. cbn -[example_json_encode].
    rewrite Hrest. simpl. eauto.
Qed.

Lemma signature_total_witness :
  (∀ value, json_plain value = true → is_Some (example_json_encode value))
  ∧ json_plain (signature_payload (H:=example_externals) example_c1
                  [("x", PNdarray [2%Z; 3%Z] "float64" "raw"); ("y", PSet [PInt 1])]) = true
  ∧ ∃ signature,
      _make_signature (H:=example_externals) example_c1
        [("x", PNdarray [2%Z; 3%Z] "float64" "raw"); ("y", PSet [PInt 1])]
      = Ok signature.
Proof.
  split; [exact example_json_encode_plain|].
  apply (signature_total (H:=example_externals) example_c1
           [("x", PNdarray [2%Z; 3%Z] "float64" "raw"); ("y", PSet [PInt 1])]
           example_json_encode_plain); reflexivity.
Defined.

(** * Removing a node from a graph with an exact dependents index *)

Lemma well_formed_inv g : well_formed g → graph_inv g ∧ sources_exist g.
Proof.
  intros [Hkeys Hconns]. split; [split; [done|split]|].
  - intros target [ports Hports]. by destruct (Hconns target ports Hports).
  - intros target. unfold inputs_for.
    destruct (_connections g !! target) as [ports|] eqn:Hports; [|apply NoDup_nil_2].
    by destruct (Hconns target ports Hports) as (_ & ? & _).
  - intros target [port connection]. unfold inputs_for.
    destruct (_connections g !! target) as [ports|] eqn:Hports; [|by intros ?%elem_of_nil].
    simpl. intros Hitem. destruct (Hconns target ports Hports) as (_ & _ & Hsrc). eauto.
Qed.

(** X21.  When the dependents index is the exact transpose of the
    connections, [remove_node] leaves no connection behind that starts
    from the removed node: a well-formed graph stays well formed, and can
    still be written and read back. *)
Theorem remove_node_well_formed node_key g g' :
  well_formed g → is_transpose g →
  remove_node node_key g = Ok g' →
  well_formed g'
  ∧ ∀ target item, item ∈ inputs_for g' target → source_node item.2 ≠ node_key.
Proof.
  intros [Hinv Hsrc]%well_formed_inv Ht Hr.
  pose proof Hinv as (_ & _ & Hu).
  destruct (remove_node_inputs node_key g g' Hu Hr) as (_ & Hn & _ & Hin).
  assert (Hgone : ∀ target item, item ∈ inputs_for g' target →
                                 item ∈ inputs_for g target ∧ source_node item.2 ≠ node_key).
  { intros target [port c]. rewrite Hin.
    destruct (decide (target = node_key)) as [->|Hne]; [by intros ?%elem_of_nil|].
    destruct (decide (target ∈ dependents_of g node_key)) as [Hdep|Hdep].
    - by intros [? ?]%list_elem_of_filter.
    - intros Hitem. split; [done|]. simpl. intros Hk. apply Hdep, Ht.
      exists port, c. split; [|done]. by apply od_get_elem.  }
  split; [|intros target item Hitem; by apply (Hgone target item)].
  apply inv_sources_well_formed.
  - by apply (mutate_inv (RemoveNode node_key) g).
  - intros target item [Hitem Hne]%Hgone. rewrite Hn, lookup_delete_ne by done.
    by apply (Hsrc target).
Qed.

Lemma is_transpose_checked g :
  ports_unique g →
  map_Forall (λ source targets,
                set_Forall (λ target,
                              Exists (λ item : string * Connection,
                                        source_node item.2 = source)
                                     (inputs_for g target))
                           targets)
             (_dependents g) →
  map_Forall (λ target ports,
                Forall (λ item : string * Connection,
                          target ∈ dependents_of g (source_node item.2)) ports)
             (_connections g) →
  is_transpose g.
Proof.
  intros Hu Hdeps Hconns source target. split.
  - unfold dependents_of. destruct (_dependents g !! source) as [targets|] eqn:Hs;
      [|set_solver].
    simpl. intros Hin. apply (Hdeps source targets Hs) in Hin.
    apply Exists_exists in Hin as ([port c] & Hitem & Hsrc).
    exists port, c. split; [|done]. by apply od_get_elem.
  - intros (port & c & Hport%od_get_Some_elem & <-). revert Hport. unfold inputs_for at 1.
    destruct (_connections g !! target) as [ports|] eqn:Hports; [|by intros ?%elem_of_nil].
    simpl. intros Hitem. specialize (Hconns target ports Hports).
    rewrite Forall_forall in Hconns. apply (Hconns (port, c) Hitem).
Qed.

Lemma remove_node_well_formed_witness :
  well_formed example_graph
  ∧ is_transpose example_graph
  ∧ ∃ g', remove_node "add" example_graph = Ok g'
          ∧ well_formed g'
          ∧ ∀ target item, item ∈ inputs_for g' target → source_node item.2 ≠ "add".
Proof.
  assert (Hwf : well_formed example_graph).
  { apply well_formed_checked; apply (bool_decide_unpack _); vm_compute; done. }
  assert (Ht : is_transpose example_graph).
  { apply is_transpose_checked.
    - apply ports_unique_checked. apply (bool_decide_unpack _). vm_compute. done.
    - apply (bool_decide_unpack _). vm_compute. done.
    - apply (bool_decide_unpack _). vm_compute. done. }
  split; [exact Hwf|]. split; [exact Ht|].
  destruct (remove_node "add" example_graph) as [g'|e] eqn:Hr; [|by vm_compute in Hr].
  exists g'. split; [done|]. exact (remove_node_well_formed "add" example_graph g' Hwf Ht Hr).
Defined.
